(** * ZRacer: track generator, collision surface, sprite rasterizer,
      player motion engine and race session

    A shallow embedding of [zracer.cpp].  C [int]s are [Z] (the program
    never relies on overflow, which is undefined for signed integers),
    [char]s are [ascii], [vector<vector<char> >] is a list of rows.
    Whatever the C++ program can only do by leaving defined behaviour
    (an index outside a vector or an array, a division by zero, a failed
    [assert]) is a [Fault] of the model.  The ncurses calls are kept as
    a log of events; [rand()] reads an oracle. *)

From Stdlib Require Import ZArith QArith Ascii Floats.SpecFloat.
From stdpp Require Import base tactics option list numbers strings.

Local Open Scope Z_scope.

(** ** Faults and the error monad *)

Inductive fault : Set :=
| AssertionFailed   (* a failed [assert]: the process aborts *)
| LengthError       (* [vector::resize] with a negative size *)
| OutOfRange        (* operator[] outside a vector or an array *)
| DivisionByZero    (* integer [/] or [%] by zero *)
| BadCast.          (* float to int conversion of a NaN or an infinity *)

Inductive result (A : Type) : Type :=
| Ok (a : A)
| Fault (f : fault).
Arguments Ok {A} a.
Arguments Fault {A} f.

#[global] Instance result_ret : MRet result := fun A a => Ok a.
#[global] Instance result_bind : MBind result := fun A B k m =>
  match m with
  | Ok a => k a
  | Fault f => Fault f
  end.

Definition is_Ok {A} (r : result A) : Prop := ∃ a, r = Ok a.

#[global] Instance fault_eq_dec : EqDecision fault.
Proof. solve_decision. Defined.
#[global] Instance result_eq_dec {A} `{EqDecision A} : EqDecision (result A).
Proof. solve_decision. Defined.

(** A C [for] loop running [n] times, the index counting up from [i]. *)
Fixpoint for_up {St : Type} (n : nat) (i : nat)
    (body : nat → St → result St) (s : St) : result St :=
  match n with
  | O => Ok s
  | S n' => s' ← body i s; for_up n' (S i) body s'
  end.

(** A loop over the elements of a list, threading a state. *)
Fixpoint foldM {A St : Type} (body : St → A → result St) (s : St)
    (l : list A) : result St :=
  match l with
  | [] => Ok s
  | a :: l' => s' ← body s a; foldM body s' l'
  end.

(** [v[i]] and [v[i] = a] on a vector or an array. *)
Definition vec_get {A} (v : list A) (i : Z) : result A :=
  if bool_decide (0 ≤ i) then
    match v !! Z.to_nat i with
    | Some a => Ok a
    | None => Fault OutOfRange
    end
  else Fault OutOfRange.

Definition vec_put {A} (v : list A) (i : Z) (a : A) : result (list A) :=
  if bool_decide (0 ≤ i < Z.of_nat (length v))
  then Ok (<[Z.to_nat i := a]> v)
  else Fault OutOfRange.

(** ** Constants *)

Definition MAX_CAR_SIZE : Z := 20.
Definition MAX_PLAYERS : Z := 2.
Definition INF : Z := 123456789.
Definition KEY_ESC : Z := 27.
Definition ACCELERATE : Z := -1.
Definition BRAKE : Z := 1.
Definition LEFT : Z := -1.
Definition RIGHT : Z := 1.

(** [a[i]] and [a[i] = v] on a C array of [MAX_PLAYERS] elements.  The
    list holds the elements that have been written, the first ones; an
    index at or above [MAX_PLAYERS] is outside the array.  [arr_new] is
    the first write to the element [i], in a loop that fills the array
    from 0 upwards. *)
Definition arr_get {A} (v : list A) (i : Z) : result A :=
  if bool_decide (i < MAX_PLAYERS) then vec_get v i else Fault OutOfRange.

Definition arr_put {A} (v : list A) (i : Z) (a : A) : result (list A) :=
  if bool_decide (i < MAX_PLAYERS) then vec_put v i a else Fault OutOfRange.

Definition arr_new {A} (v : list A) (i : Z) (a : A) : result (list A) :=
  if bool_decide (i < MAX_PLAYERS) then Ok (v ++ [a]) else Fault OutOfRange.

(** From <curses.h> and <cstdlib> (ncurses, glibc). *)
Definition KEY_DOWN : Z := 258.
Definition KEY_UP : Z := 259.
Definition KEY_LEFT : Z := 260.
Definition KEY_RIGHT : Z := 261.
Definition RAND_MAX : Z := 2147483647.

(** ** struct _settings *)

Module settings.

(** The fields that the race reads.  [delay], the pause of the main loop,
    is read by no function below and is left out.  [controls] is the
    array of [MAX_PLAYERS] sets of keys; it is read with [arr_get]. *)
Record t : Type := {
  vertical_split : bool;
  similar_track : bool;
  shared_track : bool;
  race_length : Z;
  race_width : Z;
  minimal_width : Z;
  players : Z;
  character : ascii;
  car_size : Z;
  speed_base : Z;
  rock_chance : Q;
  turn_chance : Q;
  controls : list (Z * Z * Z * Z)
}.

Definition reset : t := {|
  vertical_split := true;
  similar_track := true;
  shared_track := true;
  race_length := 500;
  race_width := 0;
  minimal_width := 0;
  players := 1;
  character := "^"%char;
  car_size := 10;
  speed_base := 5;
  rock_chance := 25 # 1000;
  turn_chance := 125 # 1000;
  controls := [(KEY_UP, KEY_DOWN, KEY_LEFT, KEY_RIGHT);
               (119, 115, 97, 100)]
|}.

Definition with_race_width (st : t) (w : Z) : t := {|
  vertical_split := vertical_split st;
  similar_track := similar_track st;
  shared_track := shared_track st;
  race_length := race_length st;
  race_width := w;
  minimal_width := minimal_width st;
  players := players st;
  character := character st;
  car_size := car_size st;
  speed_base := speed_base st;
  rock_chance := rock_chance st;
  turn_chance := turn_chance st;
  controls := controls st
|}.

Definition with_minimal_width (st : t) (w : Z) : t := {|
  vertical_split := vertical_split st;
  similar_track := similar_track st;
  shared_track := shared_track st;
  race_length := race_length st;
  race_width := race_width st;
  minimal_width := w;
  players := players st;
  character := character st;
  car_size := car_size st;
  speed_base := speed_base st;
  rock_chance := rock_chance st;
  turn_chance := turn_chance st;
  controls := controls st
|}.

Definition with_players (st : t) (n : Z) : t := {|
  vertical_split := vertical_split st;
  similar_track := similar_track st;
  shared_track := shared_track st;
  race_length := race_length st;
  race_width := race_width st;
  minimal_width := minimal_width st;
  players := n;
  character := character st;
  car_size := car_size st;
  speed_base := speed_base st;
  rock_chance := rock_chance st;
  turn_chance := turn_chance st;
  controls := controls st
|}.

(** [_edit_players] on the keys that [getch()] returns: it asks until a
    key is a digit from 1 to [MAX_PLAYERS]. *)
Fixpoint _edit_players (st : t) (keys : list Z) : t :=
  match keys with
  | [] => with_players st 0
  | key :: keys' =>
      let n := key - 48 in
      if bool_decide (n < 1 ∨ MAX_PLAYERS < n)
      then _edit_players st keys' else with_players st n
  end.

End settings.

(** The macro [MINIMAL_WIDTH] under the [(int)] cast of its only use:
    [players*car_size*2.5] is a multiple of one half, so the minimum and
    the truncation are exact in integers. *)
Definition MINIMAL_WIDTH (st : settings.t) : Z :=
  Z.min (Z.quot (5 * (settings.players st * settings.car_size st)) 2)
        (settings.race_width st - 2).

(** ** Random numbers

    [rand()] returns the next draw of an oracle, reduced to
    [0 .. RAND_MAX]; the state of the generator is the position in the
    oracle.  [drand()] is [(double)rand()/RAND_MAX], compared with a
    chance as a rational. *)

Definition rand (rnd : nat → N) (seed : nat) : Z * nat :=
  (Z.of_N (rnd seed) mod (RAND_MAX + 1), S seed).

Definition drand (rnd : nat → N) (seed : nat) : Q * nat :=
  let '(r, seed') := rand rnd seed in (Qmake r (Z.to_pos RAND_MAX), seed').

Definition Qltb (a b : Q) : bool := negb (Qle_bool b a).

Arguments rand : simpl never.
Arguments drand : simpl never.

(** ** Events on the terminal and on the collision surface *)

Inductive event : Type :=
| DisplayTrack (top_line : Z) (lines : list (list ascii))
| Taken (y x : Z)
| DisplayCar (y x : Z)
| Explode (y x : Z)
| Refresh
| Mark (player : nat)
| Unmark (player : nat)
| Tick (player : nat)
| Message (turns : Z).

(** ** class car_image *)

Module car_image.

(** [color] only reaches the terminal and is left out. *)
Record t : Type := {
  storage : list (list bool);
  dots : list (Z * Z);
  character : ascii;
  size : Z
}.

(** [storage[y][x] = b] in the [MAX_CAR_SIZE+1] square array. *)
Definition storage_put (s : list (list bool)) (y x : Z) (b : bool)
    : result (list (list bool)) :=
  row ← vec_get s y;
  row' ← vec_put row x b;
  vec_put s y row'.

Definition _clear (car : t) : result t :=
  s ← foldM (λ s i, foldM (λ s j, storage_put s i j false) s
                      (seqZ 0 (size car)))
        (storage car) (seqZ 0 (size car));
  Ok {| storage := s; dots := dots car;
        character := character car; size := size car |}.

(** Single and double precision arithmetic of [_line]. *)
Definition float_of_int (z : Z) : spec_float :=
  binary_normalize 24 128 z 0 false.

Definition double_of_float (f : spec_float) : spec_float :=
  match f with
  | S754_finite s m e => binary_normalize 53 1024 (cond_Zopp s (Zpos m)) e s
  | _ => f
  end.

Definition double_half : spec_float := binary_normalize 53 1024 1 (-1) false.

(** The [(int)] cast: truncation towards zero, undefined outside the
    range of [int]. *)
Definition int_of_double (f : spec_float) : result Z :=
  match f with
  | S754_zero _ => Ok 0
  | S754_finite s m e =>
      let v := cond_Zopp s (if bool_decide (0 ≤ e) then Zpos m * 2 ^ e
                            else Z.quot (Zpos m) (2 ^ (- e))) in
      if bool_decide (- 2 ^ 31 ≤ v < 2 ^ 31) then Ok v else Fault BadCast
  | _ => Fault BadCast
  end.

(** [(int)((float)(y2-y1)*(i-x1)/(x2-x1)+0.5)]. *)
Definition line_offset (y1 x1 y2 x2 i : Z) : result Z :=
  let prod := SFmul 24 128 (float_of_int (y2 - y1)) (float_of_int (i - x1)) in
  let quot := SFdiv 24 128 prod (float_of_int (x2 - x1)) in
  int_of_double (SFadd 53 1024 (double_of_float quot) double_half).

Definition plot (car : t) (y1 x1 y2 x2 i : Z) : result t :=
  off ← line_offset y1 x1 y2 x2 i;
  let y := y1 + off in
  s ← storage_put (storage car) y i true;
  Ok {| storage := s; dots := dots car ++ [(y, i)];
        character := character car; size := size car |}.

Definition _line (car : t) (y1 x1 y2 x2 : Z) : result t :=
  let '(y1, x1, y2, x2) :=
    if bool_decide (x2 < x1) then (y2, x2, y1, x1) else (y1, x1, y2, x2) in
  foldM (λ car i, plot car y1 x1 y2 x2 i) car (seqZ x1 (x2 - x1 + 1)).

(** The constructor.  The array [storage] is left as it is found
    outside the [size] square that [_clear] blanks; it is never read
    there. *)
Definition car_image (st : settings.t) : result t :=
  let size := settings.car_size st in
  let car := {| storage := replicate 21 (replicate 21 false); dots := [];
                character := settings.character st; size := size |} in
  car ← _clear car;
  car ← _line car 0 0 (Z.quot (1 * (size - 1)) 4) (Z.quot (4 * (size - 1)) 4);
  car ← _line car (Z.quot (1 * (size - 1)) 4) (Z.quot (4 * (size - 1)) 4)
                  (Z.quot (2 * (size - 1)) 4) 0;
  car ← _line car (Z.quot (2 * (size - 1)) 4) 0
                  (Z.quot (3 * (size - 1)) 4) (Z.quot (4 * (size - 1)) 4);
  _line car (Z.quot (3 * (size - 1)) 4) (Z.quot (4 * (size - 1)) 4)
            (Z.quot (4 * (size - 1)) 4) 0.

Definition collision_check (car : t) (y x : Z) : result bool :=
  row ← vec_get (storage car) y; vec_get row x.

Definition get_dots (car : t) : list (Z * Z) := dots car.

(** [display] on a window: the cells of the window where it puts the
    character of the car, in the order of the calls of [mvwaddch]. *)
Definition display (car : t) (y x : Z) : result (list (Z * Z * ascii)) :=
  foldM (λ out i,
    foldM (λ out j,
      row ← vec_get (storage car) i;
      b ← vec_get row j;
      Ok (if (b : bool) then out ++ [(y + i, x + j, character car)]
          else out))
      out (seqZ 0 (size car)))
    [] (seqZ 0 (size car)).

(** [explode]: the cells of the window where it puts a star, each with
    the number of its colour pair, and the state of [rand()]. *)
Definition explode (car : t) (rnd : nat → N) (seed : nat) (y x : Z)
    : list (Z * Z * Z) * nat :=
  foldl (λ s i,
    foldl (λ '(out, seed) j,
      let '(r, seed) := rand rnd seed in
      if bool_decide (Z.rem r 2 = 0) then (out, seed)
      else let '(color, seed) := rand rnd seed in
           (out ++ [(y + i, x + j, Z.rem color 7 + 1)], seed))
      s (seqZ 0 (size car)))
    ([], seed) (seqZ 0 (size car)).

End car_image.

(** ** class track *)

Module track.

(** The member [circuit]. *)
Abbreviation t := (list (list ascii)).

Definition cell (c : t) (y x : Z) : option ascii :=
  if bool_decide (0 ≤ y ∧ 0 ≤ x) then
    row ← c !! Z.to_nat y; row !! Z.to_nat x
  else None.

(** [circuit[y][x]] read. *)
Definition circuit_at (c : t) (y x : Z) : result ascii :=
  match cell c y x with
  | Some a => Ok a
  | None => Fault OutOfRange
  end.

(** [circuit[y][x] = a]. *)
Definition circuit_put (c : t) (y x : Z) (a : ascii) : result t :=
  match cell c y x with
  | Some _ => Ok (alter (<[Z.to_nat x := a]>) (Z.to_nat y) c)
  | None => Fault OutOfRange
  end.

(** *** The constructor [track::track] *)

(** The local variables [borders] and [borders_directions], and the
    state of [rand()]. *)
Record kerbs : Type := {
  borders : Z * Z;
  borders_directions : Z * Z;
  seed : nat
}.

(** ['0'+i%10]. *)
Definition distance_meter (i : Z) : ascii :=
  ascii_of_N (Z.to_N (48 + Z.rem i 10)).

(** The [switch] on a kerb direction; no case, no character. *)
Definition kerb_char (direction : Z) : option ascii :=
  if bool_decide (direction = 0) then Some "|"%char
  else if bool_decide (direction = 1) then Some "/"%char
  else if bool_decide (direction = -1) then Some "\"%char
  else None.

Definition draw_kerb (line : list ascii) (border direction : Z)
    : result (list ascii) :=
  match kerb_char direction with
  | Some a => vec_put line border a
  | None => Ok line
  end.

(** [while(tries++<5 && (drand()<turn_chance || no_space)) direction =
    rand()%3-1;] with [tries] counted up from [tries].  Returns the
    direction, the number of times the body ran and the state of
    [rand()]. *)
Fixpoint turn (rnd : nat → N) (turn_chance : Q) (no_space : Z → bool)
    (tries_left : nat) (direction : Z) (rolls : nat) (seed : nat)
    : Z * nat * nat :=
  match tries_left with
  | O => (direction, rolls, seed)
  | S tries_left =>
      let '(u, seed1) := drand rnd seed in
      if Qltb u turn_chance || no_space direction then
        let '(r, seed2) := rand rnd seed1 in
        turn rnd turn_chance no_space tries_left (Z.rem r 3 - 1) (S rolls) seed2
      else (direction, rolls, seed1)
  end.

(** The body of the loop over the lines, on the line [circuit[i]].
    Returns the line, the kerbs and how often each of the two [while]
    loops ran its body. *)
Definition line (st : settings.t) (rnd : nat → N) (i : Z)
    (l : list ascii) (k : kerbs) : result (list ascii * kerbs * (nat * nat)) :=
  let width := settings.race_width st in
  (* Put some background. *)
  let l := replicate (length l) " "%char in
  (* Distance meter. *)
  l ← vec_put l 0 (distance_meter i);
  (* Occasional rock on the track. *)
  let '(u, s) := drand rnd (seed k) in
  '(l, s) ← (if Qltb u (settings.rock_chance st) then
               let '(r, s) := rand rnd s in
               if bool_decide (width = 0) then Fault DivisionByZero
               else l ← vec_put l (Z.rem r width) "*"%char; Ok (l, s)
             else Ok (l, s));
  (* Move the kerbs. *)
  let b0 := (borders k).1 + (borders_directions k).1 in
  let b1 := (borders k).2 + (borders_directions k).2 in
  (* Draw the kerbs. *)
  l ← draw_kerb l b0 (borders_directions k).1;
  l ← draw_kerb l b1 (borders_directions k).2;
  (* Turn the kerbs... *)
  let '(d0, rolls0, s) :=
    turn rnd (settings.turn_chance st) (λ d, bool_decide (b0 + d = 0))
         5 (borders_directions k).1 0 s in
  let d0 := if bool_decide (b1 - b0 < settings.minimal_width st)
            then -1 else d0 in
  let d0 := if bool_decide (b0 + d0 = 0) then 0 else d0 in
  (* And the second one. *)
  let '(d1, rolls1, s) :=
    turn rnd (settings.turn_chance st) (λ d, bool_decide (b1 + d = width))
         5 (borders_directions k).2 0 s in
  let d1 := if bool_decide (b1 - b0 < settings.minimal_width st)
            then 1 else d1 in
  let d1 := if bool_decide (b1 + d1 = width) then 0 else d1 in
  Ok (l, {| borders := (b0, b1); borders_directions := (d0, d1); seed := s |},
      (rolls0, rolls1)).

(** [for(int i=race_length-1; 0<=i; i--)], [n] lines still to do.  The
    third component lists, from line 0 down, how often the two [while]
    loops of each line ran. *)
Fixpoint lines (st : settings.t) (rnd : nat → N) (n : nat)
    (c : t) (k : kerbs) (rolls : list (nat * nat))
    : result (t * kerbs * list (nat * nat)) :=
  match n with
  | O => Ok (c, k, rolls)
  | S i =>
      l ← vec_get c (Z.of_nat i);
      '(l, k, r) ← line st rnd (Z.of_nat i) l k;
      c ← vec_put c (Z.of_nat i) l;
      lines st rnd i c k (r :: rolls)
  end.

Definition generate (st : settings.t) (rnd : nat → N) (seed0 : nat)
    : result (t * kerbs * list (nat * nat)) :=
  let length := settings.race_length st in
  let width := settings.race_width st in
  (* Allocate the structures. *)
  if bool_decide (length < 0 ∨ 0 < length ∧ width < 0)
  then Fault LengthError else
  let c := replicate (Z.to_nat length) (replicate (Z.to_nat width) zero) in
  (* Initially make the road halfway between minimal and maximal. *)
  if bool_decide (settings.minimal_width st ≤ width) then
    let k := {| borders := (Z.quot (width - settings.minimal_width st) 4,
                            Z.quot (width * 3 + settings.minimal_width st) 4);
                borders_directions := (0, 0);
                seed := seed0 |} in
    lines st rnd (Z.to_nat length) c k []
  else Fault AssertionFailed.

(** The constructor proper: the circuit and the state of [rand()]. *)
Definition track (st : settings.t) (rnd : nat → N) (seed0 : nat)
    : result (t * nat) :=
  '(c, k, _) ← generate st rnd seed0; Ok (c, seed k).

(** *** Queries and marks *)

(** [display] on a window of [height] lines: the characters sent to
    the window. *)
Definition display (st : settings.t) (c : t) (height top_line : Z)
    : result (list (list ascii)) :=
  mapM (λ i, mapM (λ j, circuit_at c i j) (seqZ 0 (settings.race_width st)))
       (seqZ top_line height).

Definition taken (c : t) (y x : Z) : result bool :=
  a ← circuit_at c y x; Ok (negb (bool_decide (a = " "%char))).

Definition mark (st : settings.t) (c : t) (y x : Z) (car : car_image.t)
    : result t :=
  foldM (λ c d,
           a ← circuit_at c (y + d.1) (x + d.2);
           if bool_decide (a = " "%char)
           then circuit_put c (y + d.1) (x + d.2) (settings.character st)
           else Ok c)
        c (car_image.get_dots car).

Definition unmark (st : settings.t) (c : t) (y x : Z) (car : car_image.t)
    : result t :=
  foldM (λ c d,
           a ← circuit_at c (y + d.1) (x + d.2);
           if bool_decide (a = settings.character st)
           then circuit_put c (y + d.1) (x + d.2) " "%char
           else Ok c)
        c (car_image.get_dots car).

End track.

(** ** class player_handler *)

Module player_handler.

(** [WINDOW* screen] is the height and the width given to [newwin];
    [track* course] is an index in the store of tracks of the game. *)
Record t : Type := {
  screen : Z * Z;
  course : nat;
  car : car_image.t;
  last_move : Z;
  y : Z;
  x : Z;
  top_line : Z;
  command_x : Z;
  command_y : Z;
  screen_height : Z;
  controls : Z * Z * Z * Z
}.

(** The constructor; [stdscr] is the height and the width of the
    terminal. *)
Definition player_handler (st : settings.t) (stdscr : Z * Z)
    (position : Z) (racecourse : nat) : result t :=
  let '(screen_height, screen_width) := stdscr in
  if bool_decide (settings.players st = 0) then Fault DivisionByZero else
  let width := if settings.vertical_split st
               then Z.quot screen_width (settings.players st)
               else screen_width in
  let height := if settings.vertical_split st
                then screen_height
                else Z.quot screen_height (settings.players st) in
  (* We can't set the track to be wider than the display. *)
  if bool_decide (settings.race_width st ≤ width) then
    car ← car_image.car_image st;
    keys ← arr_get (settings.controls st) position;
    Ok {| screen := (height, width);
          course := racecourse;
          car := car;
          last_move := - INF;
          y := settings.race_length st - settings.car_size st;
          x := if settings.shared_track st
               then Z.quot (settings.race_width st
                            - (settings.car_size st + 1)
                              * (settings.players st - 2 * position)) 2
               else Z.quot (settings.race_width st) 2;
          top_line := settings.race_length st - height;
          command_x := 0;
          command_y := 0;
          screen_height := screen_height;
          controls := keys |}
  else Fault AssertionFailed.

Definition parse_input (p : t) (pressed_key : Z) : t :=
  let '(k0, k1, k2, k3) := controls p in
  let cy := command_y p in
  let cy := if bool_decide (pressed_key = k0) then ACCELERATE else cy in
  let cy := if bool_decide (pressed_key = k1) then BRAKE else cy in
  let cx := command_x p in
  let cx := if bool_decide (pressed_key = k2) then LEFT else cx in
  let cx := if bool_decide (pressed_key = k3) then RIGHT else cx in
  {| screen := screen p; course := course p; car := car p;
     last_move := last_move p; y := y p; x := x p; top_line := top_line p;
     command_x := cx; command_y := cy;
     screen_height := screen_height p; controls := controls p |}.

Definition mark_position (st : settings.t) (p : t) (c : track.t)
    : result track.t :=
  track.mark st c (y p) (x p) (car p).

Definition unmark_position (st : settings.t) (p : t) (c : track.t)
    : result track.t :=
  track.unmark st c (y p) (x p) (car p).

(** [last_move + (y-top_line)/settings.speed_base < time]. *)
Definition may_move (st : settings.t) (p : t) (time : Z) : result bool :=
  if bool_decide (settings.speed_base st = 0) then Fault DivisionByZero
  else Ok (bool_decide
             (last_move p + Z.quot (y p - top_line p) (settings.speed_base st)
              < time)).

(** The player after the move, the commands and the clamp. *)
Definition moved (st : settings.t) (p : t) (time : Z) : t :=
  let top := Z.max 0 (top_line p - 1) in
  let y1 := y p - 1 + command_y p in
  {| screen := screen p; course := course p; car := car p;
     last_move := time;
     y := Z.max top (Z.min (top + screen_height p - settings.car_size st) y1);
     x := x p + command_x p;
     top_line := top;
     command_x := 0; command_y := 0;
     screen_height := screen_height p; controls := controls p |}.

(** The two nested loops that check for collisions: the value of
    [survive] and the calls of [taken], in order. *)
Definition collisions (st : settings.t) (p : t) (c : track.t)
    : result (bool * list event) :=
  foldM (λ (s : bool * list event) i,
    foldM (λ (s : bool * list event) j,
      tk ← track.taken c i j;
      hit ← (if (tk : bool) then car_image.collision_check (car p) (i - y p) (j - x p)
             else Ok false);
      Ok (if (hit : bool) then false else s.1, s.2 ++ [Taken i j]))
      s (seqZ (x p) (settings.car_size st)))
    (true, []) (seqZ (y p) (settings.car_size st)).

(** The body of the [if] of [tick]: the player, the value returned and
    what was done on the way.  The colours of an explosion are drawn
    with [rand()]; they do not reach the state of the game and are left
    out. *)
Definition move (st : settings.t) (c : track.t) (p : t) (time : Z)
    : result (t * bool * list event) :=
  let p := moved st p time in
  if bool_decide (y p ≤ 0) then Ok (p, false, []) (* Plain win *)
  else
    shown ← track.display st c (screen p).1 (top_line p);
    '(survive, scan) ← collisions st p c;
    Ok (p, survive,
        [DisplayTrack (top_line p) shown] ++ scan ++
        [if (survive : bool) then DisplayCar (y p - top_line p) (x p)
         else Explode (y p - top_line p) (x p); Refresh]).

Definition tick (st : settings.t) (c : track.t) (p : t) (time : Z)
    : result (t * bool * list event) :=
  go ← may_move st p time;
  if (go : bool) then move st c p time else Ok (p, true, []).

End player_handler.

(** ** class game *)

Module game.

(** [players] and [alive] are the arrays of [MAX_PLAYERS] elements of
    the class: the lists hold the elements that the constructor has
    written, and every access goes through [arr_get], [arr_put] or
    [arr_new], which leave the array from [MAX_PLAYERS] on.  [tracks]
    is the store in which the [course] of a player lives. *)
Record t : Type := {
  time : Z;
  players : list player_handler.t;
  alive : list bool;
  tracks : list track.t
}.

Definition with_time (g : t) (time' : Z) : t :=
  {| time := time'; players := players g; alive := alive g;
     tracks := tracks g |}.
Definition with_players (g : t) (ps : list player_handler.t) : t :=
  {| time := time g; players := ps; alive := alive g; tracks := tracks g |}.
Definition with_alive (g : t) (a : list bool) : t :=
  {| time := time g; players := players g; alive := a; tracks := tracks g |}.
Definition with_tracks (g : t) (ts : list track.t) : t :=
  {| time := time g; players := players g; alive := alive g; tracks := ts |}.

(** The constructor.  [has_colors] is what the terminal answers to
    [has_colors()].  Returns the settings as adjusted, the game and the
    state of [rand()]. *)
Definition game (st : settings.t) (stdscr : Z * Z) (has_colors : bool)
    (rnd : nat → N) (seed : nat) : result (settings.t * t * nat) :=
  let n := Z.to_nat (settings.players st) in
  (* Initialize colors (refuse to start without them). *)
  if negb has_colors then Fault AssertionFailed else
  (* Adjust settings, if needed. *)
  st ← (if bool_decide (settings.race_width st = 0) then
          if settings.vertical_split st then
            if bool_decide (settings.players st = 0) then Fault DivisionByZero
            else Ok (settings.with_race_width st
                       (Z.quot stdscr.2 (settings.players st)))
          else Ok (settings.with_race_width st stdscr.2)
        else Ok st);
  let st := if bool_decide (settings.minimal_width st = 0)
            then settings.with_minimal_width st (MINIMAL_WIDTH st) else st in
  (* Prepare players *)
  '(ts, ps, seed) ←
    (if settings.shared_track st || settings.similar_track st then
       '(c, seed) ← track.track st rnd seed;
       ps ← for_up n 0 (λ i (ps : list player_handler.t),
               p ← player_handler.player_handler st stdscr (Z.of_nat i) O;
               arr_new ps (Z.of_nat i) p) [];
       Ok ([c], ps, seed)
     else
       for_up n 0 (λ i '((ts, ps, seed)
                     : list track.t * list player_handler.t * nat),
         '(c, seed) ← track.track st rnd seed;
         p ← player_handler.player_handler st stdscr (Z.of_nat i) (length ts);
         ps ← arr_new ps (Z.of_nat i) p;
         Ok (ts ++ [c], ps, seed)) ([], [], seed));
  alive ← for_up n 0 (λ i (alive : list bool),
             arr_new alive (Z.of_nat i) true) [];
  (* Let the moves begin. *)
  Ok (st, {| time := 0; players := ps; alive := alive; tracks := ts |}, seed).

(** One key of the buffer. *)
Definition key (st : settings.t) (g : t) (pressed_key : Z) : result t :=
  let n := Z.to_nat (settings.players st) in
  g ← (if bool_decide (pressed_key = KEY_ESC) then
         for_up n 0 (λ i g,
           a ← arr_put (alive g) (Z.of_nat i) false; Ok (with_alive g a)) g
       else Ok g);
  for_up n 0 (λ i g,
    p ← arr_get (players g) (Z.of_nat i);
    ps ← arr_put (players g) (Z.of_nat i)
           (player_handler.parse_input p pressed_key);
    Ok (with_players g ps)) g.

(** [players[i]->mark_position()] and [players[i]->unmark_position()]. *)
Definition mark_position (st : settings.t) (i : nat) (g : t) : result t :=
  p ← arr_get (players g) (Z.of_nat i);
  c ← vec_get (tracks g) (Z.of_nat (player_handler.course p));
  c ← player_handler.mark_position st p c;
  ts ← vec_put (tracks g) (Z.of_nat (player_handler.course p)) c;
  Ok (with_tracks g ts).

Definition unmark_position (st : settings.t) (i : nat) (g : t) : result t :=
  p ← arr_get (players g) (Z.of_nat i);
  c ← vec_get (tracks g) (Z.of_nat (player_handler.course p));
  c ← player_handler.unmark_position st p c;
  ts ← vec_put (tracks g) (Z.of_nat (player_handler.course p)) c;
  Ok (with_tracks g ts).

(** [game_continues = (alive[i] = players[i]->tick(time)) ||
    game_continues]. *)
Definition player_tick (st : settings.t) (i : nat)
    (s : t * bool * list event) : result (t * bool * list event) :=
  let '(g, game_continues, log) := s in
  p ← arr_get (players g) (Z.of_nat i);
  c ← vec_get (tracks g) (Z.of_nat (player_handler.course p));
  '(p, survives, _) ← player_handler.tick st c p (time g);
  ps ← arr_put (players g) (Z.of_nat i) p;
  a ← arr_put (alive g) (Z.of_nat i) survives;
  Ok ({| time := time g; players := ps; alive := a; tracks := tracks g |},
      survives || game_continues, log ++ [Tick i]).

(** [tick], on the keys waiting in the buffer: the game, the value
    returned and the calls made on the players, in order. *)
Definition tick (st : settings.t) (g : t) (keys : list Z)
    : result (t * bool * list event) :=
  let n := Z.to_nat (settings.players st) in
  let g := with_time g (time g + 1) in
  (* For every key waiting in buffer... *)
  g ← foldM (key st) g keys;
  (* Mark each player's position as an obstacle on the track. *)
  '(g, log) ←
    (if settings.shared_track st then
       for_up n 0 (λ i '(g, log),
         a ← arr_get (alive g) (Z.of_nat i);
         if (a : bool) then g ← mark_position st i g; Ok (g, log ++ [Mark i])
         else Ok (g, log)) (g, [])
     else Ok (g, []));
  '(g, game_continues, log) ←
    for_up n 0 (λ i '(g, game_continues, log),
      a ← arr_get (alive g) (Z.of_nat i);
      if (a : bool) then
        if settings.shared_track st then
          g ← unmark_position st i g;
          '(g, game_continues, log) ←
             player_tick st i (g, game_continues, log ++ [Unmark i]);
          g ← mark_position st i g;
          Ok (g, game_continues, log ++ [Mark i])
        else player_tick st i (g, game_continues, log)
      else Ok (g, game_continues, log)) (g, false, log);
  '(g, log) ←
    (if settings.shared_track st then
       for_up n 0 (λ i '(g, log),
         g ← unmark_position st i g; Ok (g, log ++ [Unmark i])) (g, log)
     else Ok (g, log));
  (* Results. *)
  Ok (g, game_continues,
      if (game_continues : bool) then log else log ++ [Message (time g)]).

End game.

(** ** main *)

(** What [main_menu] returns, together with the input that the chosen
    entry reads: the keys that each tick of the race finds in the
    buffer, and what the user makes of the settings in the editor. *)
Inductive menu : Type :=
| MENU_QUIT
| MENU_START (buffers : list (list Z))
| MENU_OPTIONS (editor : settings.t → settings.t).

(** [while(race.tick())], for as long as there are buffers of keys. *)
Fixpoint ticks (st : settings.t) (g : game.t) (buffers : list (list Z))
    : result game.t :=
  match buffers with
  | [] => Ok g
  | keys :: buffers' =>
      '(g, game_continues, _) ← game.tick st g keys;
      if (game_continues : bool) then ticks st g buffers' else Ok g
  end.

(** The loop of [main] on the entries that the user chooses: the
    settings when the loop ends and the entries that were not read.  A
    fault ends the program where it happens: no entry after it is
    read. *)
Fixpoint menu_loop (stdscr : Z * Z) (has_colors : bool) (rnd : nat → N)
    (st : settings.t) (seed : nat) (chosen : list menu)
    : result (settings.t * list menu) :=
  match chosen with
  | [] => Ok (st, [])
  | MENU_QUIT :: rest => Ok (st, rest)
  | MENU_START buffers :: rest =>
      '(st, g, seed) ← game.game st stdscr has_colors rnd seed;
      _ ← ticks st g buffers;
      menu_loop stdscr has_colors rnd st seed rest
  | MENU_OPTIONS editor :: rest =>
      menu_loop stdscr has_colors rnd (editor st) seed rest
  end.

Definition main (stdscr : Z * Z) (has_colors : bool) (rnd : nat → N)
    (seed : nat) (chosen : list menu) : result (settings.t * list menu) :=
  menu_loop stdscr has_colors rnd settings.reset seed chosen.

(** ** Notions used in the statements *)

(** The faults of an access outside a vector and of a division by
    zero, as opposed to a failed assertion. *)
Definition access_fault (f : fault) : Prop :=
  f = OutOfRange ∨ f = DivisionByZero.

(** The lengths of the lines of a circuit. *)
Definition shape (c : track.t) : list nat := length <$> c.

(** The cells under a car whose upper left corner is at [(y, x)]. *)
Definition footprint (y x : Z) (ds : list (Z * Z)) : list (Z * Z) :=
  (λ d, (y + d.1, x + d.2)) <$> ds.

(** [mark] and [unmark] are one sweep over the dots with the roles of
    the blank and of the car exchanged: a cell of the footprint that
    holds [from] is overwritten with [to]. *)
Definition sweep (from to : ascii) (c : track.t) (y x : Z)
    (ds : list (Z * Z)) : result track.t :=
  foldM (λ c d,
           a ← track.circuit_at c (y + d.1) (x + d.2);
           if bool_decide (a = from)
           then track.circuit_put c (y + d.1) (x + d.2) to
           else Ok c)
        c ds.

(** The kerbs of a line: the columns that hold a kerb character, from
    the left. *)
Definition is_kerb (a : ascii) : bool :=
  bool_decide (a = "|"%char ∨ a = "/"%char ∨ a = "\"%char).

Fixpoint kerbs_from (j : Z) (l : list ascii) : list Z :=
  match l with
  | [] => []
  | a :: l' =>
      if is_kerb a then j :: kerbs_from (j + 1) l' else kerbs_from (j + 1) l'
  end.

Definition kerb_columns (l : list ascii) : list Z := kerbs_from 0 l.

(** The directions a kerb can take. *)
Definition direction (d : Z) : Prop := -1 ≤ d ≤ 1.

(** The characters the generator writes. *)
Definition terrain : list ascii :=
  [" "; "*"; "|"; "/"; "\"; "0"; "1"; "2"; "3"; "4"; "5"; "6"; "7"; "8"; "9"]%char.

(** A line with two kerbs, the left one first, at least [width] apart. *)
Definition two_kerbs (width : Z) (l : list ascii) : Prop :=
  ∃ p q, kerb_columns l = [p; q] ∧ p < q ∧ width ≤ q - p.

(** What the generator keeps true of its kerbs from line to line: the
    next line is at most two narrower than the minimal width. *)
Definition kerbs_apart (st : settings.t) (k : track.kerbs) : Prop :=
  direction (track.borders_directions k).1 ∧
  direction (track.borders_directions k).2 ∧
  settings.minimal_width st - 2 ≤
    ((track.borders k).2 + (track.borders_directions k).2)
    - ((track.borders k).1 + (track.borders_directions k).1).

(** A line of a straight stretch: blanks, the distance meter and one
    upright kerb at each of the two borders. *)
Definition straight_line (width : nat) (i b0 b1 : Z) : list ascii :=
  <[Z.to_nat b1 := "|"%char]>
    (<[Z.to_nat b0 := "|"%char]>
       (<[O := track.distance_meter i]> (replicate width " "%char))).

(** The offset of [_line] in integers, and the line the specification
    asks for: [y1 + round((y2-y1)*(i-x1)/(x2-x1))], rounding half up. *)
Definition truncated_offset (y1 x1 y2 x2 i : Z) : Z :=
  Z.quot (2 * ((y2 - y1) * (i - x1)) + (x2 - x1)) (2 * (x2 - x1)).

Definition round_half_up (n d : Z) : Z := (2 * n + d) `div` (2 * d).

Definition rounded_line (y1 x1 y2 x2 : Z) : list (Z * Z) :=
  let '(y1, x1, y2, x2) :=
    if bool_decide (x2 < x1) then (y2, x2, y1, x1) else (y1, x1, y2, x2) in
  (λ i, (y1 + round_half_up ((y2 - y1) * (i - x1)) (x2 - x1), i))
    <$> seqZ x1 (x2 - x1 + 1).

(** An image of the given size before the first line is drawn. *)
Definition blank_image (st : settings.t) : car_image.t :=
  {| car_image.storage := replicate 21 (replicate 21 false);
     car_image.dots := [];
     car_image.character := settings.character st;
     car_image.size := settings.car_size st |}.

(** The kerbs of the next line are inside the grid, clear of its two
    edges. *)
Definition kerbs_inside (st : settings.t) (k : track.kerbs) : Prop :=
  kerbs_apart st k ∧
  1 ≤ (track.borders k).1 + (track.borders_directions k).1 ∧
  (track.borders k).2 + (track.borders_directions k).2
    ≤ settings.race_width st - 1.

(** *** The marks of a shared track *)

(** No cell holds the character of the cars. *)
Definition car_free (st : settings.t) (c : track.t) : Prop :=
  Forall (Forall (λ a, a ≠ settings.character st)) c.

(** [t] is [c] with cars marked on some of its blank cells. *)
Definition marks_only (st : settings.t) (c t : track.t) : Prop :=
  shape t = shape c ∧
  ∀ y x, track.cell t y x = track.cell c y x ∨
         (track.cell c y x = Some " "%char ∧
          track.cell t y x = Some (settings.character st)).

(** The cell [(y, x)] is under the car of the player. *)
Definition under (p : player_handler.t) (y x : Z) : Prop :=
  (y, x) ∈ footprint (player_handler.y p) (player_handler.x p)
                     (car_image.get_dots (player_handler.car p)).

(** Every mark on [t] is under the car of one of the first [n]
    players. *)
Definition covered (n : nat) (c t : track.t)
    (ps : list player_handler.t) : Prop :=
  ∀ y x, track.cell t y x ≠ track.cell c y x →
         ∃ j p, (j < n)%nat ∧ ps !! j = Some p ∧ under p y x.

(** What a tick on a shared track keeps true between its calls: all
    players race on the track at [k] of the store, which is [c] with
    marks that are all under cars. *)
Definition session (st : settings.t) (n k : nat) (c : track.t)
    (ts : list track.t) (g : game.t) : Prop :=
  Forall (λ p, player_handler.course p = k) (game.players g) ∧
  ∃ t, game.tracks g = <[k := t]> ts ∧ marks_only st c t ∧
       covered n c t (game.players g).

(** The players that are alive among the first [n], and the calls a
    tick on a shared track makes on the players: it marks the living,
    then unmarks, ticks and marks again each of the living in turn,
    then unmarks them all. *)
Definition living (alive : list bool) (n : nat) : list nat :=
  filter (λ i, alive !! i = Some true) (seq 0 n).

Definition shared_tick_calls (alive : list bool) (n : nat) : list event :=
  (Mark <$> living alive n)
  ++ (living alive n ≫= λ i, [Unmark i; Tick i; Mark i])
  ++ (Unmark <$> seq 0 n).

(** [t] is [c] with the character of the cars on the blank cells at
    which [M] holds, and on no other cell. *)
Definition painted (st : settings.t) (c : track.t) (M : Z → Z → Prop)
    (t : track.t) : Prop :=
  marks_only st c t ∧
  ∀ y x,
    (M y x ∧ track.cell c y x = Some " "%char →
     track.cell t y x = Some (settings.character st)) ∧
    (¬ (M y x ∧ track.cell c y x = Some " "%char) →
     track.cell t y x = track.cell c y x).

(** The cell is under the car of one of the players from [lo] up to
    [hi], not included, that are alive, at the place that [old] has for
    it: the unmarks of these players blank the cell. *)
Definition unmarked (alive : list bool) (old : list player_handler.t)
    (lo hi : nat) (y x : Z) : Prop :=
  ∃ j q, (lo ≤ j < hi)%nat ∧ alive !! j = Some true ∧ old !! j = Some q ∧
         under q y x.

(** The marks on a shared track in the course of a tick on [n]
    players, of which those of [alive] are alive when the keys are
    read; [old] has the players as they are then, [new] as they are
    after their own tick.

    [marks_before]: when the turn of player [i] comes.  A cell is
    marked when it is under the car of a living player that has not
    had its turn, at its old place, and no unmark of an earlier turn
    has blanked it; or under the car of a living player that has had
    its turn, at its new place, and no unmark of a later turn has
    blanked it.

    [marks_seen]: when player [i] is ticked, its own mark being
    removed. *)
Definition marks_before (alive : list bool) (n : nat)
    (old new : list player_handler.t) (i : nat) (y x : Z) : Prop :=
  (∃ j q, (i ≤ j < n)%nat ∧ alive !! j = Some true ∧ old !! j = Some q ∧
          under q y x ∧ ¬ unmarked alive old 0 i y x)
  ∨ (∃ j q, (j < i)%nat ∧ alive !! j = Some true ∧ new !! j = Some q ∧
            under q y x ∧ ¬ unmarked alive old (S j) i y x).

Definition marks_seen (alive : list bool) (n : nat)
    (old new : list player_handler.t) (i : nat) (y x : Z) : Prop :=
  (∃ j q, (i < j < n)%nat ∧ alive !! j = Some true ∧ old !! j = Some q ∧
          under q y x ∧ ¬ unmarked alive old 0 (S i) y x)
  ∨ (∃ j q, (j < i)%nat ∧ alive !! j = Some true ∧ new !! j = Some q ∧
            under q y x ∧ ¬ unmarked alive old (S j) (S i) y x).

(** ** Scenarios *)

(** A race of length 500 and width 80, minimal width 40, one player,
    no rocks, no turns. *)
Definition straight_race : settings.t := {|
  settings.vertical_split := true;
  settings.similar_track := true;
  settings.shared_track := true;
  settings.race_length := 500;
  settings.race_width := 80;
  settings.minimal_width := 40;
  settings.players := 1;
  settings.character := "^"%char;
  settings.car_size := 10;
  settings.speed_base := 5;
  settings.rock_chance := 0;
  settings.turn_chance := 0;
  settings.controls := settings.controls settings.reset
|}.

(** The settings of [reset] for the given number of players. *)
Definition reset_for (n : Z) : settings.t := {|
  settings.vertical_split := true;
  settings.similar_track := true;
  settings.shared_track := true;
  settings.race_length := 500;
  settings.race_width := 0;
  settings.minimal_width := 0;
  settings.players := n;
  settings.character := "^"%char;
  settings.car_size := 10;
  settings.speed_base := 5;
  settings.rock_chance := 25 # 1000;
  settings.turn_chance := 125 # 1000;
  settings.controls := settings.controls settings.reset
|}.

(** The settings as the constructor of the game adjusts them on a
    terminal with the given number of columns. *)
Definition adjusted (n columns : Z) : settings.t :=
  let st := settings.with_race_width (reset_for n) (Z.quot columns n) in
  settings.with_minimal_width st (MINIMAL_WIDTH st).

(** Settings with a minimal width above the width of the race. *)
Definition too_narrow : settings.t :=
  settings.with_minimal_width (settings.with_race_width settings.reset 40) 50.

(** A [rand()] that returns the same number for ever. *)
Definition constantly (v : N) : nat → N := λ _, v.

(** A [rand()] under which, on every line, no rock falls and each kerb
    turns once: the left one to the right, the right one to the left. *)
Definition narrowing : nat → N := λ n,
  match (n mod 7)%nat with
  | 1%nat | 4%nat | 5%nat => 0%N
  | 2%nat => 2%N
  | _ => 2147483647%N
  end.

(** A short race for examples. *)
Definition short_race : settings.t := {|
  settings.vertical_split := true;
  settings.similar_track := true;
  settings.shared_track := true;
  settings.race_length := 4;
  settings.race_width := 20;
  settings.minimal_width := 10;
  settings.players := 1;
  settings.character := "^"%char;
  settings.car_size := 10;
  settings.speed_base := 5;
  settings.rock_chance := 25 # 1000;
  settings.turn_chance := 125 # 1000;
  settings.controls := settings.controls settings.reset
|}.

(** A car of two dots and a track of three lines with a rock. *)
Definition two_dots : car_image.t := {|
  car_image.storage := [[true; false]; [false; true]];
  car_image.dots := [(0, 0); (1, 1)];
  car_image.character := "^"%char;
  car_image.size := 2
|}.

Definition three_lines : track.t :=
  [["0"; " "; " "; "|"]; ["1"; " "; "*"; "|"]; ["2"; " "; " "; "|"]]%char.

(** A player of the short race, one step from the finish line. *)
Definition finishing : player_handler.t := {|
  player_handler.screen := (24, 80);
  player_handler.course := O;
  player_handler.car := two_dots;
  player_handler.last_move := 3;
  player_handler.y := 1;
  player_handler.x := 40;
  player_handler.top_line := 0;
  player_handler.command_x := 0;
  player_handler.command_y := 0;
  player_handler.screen_height := 24;
  player_handler.controls := (259, 258, 260, 261)
|}.

(** Two players with cars of two dots on a shared track of six
    lines. *)
Definition duel : settings.t := {|
  settings.vertical_split := true;
  settings.similar_track := true;
  settings.shared_track := true;
  settings.race_length := 6;
  settings.race_width := 8;
  settings.minimal_width := 4;
  settings.players := 2;
  settings.character := "^"%char;
  settings.car_size := 2;
  settings.speed_base := 5;
  settings.rock_chance := 25 # 1000;
  settings.turn_chance := 125 # 1000;
  settings.controls := settings.controls settings.reset
|}.

Definition six_lines : track.t :=
  [["0"; "|"; " "; " "; " "; " "; " "; "|"];
   ["1"; "|"; " "; " "; " "; " "; " "; "|"];
   ["2"; "|"; " "; " "; " "; " "; " "; "|"];
   ["3"; "|"; " "; " "; " "; " "; "*"; "|"];
   ["4"; "|"; " "; " "; " "; " "; " "; "|"];
   ["5"; "|"; " "; " "; " "; " "; " "; "|"]]%char.

Definition duellist (position : nat) (x : Z) : player_handler.t := {|
  player_handler.screen := (4, 8);
  player_handler.course := O;
  player_handler.car := two_dots;
  player_handler.last_move := - INF;
  player_handler.y := 4;
  player_handler.x := x;
  player_handler.top_line := 2;
  player_handler.command_x := 0;
  player_handler.command_y := 0;
  player_handler.screen_height := 4;
  player_handler.controls :=
    match position with
    | O => (KEY_UP, KEY_DOWN, KEY_LEFT, KEY_RIGHT)
    | _ => (119, 115, 97, 100)
    end
|}.

Definition duel_game : game.t := {|
  game.time := 0;
  game.players := [duellist 0 2; duellist 1 5];
  game.alive := [true; true];
  game.tracks := [six_lines]
|}.

(** The two players one column apart, the second on the left of the
    first. *)
Definition crossing_game : game.t := {|
  game.time := 0;
  game.players := [duellist 0 3; duellist 1 2];
  game.alive := [true; true];
  game.tracks := [six_lines]
|}.

(** A race: one tick of the session for each buffer of keys. *)
Definition race (st : settings.t) (g : game.t) (buffers : list (list Z))
    : result game.t :=
  foldM (λ g keys, '(g, _, _) ← game.tick st g keys; Ok g) g buffers.

(** ** Further scenarios *)

(** The track of three lines with the car of two dots marked at line 0,
    column 2: its second dot falls on the kerb. *)
Definition marked_lines : track.t :=
  [["0"; " "; "^"; "|"]; ["1"; " "; "*"; "|"]; ["2"; " "; " "; "|"]]%char.

(** A player with the given car at the given place on the track of six
    lines. *)
Definition driver (car : car_image.t) (y x : Z) : player_handler.t := {|
  player_handler.screen := (4, 8);
  player_handler.course := O;
  player_handler.car := car;
  player_handler.last_move := - INF;
  player_handler.y := y;
  player_handler.x := x;
  player_handler.top_line := 2;
  player_handler.command_x := 0;
  player_handler.command_y := 0;
  player_handler.screen_height := 4;
  player_handler.controls := (KEY_UP, KEY_DOWN, KEY_LEFT, KEY_RIGHT)
|}.

(** ** Further notions *)

(** [storage[y][x]], where the array has it. *)
Definition pixel (s : list (list bool)) (y x : Z) : option bool :=
  if bool_decide (0 ≤ y ∧ 0 ≤ x) then
    row ← s !! Z.to_nat y; row !! Z.to_nat x
  else None.

(** An array of [MAX_CAR_SIZE+1] rows of [MAX_CAR_SIZE+1] cells. *)
Definition square21 (s : list (list bool)) : Prop :=
  length s = 21%nat ∧ Forall (λ row, length row = 21%nat) s.

(** The image and the list of dots of a car show the same picture. *)
Definition same_picture (car : car_image.t) : Prop :=
  square21 (car_image.storage car) ∧
  ∀ y x, pixel (car_image.storage car) y x = Some true
         ↔ (y, x) ∈ car_image.dots car.

(** Settings for a car of the given size and character. *)
Definition sized (n : Z) (a : ascii) : settings.t := {|
  settings.vertical_split := true;
  settings.similar_track := true;
  settings.shared_track := true;
  settings.race_length := 500;
  settings.race_width := 0;
  settings.minimal_width := 0;
  settings.players := 1;
  settings.character := a;
  settings.car_size := n;
  settings.speed_base := 5;
  settings.rock_chance := 25 # 1000;
  settings.turn_chance := 125 # 1000;
  settings.controls := settings.controls settings.reset
|}.

(** Every kerb of the line [l] has a kerb of the line [l'] in its own
    column or in one next to it. *)
Definition kerbs_near (l l' : list ascii) : Prop :=
  ∀ (j : nat) a, l !! j = Some a → is_kerb a = true →
    ∃ (j' : nat) a', l' !! j' = Some a' ∧ is_kerb a' = true ∧
                     (j' ≤ j + 1)%nat ∧ (j ≤ j' + 1)%nat.

(** The kerbs of the line [l] are at the columns [p] and [q]. *)
Definition kerbs_at (l : list ascii) (p q : Z) : Prop :=
  0 ≤ p < Z.of_nat (length l) ∧ 0 ≤ q < Z.of_nat (length l) ∧
  ∀ (j : nat) a, l !! j = Some a →
    (is_kerb a = true ↔ Z.of_nat j = p ∨ Z.of_nat j = q).

(** The settings as the constructor of the game adjusts them on a
    terminal of the given height and width. *)
Definition adjust (st : settings.t) (stdscr : Z * Z) : settings.t :=
  let st := if bool_decide (settings.race_width st = 0)
            then settings.with_race_width st
                   (if settings.vertical_split st
                    then Z.quot stdscr.2 (settings.players st) else stdscr.2)
            else st in
  if bool_decide (settings.minimal_width st = 0)
  then settings.with_minimal_width st (MINIMAL_WIDTH st) else st.

(** The height of the window of a player. *)
Definition window_height (st : settings.t) (stdscr : Z * Z) : Z :=
  if settings.vertical_split st then stdscr.1
  else Z.quot stdscr.1 (settings.players st).

(** The car of the player is on lines of the track, at or below the top
    line of the window, and the next command does not push it down by
    more than a line. *)
Definition on_track (st : settings.t) (p : player_handler.t) : Prop :=
  0 ≤ player_handler.top_line p ≤ player_handler.y p ∧
  player_handler.y p + settings.car_size st ≤ settings.race_length st ∧
  player_handler.command_y p ≤ 1.

(** Two players with cars of two dots, each on a track of its own
    look. *)
Definition apart : settings.t := {|
  settings.vertical_split := true;
  settings.similar_track := true;
  settings.shared_track := false;
  settings.race_length := 6;
  settings.race_width := 8;
  settings.minimal_width := 4;
  settings.players := 2;
  settings.character := "^"%char;
  settings.car_size := 2;
  settings.speed_base := 5;
  settings.rock_chance := 25 # 1000;
  settings.turn_chance := 125 # 1000;
  settings.controls := settings.controls settings.reset
|}.

(** The window of the player lies on lines of the track. *)
Definition window_on_track (st : settings.t) (p : player_handler.t) : Prop :=
  0 ≤ player_handler.top_line p ∧
  player_handler.top_line p + (player_handler.screen p).1
    ≤ settings.race_length st.

(** The car of the player lies on lines of the window of the player:
    at or below its top line, at or above its bottom line.  Nothing is
    said of the columns. *)
Definition car_on_window_lines (st : settings.t) (p : player_handler.t)
    : Prop :=
  player_handler.screen_height p = (player_handler.screen p).1 ∧
  settings.car_size st ≤ player_handler.screen_height p ∧
  player_handler.top_line p ≤ player_handler.y p ∧
  player_handler.y p + settings.car_size st
    ≤ player_handler.top_line p + (player_handler.screen p).1.

(** A key that [_edit_players] turns down. *)
Definition no_player_count (key : Z) : Prop :=
  key - 48 < 1 ∨ MAX_PLAYERS < key - 48.

(** * Proofs *)

(** ** The error monad, the loops and the vectors *)

Lemma bind_Ok {A B} (m : result A) (k : A → result B) (b : B) :
  m ≫= k = Ok b ↔ ∃ a, m = Ok a ∧ k a = Ok b.
Proof.
  destruct m as [a|f]; simpl.
  - split; [eauto | by intros (? & [= <-] & ?)].
  - split; [done | by intros (? & ? & ?)].
Qed.

Lemma bind_Fault {A B} (m : result A) (k : A → result B) f :
  m ≫= k = Fault f → m = Fault f ∨ ∃ a, m = Ok a ∧ k a = Fault f.
Proof.
  destruct m as [a|f']; simpl; intros H; [right; eauto|left; congruence].
Qed.

Lemma for_up_ind {St : Type} (P : nat → St → Prop) body (n : nat) :
  ∀ (i : nat) (s s' : St),
    (∀ k a b, (i ≤ k < i + n)%nat → P k a → body k a = Ok b → P (S k) b) →
    P i s → for_up n i body s = Ok s' → P (i + n)%nat s'.
Proof.
  induction n as [|n IH]; intros i s s' Hstep Hi Hrun; simpl in Hrun.
  - injection Hrun as <-. by rewrite Nat.add_0_r.
  - apply bind_Ok in Hrun as (s1 & H1 & H2).
    replace (i + S n)%nat with (S i + n)%nat by lia.
    apply (IH (S i) s1 s'); [| |done].
    + intros k a b Hk. apply Hstep. lia.
    + apply (Hstep i s s1); [lia|done|done].
Qed.

Lemma foldM_ind {A St : Type} (P : St → Prop) (body : St → A → result St) l :
  ∀ s s',
    (∀ a s1 s2, a ∈ l → P s1 → body s1 a = Ok s2 → P s2) →
    P s → foldM body s l = Ok s' → P s'.
Proof.
  induction l as [|a l IH]; intros s s' Hstep Hs Hrun; simpl in Hrun.
  - by injection Hrun as <-.
  - apply bind_Ok in Hrun as (s1 & H1 & H2).
    apply (IH s1 s'); [| |done].
    + intros b t1 t2 Hb. apply Hstep. by apply elem_of_cons; right.
    + apply (Hstep a s s1); [by apply elem_of_cons; left|done|done].
Qed.

Lemma vec_get_Ok {A} (v : list A) i a :
  vec_get v i = Ok a ↔ 0 ≤ i ∧ v !! Z.to_nat i = Some a.
Proof.
  unfold vec_get. case_bool_decide as Hi.
  - destruct (v !! Z.to_nat i) as [b|].
    + split; [by intros [= ->]|by intros [_ [= ->]]].
    + split; [done|by intros [_ ?]].
  - split; [done|by intros [? _]].
Qed.

Lemma vec_put_Ok {A} (v : list A) i a v' :
  vec_put v i a = Ok v' ↔
  0 ≤ i < Z.of_nat (length v) ∧ v' = <[Z.to_nat i := a]> v.
Proof.
  unfold vec_put. case_bool_decide as Hi.
  - split; [by intros [= <-]|by intros [_ ->]].
  - split; [done|by intros [? _]].
Qed.

Lemma vec_put_in {A} (v : list A) i a :
  0 ≤ i < Z.of_nat (length v) → vec_put v i a = Ok (<[Z.to_nat i := a]> v).
Proof. intros H. unfold vec_put. by rewrite bool_decide_true. Qed.

Lemma arr_get_Ok {A} (v : list A) i a :
  arr_get v i = Ok a ↔ i < MAX_PLAYERS ∧ vec_get v i = Ok a.
Proof.
  unfold arr_get. case_bool_decide; [by split; [|intros []]|].
  split; [done|by intros []].
Qed.

Lemma arr_put_Ok {A} (v : list A) i a v' :
  arr_put v i a = Ok v' ↔ i < MAX_PLAYERS ∧ vec_put v i a = Ok v'.
Proof.
  unfold arr_put. case_bool_decide; [by split; [|intros []]|].
  split; [done|by intros []].
Qed.

Lemma arr_new_Ok {A} (v : list A) i a v' :
  arr_new v i a = Ok v' ↔ i < MAX_PLAYERS ∧ v' = v ++ [a].
Proof.
  unfold arr_new. case_bool_decide.
  - split; [by intros [= <-]|by intros [_ ->]].
  - split; [done|by intros []].
Qed.

(** ** Tactics for the runs of the program *)

(** [compute_result r k] evaluates the closed run [r] and passes its
    value to [k]. *)
Ltac compute_result r k :=
  let v := eval vm_compute in r in k v.

(** Membership of a given character in a given list. *)
Ltac in_list := apply list_elem_of_In; cbv; repeat (first [by left | right]).

(** ** The grid, cell by cell *)

Lemma cell_Some_bounds (c : track.t) y x a :
  track.cell c y x = Some a → 0 ≤ y ∧ 0 ≤ x.
Proof. unfold track.cell. case_bool_decide; naive_solver. Qed.

Lemma circuit_at_Ok (c : track.t) y x a :
  track.circuit_at c y x = Ok a ↔ track.cell c y x = Some a.
Proof. unfold track.circuit_at. destruct (track.cell c y x); naive_solver. Qed.

Lemma shape_alter_insert (c : track.t) r k (v : ascii) :
  shape (alter (<[k := v]>) r c) = shape c.
Proof.
  unfold shape. apply list_eq. intros i.
  rewrite !list_lookup_fmap.
  destruct (decide (i = r)) as [->|Hne].
  - rewrite list_lookup_alter_eq. destruct (c !! r); simpl; [|done].
    by rewrite length_insert.
  - by rewrite list_lookup_alter_ne.
Qed.

Lemma cell_put (c : track.t) y x v c' :
  track.circuit_put c y x v = Ok c' →
  shape c' = shape c ∧
  ∀ r k, track.cell c' r k =
         if decide ((r, k) = (y, x)) then Some v else track.cell c r k.
Proof.
  unfold track.circuit_put.
  destruct (track.cell c y x) as [old|] eqn:Hc; [|done].
  intros [= <-]. split; [apply shape_alter_insert|].
  intros r k.
  pose proof (cell_Some_bounds _ _ _ _ Hc) as [Hy Hx].
  unfold track.cell in *. rewrite bool_decide_true in Hc by done.
  case_bool_decide as Hb.
  - destruct Hb as [Hr Hk].
    destruct (decide (r = y)) as [->|Hry].
    + rewrite list_lookup_alter_eq.
      destruct (c !! Z.to_nat y) as [row|] eqn:Hrow; simpl in *; [|done].
      destruct (decide (k = x)) as [->|Hkx].
      * rewrite decide_True by done.
        apply list_lookup_insert_eq. by apply lookup_lt_Some in Hc.
      * rewrite decide_False by congruence.
        apply list_lookup_insert_ne. lia.
    + rewrite decide_False by congruence.
      rewrite list_lookup_alter_ne by lia. done.
  - rewrite decide_False; [done|]. intros [= -> ->]. apply Hb. done.
Qed.

Lemma cell_shape (c c' : track.t) y x :
  shape c = shape c' →
  is_Some (track.cell c y x) → is_Some (track.cell c' y x).
Proof.
  intros Hs. unfold track.cell. case_bool_decide; [|by intros [??]].
  assert (length <$> c !! Z.to_nat y = length <$> c' !! Z.to_nat y) as Hl.
  { unfold shape in Hs. by rewrite <- !list_lookup_fmap, Hs. }
  destruct (c !! Z.to_nat y) as [row|], (c' !! Z.to_nat y) as [row'|];
    simpl in *; try done; try by intros [??].
  injection Hl as Hl. rewrite !lookup_lt_is_Some. lia.
Qed.

Lemma track_ext (c c' : track.t) :
  shape c = shape c' →
  (∀ y x, track.cell c y x = track.cell c' y x) → c = c'.
Proof.
  intros Hs Hc. apply list_eq. intros r.
  assert (length <$> c !! r = length <$> c' !! r) as Hl.
  { unfold shape in Hs. by rewrite <- !list_lookup_fmap, Hs. }
  destruct (c !! r) as [row|] eqn:Hr, (c' !! r) as [row'|] eqn:Hr';
    simpl in *; try done.
  f_equal. apply list_eq. intros k.
  specialize (Hc (Z.of_nat r) (Z.of_nat k)). unfold track.cell in Hc.
  rewrite bool_decide_true in Hc by lia.
  rewrite !Nat2Z.id, Hr, Hr' in Hc. done.
Qed.

(** ** The collision surface: [mark] and [unmark] *)

Lemma mark_sweep st c y x car :
  track.mark st c y x car
  = sweep " "%char (settings.character st) c y x (car_image.dots car).
Proof. reflexivity. Qed.

Lemma unmark_sweep st c y x car :
  track.unmark st c y x car
  = sweep (settings.character st) " "%char c y x (car_image.dots car).
Proof. reflexivity. Qed.

(** One step of a sweep. *)
Lemma sweep_step from to (c : track.t) y x c' :
  (a ← track.circuit_at c y x;
   if bool_decide (a = from) then track.circuit_put c y x to else Ok c)
  = Ok c' →
  shape c' = shape c ∧ is_Some (track.cell c y x) ∧
  ∀ r k, track.cell c' r k =
    if decide ((r, k) = (y, x) ∧ track.cell c r k = Some from)
    then Some to else track.cell c r k.
Proof.
  intros H. apply bind_Ok in H as (a0 & Ha0 & H).
  apply circuit_at_Ok in Ha0.
  case_bool_decide as Hfrom.
  - apply cell_put in H as [Hs Hc]. split; [done|]. split; [by eexists|].
    intros r k. rewrite Hc. subst a0.
    destruct (decide ((r, k) = (y, x))) as [[= -> ->]|Hne].
    + by rewrite decide_True.
    + rewrite decide_False; [done|]. by intros [? _].
  - injection H as <-. split; [done|]. split; [by eexists|].
    intros r k. rewrite decide_False; [done|].
    intros [[= -> ->] Hc]. congruence.
Qed.

(** The result of a sweep, cell by cell. *)
Lemma sweep_cells from to ds : ∀ (c : track.t) y x c',
  sweep from to c y x ds = Ok c' →
  shape c' = shape c ∧
  (∀ p, p ∈ footprint y x ds → is_Some (track.cell c p.1 p.2)) ∧
  ∀ r k, track.cell c' r k =
    if decide ((r, k) ∈ footprint y x ds ∧ track.cell c r k = Some from)
    then Some to else track.cell c r k.
Proof.
  induction ds as [|d ds IH]; intros c y x c' H; unfold sweep in H;
    simpl in H.
  - injection H as <-. split; [done|]. split.
    + intros p Hp. by apply elem_of_nil in Hp.
    + intros r k. rewrite decide_False; [done|].
      intros [Hp _]. by apply elem_of_nil in Hp.
  - apply bind_Ok in H as (c1 & H1 & H2).
    apply sweep_step in H1 as (Hs1 & Hin1 & Hc1).
    apply IH in H2 as (Hs2 & Hin2 & Hc2).
    split; [congruence|]. split.
    + intros p Hp. simpl in Hp. apply elem_of_cons in Hp as [->|Hp]; [done|].
      apply (cell_shape c1 c); [done|]. by apply Hin2.
    + intros r k. rewrite Hc2, Hc1. simpl.
      destruct (decide ((r, k) = (y + d.1, x + d.2)
                        ∧ track.cell c r k = Some from)) as [[Hp Hf]|Hn].
      * rewrite (decide_True (P := _ ∈ _ :: _ ∧ _)).
        -- by case_decide.
        -- split; [|done]. rewrite Hp. apply elem_of_cons. by left.
      * destruct (decide ((r, k) ∈ footprint y x ds
                          ∧ track.cell c r k = Some from)) as [[Hp Hf]|Hn'].
        -- rewrite decide_True; [done|]. split; [|done].
           apply elem_of_cons. by right.
        -- rewrite decide_False; [done|]. intros [Hp Hf].
           apply elem_of_cons in Hp as [Hp|Hp]; [by apply Hn|by apply Hn'].
Qed.

(** A sweep goes through as soon as the footprint is on the grid. *)
Lemma sweep_total from to ds : ∀ (c : track.t) y x,
  (∀ p, p ∈ footprint y x ds → is_Some (track.cell c p.1 p.2)) →
  is_Ok (sweep from to c y x ds).
Proof.
  induction ds as [|d ds IH]; intros c y x Hin; unfold sweep; simpl.
  - by eexists.
  - destruct (Hin (y + d.1, x + d.2)) as [a Ha].
    { apply elem_of_cons. by left. }
    simpl in Ha.
    assert (∃ c1, (a ← track.circuit_at c (y + d.1) (x + d.2);
                   if bool_decide (a = from)
                   then track.circuit_put c (y + d.1) (x + d.2) to
                   else Ok c) = Ok c1) as [c1 Hc1].
    { unfold track.circuit_at, track.circuit_put. rewrite Ha. simpl.
      case_bool_decide; eauto. }
    rewrite Hc1. simpl.
    apply sweep_step in Hc1 as (Hs1 & _ & _).
    apply IH. intros p Hp. apply (cell_shape c c1); [done|].
    apply Hin. apply elem_of_cons. by right.
Qed.

(** C8. [track::mark] writes only cells that are empty.  The circuit
    keeps its shape, every cell that held anything but a blank (a rock,
    a kerb, a digit, the mark of a car) still holds it, and a cell that
    did change lies under the car, was blank and now holds the
    character of the cars. *)
Theorem mark_writes_only_empty_cells st (c : track.t) y x car c' :
  track.mark st c y x car = Ok c' →
  shape c' = shape c ∧
  (∀ r k a, track.cell c r k = Some a → a ≠ " "%char →
            track.cell c' r k = Some a) ∧
  (∀ r k, track.cell c' r k ≠ track.cell c r k →
          (r, k) ∈ footprint y x (car_image.get_dots car) ∧
          track.cell c r k = Some " "%char ∧
          track.cell c' r k = Some (settings.character st)).
Proof.
  rewrite mark_sweep. intros H.
  apply sweep_cells in H as (Hs & _ & Hc).
  split; [done|]. split.
  - intros r k a Ha Hne. rewrite Hc, decide_False; [done|].
    intros [_ Hb]. congruence.
  - intros r k Hdiff. rewrite Hc in Hdiff |- *.
    case_decide as Hd; [|done]. by destruct Hd.
Qed.

Lemma mark_writes_only_empty_cells_witness :
  ∃ c' : track.t,
    track.mark short_race three_lines 0 1 two_dots = Ok c' ∧
    shape c' = shape three_lines ∧
    (∀ r k a, track.cell three_lines r k = Some a → a ≠ " "%char →
              track.cell c' r k = Some a) ∧
    (∀ r k, track.cell c' r k ≠ track.cell three_lines r k →
            (r, k) ∈ footprint 0 1 (car_image.get_dots two_dots) ∧
            track.cell three_lines r k = Some " "%char ∧
            track.cell c' r k = Some (settings.character short_race)).
Proof.
  compute_result (track.mark short_race three_lines 0 1 two_dots)
    ltac:(fun v => match v with Ok ?c => exists c end).
  split; [reflexivity|].
  apply (mark_writes_only_empty_cells short_race three_lines 0 1 two_dots).
  reflexivity.
Defined.

(** Between a [mark] and its [unmark] the circuit may change anywhere
    but under the car: the cells under the car come back as they were
    before the [mark], the others are left as they are found. *)
Lemma mark_unmark_frame st (c c1 c2 : track.t) y x car :
  Forall (λ p, track.cell c p.1 p.2 ≠ Some (settings.character st))
         (footprint y x (car_image.get_dots car)) →
  track.mark st c y x car = Ok c1 →
  shape c2 = shape c1 →
  Forall (λ p, track.cell c2 p.1 p.2 = track.cell c1 p.1 p.2)
         (footprint y x (car_image.get_dots car)) →
  ∃ c3, track.unmark st c2 y x car = Ok c3 ∧
        shape c3 = shape c ∧
        ∀ r k, track.cell c3 r k =
               if decide ((r, k) ∈ footprint y x (car_image.get_dots car))
               then track.cell c r k else track.cell c2 r k.
Proof.
  rewrite !Forall_forall. intros Hfree Hm Hs2 Hsame.
  rewrite mark_sweep in Hm. rewrite unmark_sweep.
  apply sweep_cells in Hm as (Hs1 & Hin & Hc1).
  destruct (sweep_total (settings.character st) " "%char
              (car_image.dots car) c2 y x) as [c3 Hu].
  { intros p Hp. apply (cell_shape c c2); [congruence|]. by apply Hin. }
  exists c3. split; [done|].
  apply sweep_cells in Hu as (Hs3 & _ & Hc3).
  split; [congruence|].
  intros r k. rewrite Hc3. unfold car_image.get_dots.
  destruct (decide ((r, k) ∈ footprint y x (car_image.dots car)))
    as [Hp|Hp].
  - pose proof (Hsame _ Hp) as Hk. pose proof (Hfree _ Hp) as Hf.
    simpl in Hk, Hf. rewrite Hk, Hc1.
    destruct (decide ((r, k) ∈ footprint y x (car_image.dots car)
                      ∧ track.cell c r k = Some " "%char)) as [[_ Hb]|Hn].
    + by rewrite decide_True.
    + rewrite decide_False; [done|]. by intros [_ ?].
  - rewrite decide_False; [done|]. by intros [? _].
Qed.

(** C3. [mark] followed by [unmark] at the same place with the same car
    gives back the circuit as it was before the [mark], when no mark of
    another car lies under the car: [unmark] goes through and returns
    the circuit of before. *)
Theorem mark_unmark_round_trip st (c c1 : track.t) y x car :
  Forall (λ p, track.cell c p.1 p.2 ≠ Some (settings.character st))
         (footprint y x (car_image.get_dots car)) →
  track.mark st c y x car = Ok c1 →
  track.unmark st c1 y x car = Ok c.
Proof.
  intros Hfree Hm.
  destruct (mark_unmark_frame st c c1 c1 y x car Hfree Hm eq_refl)
    as (c3 & Hu & Hs & Hc).
  { by apply Forall_forall. }
  rewrite Hu. f_equal. apply track_ext; [done|].
  intros r k. rewrite Hc. case_decide as Hp; [done|].
  rewrite mark_sweep in Hm. apply sweep_cells in Hm as (_ & _ & Hc1).
  rewrite Hc1, decide_False; [done|]. by intros [? _].
Qed.

Lemma mark_unmark_round_trip_witness :
  ∃ c1 : track.t,
    Forall (λ p, track.cell three_lines p.1 p.2
                 ≠ Some (settings.character short_race))
           (footprint 0 1 (car_image.get_dots two_dots)) ∧
    track.mark short_race three_lines 0 1 two_dots = Ok c1 ∧
    track.unmark short_race c1 0 1 two_dots = Ok three_lines.
Proof.
  compute_result (track.mark short_race three_lines 0 1 two_dots)
    ltac:(fun v => match v with Ok ?c => exists c end).
  assert (Forall (λ p, track.cell three_lines p.1 p.2
                       ≠ Some (settings.character short_race))
                 (footprint 0 1 (car_image.get_dots two_dots))) as Hfree.
  { repeat constructor; by vm_compute. }
  split; [exact Hfree|]. split; [reflexivity|].
  apply (mark_unmark_round_trip short_race three_lines _ 0 1 two_dots Hfree).
  reflexivity.
Defined.

(** Without the proviso the round trip fails: [unmark] wipes the mark
    another car left under this one. *)
Lemma unmark_wipes_the_mark_of_another_car :
  ∃ c1 : track.t,
    track.mark short_race [["^"; " "]; [" "; " "]]%char 0 0 two_dots = Ok c1 ∧
    track.unmark short_race c1 0 0 two_dots = Ok [[" "; " "]; [" "; " "]]%char.
Proof. eexists. split; reflexivity. Qed.

(** ** The generator of tracks *)

(** *** Random numbers and turns *)

Lemma rand_range rnd s : 0 ≤ (rand rnd s).1 ≤ RAND_MAX.
Proof.
  unfold rand, RAND_MAX. simpl.
  pose proof (Z.mod_pos_bound (Z.of_N (rnd s)) (2147483647 + 1)). lia.
Qed.

Lemma rand_seed rnd s : (rand rnd s).2 = S s.
Proof. reflexivity. Qed.

Lemma drand_seed rnd s : (drand rnd s).2 = S s.
Proof. reflexivity. Qed.

(** A chance of zero never comes true. *)
Lemma drand_zero_chance rnd s (chance : Q) :
  (chance <= 0)%Q → Qltb (drand rnd s).1 chance = false.
Proof.
  intros Hc. unfold Qltb. apply negb_false_iff, Qle_bool_iff.
  apply Qle_trans with (1 := Hc).
  unfold drand. destruct (rand rnd s) as [r s'] eqn:Hr. simpl.
  pose proof (rand_range rnd s) as Hrange. rewrite Hr in Hrange.
  simpl in Hrange. unfold Qle. simpl. lia.
Qed.

Lemma rem3_direction r : 0 ≤ r → direction (Z.rem r 3 - 1).
Proof.
  intros Hr. unfold direction.
  pose proof (Z.rem_bound_pos r 3 Hr). lia.
Qed.

Lemma turn_S rnd chance no_space n d rolls s :
  track.turn rnd chance no_space (S n) d rolls s =
  if Qltb (drand rnd s).1 chance || no_space d then
    track.turn rnd chance no_space n
      (Z.rem (rand rnd (drand rnd s).2).1 3 - 1) (S rolls)
      (rand rnd (drand rnd s).2).2
  else (d, rolls, (drand rnd s).2).
Proof. reflexivity. Qed.

Lemma turn_direction rnd chance no_space : ∀ n d rolls s,
  direction d → direction (track.turn rnd chance no_space n d rolls s).1.1.
Proof.
  induction n as [|n IH]; intros d rolls s Hd; [done|].
  rewrite turn_S.
  destruct (drand rnd s) as [u s1]. cbn [fst snd].
  destruct (Qltb u chance || no_space d); [|done].
  destruct (rand rnd s1) as [r s2] eqn:Hr.
  apply IH. apply rem3_direction.
  pose proof (rand_range rnd s1) as Hrange. rewrite Hr in Hrange.
  simpl in *. lia.
Qed.

(** With a turn chance of zero and space left, the direction stays. *)
Lemma turn_zero_chance rnd chance no_space n d rolls s :
  (chance <= 0)%Q → no_space d = false →
  track.turn rnd chance no_space (S n) d rolls s = (d, rolls, S s).
Proof.
  intros Hc Hs. rewrite turn_S.
  by rewrite (drand_zero_chance rnd s chance Hc), Hs, drand_seed.
Qed.

(** *** The characters and the kerbs of a line *)

(** The kerbs of a line with exactly two kerbs. *)
Lemma kerbs_from_none l : ∀ j,
  (∀ n a, l !! n = Some a → is_kerb a = false) → kerbs_from j l = [].
Proof.
  induction l as [|a l IH]; intros j H; simpl; [done|].
  rewrite (H O a) by done. apply IH. intros n b Hn. by apply (H (S n)).
Qed.

Lemma kerbs_from_one l : ∀ j (p : nat),
  (p < length l)%nat →
  (∀ n a, l !! n = Some a → is_kerb a = true ↔ n = p) →
  kerbs_from j l = [j + Z.of_nat p].
Proof.
  induction l as [|a l IH]; intros j p Hp H; simpl in *; [lia|].
  destruct p as [|p].
  - assert (is_kerb a = true) as -> by by apply (H O).
    rewrite kerbs_from_none; [f_equal; lia|].
    intros n b Hn. apply not_true_is_false. intros Hb.
    by apply (H (S n)) in Hb.
  - assert (is_kerb a = false) as ->.
    { apply not_true_is_false. intros Hb. by apply (H O) in Hb. }
    rewrite (IH (j + 1) p); [f_equal; lia|lia|].
    intros n b Hn. rewrite (H (S n) b Hn). lia.
Qed.

Lemma kerbs_from_two l : ∀ j (p q : nat),
  (p < q < length l)%nat →
  (∀ n a, l !! n = Some a → is_kerb a = true ↔ n = p ∨ n = q) →
  kerbs_from j l = [j + Z.of_nat p; j + Z.of_nat q].
Proof.
  induction l as [|a l IH]; intros j p q Hpq H; simpl in *; [lia|].
  destruct p as [|p].
  - assert (is_kerb a = true) as -> by (apply (H O); auto).
    destruct q as [|q]; [lia|].
    rewrite (kerbs_from_one l (j + 1) q); [f_equal; [lia|f_equal; lia]|lia|].
    intros n b Hn. rewrite (H (S n) b Hn). lia.
  - assert (is_kerb a = false) as ->.
    { apply not_true_is_false. intros Hb. apply (H O) in Hb; [lia|done]. }
    destruct q as [|q]; [lia|].
    rewrite (IH (j + 1) p q); [f_equal; [lia|f_equal; lia]|lia|].
    intros n b Hn. rewrite (H (S n) b Hn). lia.
Qed.

Lemma distance_meter_no_kerb i : 0 ≤ i → is_kerb (track.distance_meter i) = false.
Proof.
  intros Hi. unfold track.distance_meter.
  pose proof (Z.rem_bound_pos i 10 Hi) as Hr.
  assert (Z.rem i 10 ∈ seqZ 0 10) as Hin by (apply elem_of_seqZ; lia).
  revert Hin. generalize (Z.rem i 10). intros z Hin.
  vm_compute in Hin.
  repeat (apply elem_of_cons in Hin as [->|Hin]; [by vm_compute|]).
  by apply elem_of_nil in Hin.
Qed.

Lemma kerb_char_Some d : direction d → ∃ a, track.kerb_char d = Some a ∧ is_kerb a = true.
Proof.
  unfold direction, track.kerb_char. intros Hd.
  repeat case_bool_decide; try lia; eexists; split; try done.
Qed.

Lemma kerb_char_straight : track.kerb_char 0 = Some "|"%char.
Proof. reflexivity. Qed.

Lemma distance_meter_terrain i : 0 ≤ i → track.distance_meter i ∈ terrain.
Proof.
  intros Hi. unfold track.distance_meter.
  pose proof (Z.rem_bound_pos i 10 Hi) as Hr.
  assert (Z.rem i 10 ∈ seqZ 0 10) as Hin by (apply elem_of_seqZ; lia).
  revert Hin. generalize (Z.rem i 10). intros z Hin.
  vm_compute in Hin.
  repeat (apply elem_of_cons in Hin as [->|Hin]; [in_list|]).
  by apply elem_of_nil in Hin.
Qed.

Lemma kerb_char_terrain d a : track.kerb_char d = Some a → a ∈ terrain.
Proof.
  unfold track.kerb_char. repeat case_bool_decide; intros [= <-]; in_list.
Qed.

Lemma draw_kerb_terrain l b d l' :
  Forall (λ a, a ∈ terrain) l → track.draw_kerb l b d = Ok l' →
  Forall (λ a, a ∈ terrain) l'.
Proof.
  intros Hl. unfold track.draw_kerb.
  destruct (track.kerb_char d) as [a|] eqn:Ha; [|by intros [= <-]].
  intros [_ ->]%vec_put_Ok. apply Forall_insert; [done|].
  by eapply kerb_char_terrain.
Qed.

(** The kerbs the generator starts from are at least the minimal width
    apart. *)
Lemma initial_kerbs_apart w m :
  0 ≤ m ≤ w → m ≤ Z.quot (w * 3 + m) 4 - Z.quot (w - m) 4.
Proof.
  intros H. rewrite !Z.quot_div_nonneg by lia.
  pose proof (Z.div_mod (w * 3 + m) 4). pose proof (Z.div_mod (w - m) 4).
  pose proof (Z.mod_pos_bound (w * 3 + m) 4).
  pose proof (Z.mod_pos_bound (w - m) 4). lia.
Qed.

Lemma straight_line_kerbs i :
  0 ≤ i → kerb_columns (straight_line 80 i 10 70) = [10; 70].
Proof.
  intros Hi.
  change (straight_line 80 i 10 70)
    with (track.distance_meter i
            :: <[69%nat := "|"%char]>
                 (<[9%nat := "|"%char]> (replicate 79 " "%char))).
  unfold kerb_columns. cbn [kerbs_from].
  rewrite (distance_meter_no_kerb i Hi). by vm_compute.
Qed.

Section generator.

Context (st : settings.t) (rnd : nat → N).

(** *** The body of the loop *)

(** What the body of the loop does to a line and to the kerbs. *)
Lemma line_spec i l k l' k' r :
  0 ≤ i →
  direction (track.borders_directions k).1 →
  direction (track.borders_directions k).2 →
  track.line st rnd i l k = Ok (l', k', r) →
  let b0 := (track.borders k).1 + (track.borders_directions k).1 in
  let b1 := (track.borders k).2 + (track.borders_directions k).2 in
  let d0 := (track.borders_directions k').1 in
  let d1 := (track.borders_directions k').2 in
  track.borders k' = (b0, b1) ∧
  length l' = length l ∧
  0 ≤ b0 < Z.of_nat (length l) ∧ 0 ≤ b1 < Z.of_nat (length l) ∧
  (∀ n a, l' !! n = Some a →
          is_kerb a = true ↔ Z.of_nat n = b0 ∨ Z.of_nat n = b1) ∧
  direction d0 ∧ direction d1 ∧
  (b0 ≠ 0 → b0 + d0 ≠ 0) ∧
  (b1 ≠ settings.race_width st → b1 + d1 ≠ settings.race_width st) ∧
  (b1 - b0 < settings.minimal_width st →
   (d0 = -1 ∨ d0 = 0 ∧ b0 = 1) ∧
   (d1 = 1 ∨ d1 = 0 ∧ b1 = settings.race_width st - 1)).
Proof.
  intros Hi Hd0 Hd1 H. unfold track.line in H.
  apply bind_Ok in H as (l1 & H1 & H).
  destruct (drand rnd (track.seed k)) as [u s1].
  apply bind_Ok in H as ([l2 s2] & H2 & H).
  apply bind_Ok in H as (l3 & H3 & H).
  apply bind_Ok in H as (l4 & H4 & H).
  pose proof (turn_direction rnd (settings.turn_chance st)
    (λ d, bool_decide ((track.borders k).1 + (track.borders_directions k).1
                       + d = 0)) 5 _ 0%nat s2 Hd0) as Ht0.
  destruct (track.turn _ _ _ 5 (track.borders_directions k).1 _ s2)
    as [[t0 r0] s3].
  pose proof (turn_direction rnd (settings.turn_chance st)
    (λ d, bool_decide ((track.borders k).2 + (track.borders_directions k).2
                       + d = settings.race_width st)) 5 _ 0%nat s3 Hd1) as Ht1.
  destruct (track.turn _ _ _ 5 (track.borders_directions k).2 _ s3)
    as [[t1 r1] s4].
  injection H as <- <- <-. cbn [fst snd] in Ht0, Ht1.
  set (b0 := (track.borders k).1 + (track.borders_directions k).1) in *.
  set (b1 := (track.borders k).2 + (track.borders_directions k).2) in *.
  cbn [track.borders track.borders_directions fst snd].
  (* the line *)
  apply vec_put_Ok in H1 as [Hn1 ->].
  assert (Forall (λ a, is_kerb a = false) l2 ∧
          length l2 = length l) as [Hfree Hlen2].
  { assert (Forall (λ a, is_kerb a = false)
              (<[Z.to_nat 0 := track.distance_meter i]>
                 (replicate (length l) " "%char))) as Hbg.
    { apply Forall_insert; [|by apply distance_meter_no_kerb].
      by apply Forall_replicate. }
    destruct (Qltb u (settings.rock_chance st)).
    - destruct (rand rnd s1) as [rr s]. case_bool_decide; [done|].
      apply bind_Ok in H2 as (l2' & Hput & [= <- <-]).
      apply vec_put_Ok in Hput as [_ ->]. split.
      + by apply Forall_insert.
      + by rewrite !length_insert, length_replicate.
    - injection H2 as <- <-. split; [done|].
      by rewrite length_insert, length_replicate. }
  destruct (kerb_char_Some _ Hd0) as (a0 & Ha0 & Hk0).
  destruct (kerb_char_Some _ Hd1) as (a1 & Ha1 & Hk1).
  unfold track.draw_kerb in H3, H4. rewrite Ha0 in H3. rewrite Ha1 in H4.
  apply vec_put_Ok in H3 as [Hb0 ->].
  apply vec_put_Ok in H4 as [Hb1 ->].
  rewrite length_insert in Hb1.
  split; [done|]. split; [by rewrite !length_insert|].
  split; [lia|]. split; [lia|]. split.
  { intros n a Hn.
    destruct (decide (n = Z.to_nat b1)) as [->|Hn1'].
    - rewrite list_lookup_insert_eq in Hn by (rewrite length_insert; lia).
      injection Hn as <-. split; [lia|done].
    - rewrite list_lookup_insert_ne in Hn by done.
      destruct (decide (n = Z.to_nat b0)) as [->|Hn0'].
      + rewrite list_lookup_insert_eq in Hn by lia.
        injection Hn as <-. split; [lia|done].
      + rewrite list_lookup_insert_ne in Hn by done.
        rewrite Forall_lookup in Hfree. rewrite (Hfree n a Hn).
        split; [done|lia]. }
  clear H2. unfold direction in *.
  repeat case_bool_decide; repeat split; try lia.
Qed.

Lemma line_kerbs_apart i l k l' k' r :
  0 ≤ i → kerbs_apart st k →
  track.line st rnd i l k = Ok (l', k', r) →
  kerbs_apart st k'.
Proof.
  intros Hi (Hd0 & Hd1 & Hw) H.
  apply line_spec in H; [|done..].
  destruct H as (Hb & Hlen & Hb0 & Hb1 & Hk & Hd0' & Hd1' & _ & _ & Hnarrow).
  set (b0 := (track.borders k).1 + (track.borders_directions k).1) in *.
  set (b1 := (track.borders k).2 + (track.borders_directions k).2) in *.
  unfold kerbs_apart. rewrite Hb. cbn [fst snd].
  split; [done|]. split; [done|].
  unfold direction in *.
  destruct (decide (b1 - b0 < settings.minimal_width st)) as [Hlt|Hge].
  - destruct (Hnarrow Hlt) as [[?|[? ?]] [?|[? ?]]]; lia.
  - lia.
Qed.

Lemma line_two_kerbs i l k l' k' r :
  0 ≤ i → 3 ≤ settings.minimal_width st →
  kerbs_apart st k →
  track.line st rnd i l k = Ok (l', k', r) →
  two_kerbs (settings.minimal_width st - 2) l' ∧ kerbs_apart st k' ∧
  length l' = length l.
Proof.
  intros Hi Hmw Hk H.
  split; [|split; [by eapply line_kerbs_apart|]].
  - destruct Hk as (Hd0 & Hd1 & Hw).
    apply line_spec in H; [|done..].
    destruct H as (Hb & Hlen & Hb0 & Hb1 & Hk & _).
    set (b0 := (track.borders k).1 + (track.borders_directions k).1) in *.
    set (b1 := (track.borders k).2 + (track.borders_directions k).2) in *.
    exists b0, b1. split; [|lia].
    unfold kerb_columns.
    rewrite (kerbs_from_two l' 0 (Z.to_nat b0) (Z.to_nat b1)).
    + f_equal; [lia|f_equal; lia].
    + lia.
    + intros n a Hn. rewrite (Hk n a Hn). lia.
  - destruct Hk as (Hd0 & Hd1 & _). by apply line_spec in H as (_ & ? & _).
Qed.

Lemma line_terrain i l k l' k' r :
  0 ≤ i → track.line st rnd i l k = Ok (l', k', r) →
  Forall (λ a, a ∈ terrain) l' ∧ length l' = length l.
Proof.
  intros Hi H. unfold track.line in H.
  apply bind_Ok in H as (l1 & H1 & H).
  destruct (drand rnd (track.seed k)) as [u s1].
  apply bind_Ok in H as ([l2 s2] & H2 & H).
  apply bind_Ok in H as (l3 & H3 & H).
  apply bind_Ok in H as (l4 & H4 & H).
  destruct (track.turn _ _ _ 5 (track.borders_directions k).1 _ s2)
    as [[t0 r0] s3].
  destruct (track.turn _ _ _ 5 (track.borders_directions k).2 _ s3)
    as [[t1 r1] s4].
  injection H as <- _ _.
  apply vec_put_Ok in H1 as [_ ->].
  assert (Forall (λ a, a ∈ terrain) l2 ∧ length l2 = length l) as [Hl2 Hn2].
  { assert (Forall (λ a, a ∈ terrain)
              (<[Z.to_nat 0 := track.distance_meter i]>
                 (replicate (length l) " "%char))) as Hbg.
    { apply Forall_insert; [|by apply distance_meter_terrain].
      apply Forall_replicate. in_list. }
    destruct (Qltb u (settings.rock_chance st)).
    - destruct (rand rnd s1) as [rr s]. case_bool_decide; [done|].
      apply bind_Ok in H2 as (l2' & Hput & [= <- <-]).
      apply vec_put_Ok in Hput as [_ ->]. split.
      + apply Forall_insert; [done|]. in_list.
      + by rewrite !length_insert, length_replicate.
    - injection H2 as <- <-. split; [done|].
      by rewrite length_insert, length_replicate. }
  split.
  - eapply draw_kerb_terrain; [|done]. by eapply draw_kerb_terrain.
  - unfold track.draw_kerb in H3, H4.
    destruct (track.kerb_char _) in H3;
      [apply vec_put_Ok in H3 as [_ ->]|injection H3 as <-];
    destruct (track.kerb_char _) in H4;
      [apply vec_put_Ok in H4 as [_ ->]| injection H4 as <- |
       apply vec_put_Ok in H4 as [_ ->]| injection H4 as <-];
    by rewrite ?length_insert.
Qed.

(** With the kerbs of the next line inside the grid, the body of the
    loop goes through and leaves the kerbs of the line after inside the
    grid. *)
Lemma line_total i l k :
  0 ≤ i → 2 ≤ settings.minimal_width st →
  Z.of_nat (length l) = settings.race_width st →
  kerbs_inside st k →
  ∃ l' k' r, track.line st rnd i l k = Ok (l', k', r)
             ∧ kerbs_inside st k' ∧ length l' = length l.
Proof.
  intros Hi Hmw Hl (Hk & Hb0 & Hb1).
  pose proof Hk as (Hd0 & Hd1 & Hw).
  set (b0 := (track.borders k).1 + (track.borders_directions k).1) in *.
  set (b1 := (track.borders k).2 + (track.borders_directions k).2) in *.
  assert (is_Ok (track.line st rnd i l k)) as [[[l' k'] r] Hrun].
  { unfold track.line. fold b0 b1.
    rewrite vec_put_in by (rewrite length_replicate; lia).
    cbn [mbind result_bind].
    destruct (drand rnd (track.seed k)) as [u s1].
    set (l1 := <[Z.to_nat 0 := track.distance_meter i]> (replicate (length l) " "%char)).
    assert (length l1 = length l) as Hl1
      by (unfold l1; by rewrite length_insert, length_replicate).
    assert (∃ l2 s2,
      (if Qltb u (settings.rock_chance st)
       then let '(r, s) := rand rnd s1 in
            if bool_decide (settings.race_width st = 0)
            then Fault DivisionByZero
            else l ← vec_put l1 (Z.rem r (settings.race_width st)) "*"%char;
                 Ok (l, s)
       else Ok (l1, s1)) = Ok (l2, s2) ∧ length l2 = length l)
      as (l2 & s2 & -> & Hl2).
    { destruct (Qltb u (settings.rock_chance st)); [|by eexists _, _].
      pose proof (rand_range rnd s1) as Hr.
      destruct (rand rnd s1) as [r s2]. cbn [fst] in Hr.
      rewrite bool_decide_false by lia.
      pose proof (Z.rem_bound_pos r (settings.race_width st)).
      rewrite vec_put_in by lia. cbn [mbind result_bind].
      eexists _, _. split; [done|]. by rewrite length_insert. }
    cbn [mbind result_bind].
    destruct (kerb_char_Some _ Hd0) as (a0 & Ha0 & _).
    destruct (kerb_char_Some _ Hd1) as (a1 & Ha1 & _).
    unfold track.draw_kerb. rewrite Ha0, Ha1.
    rewrite vec_put_in by lia. cbn [mbind result_bind].
    rewrite vec_put_in by (rewrite length_insert; lia).
    cbn [mbind result_bind].
    destruct (track.turn _ _ _ 5 (track.borders_directions k).1 _ s2)
      as [[t0 r0] s3].
    destruct (track.turn _ _ _ 5 (track.borders_directions k).2 _ s3)
      as [[t1 r1] s4].
    by eexists. }
  exists l', k', r. split; [done|].
  pose proof (line_kerbs_apart _ _ _ _ _ _ Hi Hk Hrun) as Hk'.
  apply line_spec in Hrun; [|done..].
  destruct Hrun as (Hb & Hlen & _ & _ & _ & Hd0' & Hd1' & Hn0 & Hn1 & _).
  fold b0 b1 in Hb, Hn0, Hn1.
  split; [|done]. split; [done|].
  rewrite Hb. cbn [fst snd]. unfold direction in *.
  split; lia.
Qed.

(** With no rocks and no turns, kerbs that stand clear of the edges
    and wide enough apart stay where they are. *)
Lemma line_straight i l k b0 b1 :
  (settings.rock_chance st <= 0)%Q → (settings.turn_chance st <= 0)%Q →
  track.borders k = (b0, b1) → track.borders_directions k = (0, 0) →
  0 < b0 → b0 < Z.of_nat (length l) → 0 ≤ b1 < Z.of_nat (length l) →
  b1 ≠ settings.race_width st →
  settings.minimal_width st ≤ b1 - b0 →
  track.line st rnd i l k =
  Ok (straight_line (length l) i b0 b1,
      {| track.borders := (b0, b1); track.borders_directions := (0, 0);
         track.seed := S (S (S (track.seed k))) |}, (O, O)).
Proof.
  intros Hrock Hturn Hb Hd Hb0 Hb0' Hb1 Hb1' Hmw.
  unfold track.line. rewrite Hb, Hd. cbn [fst snd].
  rewrite vec_put_in by (rewrite length_replicate; lia). cbn [mbind result_bind].
  pose proof (drand_zero_chance rnd (track.seed k) _ Hrock) as Hu.
  pose proof (drand_seed rnd (track.seed k)) as Hs.
  destruct (drand rnd (track.seed k)) as [u s1]. cbn [fst snd] in Hu, Hs.
  subst s1. rewrite Hu. cbn [mbind result_bind].
  rewrite !Z.add_0_r. unfold track.draw_kerb. rewrite kerb_char_straight.
  rewrite vec_put_in by (rewrite length_insert, length_replicate; lia).
  cbn [mbind result_bind].
  rewrite vec_put_in by (rewrite !length_insert, length_replicate; lia).
  cbn [mbind result_bind].
  rewrite turn_zero_chance; [|done|by rewrite bool_decide_false by lia].
  rewrite turn_zero_chance; [|done|by rewrite bool_decide_false by lia].
  rewrite (bool_decide_false (b1 - b0 < _)) by lia.
  rewrite (bool_decide_false (b0 + 0 = 0)) by lia.
  rewrite (bool_decide_false (b1 + 0 = _)) by lia.
  reflexivity.
Qed.

(** *** The loop and the constructor *)

(** The loop over the lines: the lines made are as the body leaves
    them, the lines above the loop index are not touched. *)
Lemma lines_ind (width : nat)
    (P : Z → list ascii → Prop) (I : track.kerbs → Prop) :
  (∀ i l k l' k' r, 0 ≤ i → I k → length l = width →
                    track.line st rnd i l k = Ok (l', k', r) →
                    P i l' ∧ I k' ∧ length l' = width) →
  ∀ n (c : track.t) k rolls c' k' rolls',
    I k → Forall (λ l, length l = width) c →
    track.lines st rnd n c k rolls = Ok (c', k', rolls') →
    length c' = length c ∧ I k' ∧
    (∀ j, (n ≤ j)%nat → c' !! j = c !! j) ∧
    (∀ j row, (j < n)%nat → c' !! j = Some row → P (Z.of_nat j) row).
Proof.
  intros Hbody. induction n as [|n IH]; intros c k rolls c' k' rolls' Hk Hc H.
  - injection H as <- <- <-. repeat split; [done|]. intros; lia.
  - simpl in H.
    apply bind_Ok in H as (l & Hl & H).
    apply bind_Ok in H as ([[l1 k1] r1] & Hline & H).
    apply bind_Ok in H as (c1 & Hput & H).
    apply vec_put_Ok in Hput as [Hn ->].
    apply vec_get_Ok in Hl as [_ Hl].
    apply Hbody in Hline as (HP & HI & Hl1);
      [|lia|done|by apply (Forall_lookup_1 _ _ _ _ Hc Hl)].
    apply IH in H as (Hlen & HI' & Hup & Hdown);
      [|done|by apply Forall_insert].
    rewrite length_insert in Hlen. rewrite Nat2Z.id in *.
    split; [done|]. split; [done|]. split.
    + intros j Hj. rewrite Hup by lia.
      apply list_lookup_insert_ne. lia.
    + intros j row Hj Hrow.
      destruct (decide (j = n)) as [->|Hne].
      * rewrite Hup in Hrow by lia.
        rewrite list_lookup_insert_eq in Hrow by lia. by injection Hrow as <-.
      * apply (Hdown j); [lia|done].
Qed.

(** The loop over the lines goes through when its body does. *)
Lemma lines_total (width : nat) (I : track.kerbs → Prop) :
  (∀ i l k, 0 ≤ i → I k → length l = width →
            ∃ l' k' r, track.line st rnd i l k = Ok (l', k', r)
                       ∧ I k' ∧ length l' = width) →
  ∀ n (c : track.t) k rolls,
    I k → (n ≤ length c)%nat → Forall (λ l, length l = width) c →
    is_Ok (track.lines st rnd n c k rolls).
Proof.
  intros Hbody. induction n as [|n IH]; intros c k rolls Hk Hn Hc.
  - by eexists.
  - simpl.
    destruct (lookup_lt_is_Some_2 c n) as [l Hl]; [lia|].
    assert (vec_get c (Z.of_nat n) = Ok l) as ->.
    { apply vec_get_Ok. rewrite Nat2Z.id. split; [lia|done]. }
    cbn [mbind result_bind].
    destruct (Hbody (Z.of_nat n) l k) as (l' & k' & r & -> & Hk' & Hl');
      [lia|done|by apply (Forall_lookup_1 _ _ _ _ Hc Hl)|].
    cbn [mbind result_bind].
    rewrite vec_put_in by lia. cbn [mbind result_bind].
    apply IH; [done|rewrite length_insert; lia|].
    by apply Forall_insert.
Qed.

Lemma generate_Ok seed0 c k rolls :
  track.generate st rnd seed0 = Ok (c, k, rolls) →
  0 ≤ settings.race_length st ∧
  settings.minimal_width st ≤ settings.race_width st ∧
  track.lines st rnd (Z.to_nat (settings.race_length st))
    (replicate (Z.to_nat (settings.race_length st))
       (replicate (Z.to_nat (settings.race_width st)) zero))
    {| track.borders :=
         (Z.quot (settings.race_width st - settings.minimal_width st) 4,
          Z.quot (settings.race_width st * 3 + settings.minimal_width st) 4);
       track.borders_directions := (0, 0);
       track.seed := seed0 |} [] = Ok (c, k, rolls).
Proof.
  unfold track.generate. repeat case_bool_decide; try done.
  intros Hrun. repeat split; try done; lia.
Qed.

Lemma track_generate seed0 c s :
  track.track st rnd seed0 = Ok (c, s) ↔
  ∃ k rolls, track.generate st rnd seed0 = Ok (c, k, rolls) ∧ track.seed k = s.
Proof.
  unfold track.track. split.
  - intros H. apply bind_Ok in H as ([[c1 k1] r1] & Hg & [= <- <-]). eauto.
  - intros (k & rolls & -> & <-). done.
Qed.

(** A generated track holds no car, unless the cars are drawn with a
    character of the terrain. *)
Lemma track_car_free seed0 (c : track.t) s :
  settings.character st ∉ terrain →
  track.track st rnd seed0 = Ok (c, s) → car_free st c.
Proof.
  intros Hch H.
  apply track_generate in H as (k & rolls & H & _).
  apply generate_Ok in H as (Hl & Hle & H).
  apply (lines_ind (Z.to_nat (settings.race_width st))
           (λ _ row, Forall (λ a, a ∈ terrain) row) (λ _, True)) in H.
  - destruct H as (Hlen & _ & _ & Hrows).
    unfold car_free. apply Forall_lookup. intros i row Hrow.
    assert (Forall (λ a, a ∈ terrain) row) as Hterrain.
    { apply (Hrows i); [|done]. apply lookup_lt_Some in Hrow.
      by rewrite Hlen, length_replicate in Hrow. }
    eapply Forall_impl; [done|]. intros a Ha ->. done.
  - intros j l k0 l' k0' r Hj _ Hlj Hline.
    apply line_terrain in Hline as [? ?]; [|done].
    split; [done|]. split; [done|congruence].
  - done.
  - apply Forall_replicate. by rewrite length_replicate.
Qed.

(** The generator completes whenever the minimal width is at least 2
    and at least 4 below the width of the race. *)
Lemma track_total seed0 :
  0 ≤ settings.race_length st →
  2 ≤ settings.minimal_width st →
  settings.minimal_width st + 4 ≤ settings.race_width st →
  is_Ok (track.track st rnd seed0).
Proof.
  intros Hl Hmw Hw. unfold track.track, track.generate.
  rewrite bool_decide_false by lia. rewrite bool_decide_true by lia.
  match goal with |- context [track.lines st rnd ?n0 ?c0 ?k0 ?r0] =>
    destruct (λ Hb, lines_total (Z.to_nat (settings.race_width st))
                      (kerbs_inside st) Hb n0 c0 k0 r0)
      as [[[c' k'] rolls'] ->] end.
  - intros i l k Hi Hk Hlen.
    destruct (line_total i l k) as (l' & k' & r & ? & ? & ?);
      [done|done|lia|done|].
    exists l', k', r. split; [done|]. split; [done|congruence].
  - set (w := settings.race_width st) in *.
    set (m := settings.minimal_width st) in *.
    unfold kerbs_inside, kerbs_apart, direction.
    cbn [track.borders track.borders_directions fst snd].
    pose proof (initial_kerbs_apart w m).
    rewrite !Z.quot_div_nonneg in * by lia.
    pose proof (Z.div_mod (w * 3 + m) 4). pose proof (Z.div_mod (w - m) 4).
    pose proof (Z.mod_pos_bound (w * 3 + m) 4).
    pose proof (Z.mod_pos_bound (w - m) 4). lia.
  - by rewrite length_replicate.
  - apply Forall_replicate. by rewrite length_replicate.
  - by eexists.
Qed.

(** The assertion of the constructor of the track: a minimal width
    above the width of the race stops the program before any line is
    made. *)
Lemma track_asserts_minimal_width seed0 :
  0 ≤ settings.race_length st → 0 ≤ settings.race_width st →
  settings.race_width st < settings.minimal_width st →
  track.track st rnd seed0 = Fault AssertionFailed.
Proof.
  intros Hl Hw Hm. unfold track.track, track.generate.
  rewrite bool_decide_false by lia. by rewrite bool_decide_false by lia.
Qed.

(** *** The straight race *)

Section straight.

Hypothesis Hmw : settings.minimal_width st = 40.
Hypothesis HW : settings.race_width st = 80.
Hypothesis Hrock : (settings.rock_chance st == 0)%Q.
Hypothesis Hturn : (settings.turn_chance st == 0)%Q.

(** With no rocks and no turns the kerbs of the scenario stay at
    columns 10 and 70. *)
Lemma straight_race_line i l k :
  track.borders k = (10, 70) → track.borders_directions k = (0, 0) →
  length l = 80%nat →
  track.line st rnd i l k =
  Ok (straight_line 80 i 10 70,
      {| track.borders := (10, 70);
         track.borders_directions := (0, 0);
         track.seed := S (S (S (track.seed k))) |}, (O, O)).
Proof.
  intros Hb Hd Hl. rewrite <- Hl.
  apply line_straight; try done; rewrite ?Hl, ?HW, ?Hmw; try lia.
  - rewrite Hrock. apply Qle_refl.
  - rewrite Hturn. apply Qle_refl.
Qed.

End straight.

End generator.

(** *** The faults of the generator *)

Lemma vec_put_fault {A} (v : list A) i a f :
  vec_put v i a = Fault f → access_fault f.
Proof. unfold vec_put. case_bool_decide; [done|]. intros [= <-]. by left. Qed.

Lemma vec_get_fault {A} (v : list A) i f :
  vec_get v i = Fault f → access_fault f.
Proof.
  unfold vec_get. case_bool_decide; [|intros [= <-]; by left].
  destruct (v !! Z.to_nat i); [done|]. intros [= <-]. by left.
Qed.

Lemma draw_kerb_fault l b d f :
  track.draw_kerb l b d = Fault f → access_fault f.
Proof.
  unfold track.draw_kerb. destruct (track.kerb_char d); [|done].
  apply vec_put_fault.
Qed.

(** No assertion is made in the body of the loop. *)
Lemma line_fault st rnd i l k f :
  track.line st rnd i l k = Fault f → access_fault f.
Proof.
  unfold track.line. intros H.
  apply bind_Fault in H as [H|(l1 & _ & H)]; [by eapply vec_put_fault|].
  destruct (drand rnd (track.seed k)) as [u s].
  apply bind_Fault in H as [H|([l2 s2] & _ & H)].
  { destruct (Qltb u (settings.rock_chance st)); [|done].
    destruct (rand rnd s) as [r s'].
    case_bool_decide; [injection H as <-; by right|].
    apply bind_Fault in H as [H|(? & _ & H)]; [by eapply vec_put_fault|done]. }
  apply bind_Fault in H as [H|(l3 & _ & H)]; [by eapply draw_kerb_fault|].
  apply bind_Fault in H as [H|(l4 & _ & H)]; [by eapply draw_kerb_fault|].
  by repeat (destruct (track.turn _ _ _ _ _ _ _) as [[? ?] ?]).
Qed.

Lemma lines_fault st rnd n c k rolls f :
  track.lines st rnd n c k rolls = Fault f → access_fault f.
Proof.
  revert c k rolls. induction n as [|n IH]; intros c k rolls H; [done|].
  cbn [track.lines] in H.
  apply bind_Fault in H as [H|(l & _ & H)]; [by eapply vec_get_fault|].
  apply bind_Fault in H as [H|([[l' k'] r] & _ & H)]; [by eapply line_fault|].
  apply bind_Fault in H as [H|(c' & _ & H)]; [by eapply vec_put_fault|].
  by eapply IH.
Qed.

(** The assertion on the minimal width is the only one of the
    constructor: it fails before the loop over the lines or not at
    all. *)
Lemma track_asserts_only_minimal_width st rnd seed0 :
  track.track st rnd seed0 = Fault AssertionFailed →
  settings.race_width st < settings.minimal_width st.
Proof.
  unfold track.track. intros H.
  apply bind_Fault in H as [H|([[c k] r] & _ & H)]; [|done].
  unfold track.generate in H.
  case_bool_decide; [done|]. case_bool_decide; [|lia].
  apply lines_fault in H as [?|?]; done.
Qed.

(** *** The tracks of the generator *)

(** C6, as the generator has it.  In every track that the generator
    completes, for a minimal width of at least 3, every line holds
    exactly two kerb cells, the left kerb is strictly left of the right
    one, and the road between them is at least the minimal width less
    two. *)
Theorem generated_lines_have_two_kerbs st rnd seed0 (c : track.t) s :
  3 ≤ settings.minimal_width st →
  track.track st rnd seed0 = Ok (c, s) →
  ∀ (i : nat) row, c !! i = Some row →
    ∃ p q, kerb_columns row = [p; q] ∧ p < q ∧
           settings.minimal_width st - 2 ≤ q - p.
Proof.
  intros Hmw H i row Hrow.
  apply track_generate in H as (k & rolls & H & _).
  apply generate_Ok in H as (Hl & Hle & H).
  apply (lines_ind st rnd (Z.to_nat (settings.race_width st))
           (λ _, two_kerbs (settings.minimal_width st - 2))
           (kerbs_apart st)) in H.
  - destruct H as (Hlen & _ & _ & Hrows).
    apply (Hrows i); [|done].
    apply lookup_lt_Some in Hrow.
    rewrite Hlen, length_replicate in Hrow. done.
  - intros j l k0 l' k0' r Hj Hk0 Hlj Hline.
    apply line_two_kerbs in Hline as (? & ? & ?); [|done..].
    split; [done|]. split; [done|congruence].
  - unfold kerbs_apart, direction.
    cbn [track.borders track.borders_directions fst snd].
    split; [lia|]. split; [lia|].
    pose proof (initial_kerbs_apart (settings.race_width st)
                  (settings.minimal_width st)). lia.
  - apply Forall_replicate. by rewrite length_replicate.
Qed.

(** C1, as the generator has it.  For a race of length 500 and width 80
    with a minimal width of 40, no rocks and no turns, whatever
    [rand()] returns, the generator completes and every one of the 500
    lines is a straight line with its left kerb at column 10 and its
    right kerb at column 70. *)
Theorem straight_kerbs_at_10_and_70 st rnd seed0 :
  settings.race_length st = 500 →
  settings.minimal_width st = 40 →
  settings.race_width st = 80 →
  (settings.rock_chance st == 0)%Q →
  (settings.turn_chance st == 0)%Q →
  ∃ (c : track.t) s,
    track.track st rnd seed0 = Ok (c, s) ∧ length c = 500%nat ∧
    ∀ (i : nat) row, c !! i = Some row →
      row = straight_line 80 (Z.of_nat i) 10 70 ∧
      kerb_columns row = [10; 70] ∧
      row !! 10%nat = Some "|"%char ∧ row !! 70%nat = Some "|"%char.
Proof.
  intros HL Hmw HW Hrock Hturn.
  set (I := λ k, track.borders k = (10, 70)
                 ∧ track.borders_directions k = (0, 0)).
  assert (∀ i l k, I k → length l = 80%nat →
            track.line st rnd i l k =
            Ok (straight_line 80 i 10 70,
                {| track.borders := (10, 70);
                   track.borders_directions := (0, 0);
                   track.seed := S (S (S (track.seed k))) |}, (O, O)))
    as Hbody.
  { intros i l k [Hb Hd] Hl.
    by apply (straight_race_line st rnd Hmw HW Hrock Hturn). }
  unfold track.track, track.generate. rewrite HL, HW, Hmw.
  rewrite bool_decide_false by lia. rewrite bool_decide_true by lia.
  change (Z.quot (80 - 40) 4) with 10. change (Z.quot (80 * 3 + 40) 4) with 70.
  match goal with |- context [track.lines st rnd ?n0 ?c0 ?k0 ?r0] =>
    destruct (λ Hb, lines_total st rnd 80 I Hb n0 c0 k0 r0)
      as [[[c' k'] rolls'] Hrun] end.
  - intros i l k _ Hk Hl. rewrite (Hbody i l k Hk Hl).
    eexists _, _, _. split; [done|]. split; [done|].
    unfold straight_line. by rewrite !length_insert, length_replicate.
  - done.
  - by rewrite length_replicate.
  - apply Forall_replicate. by rewrite length_replicate.
  - rewrite Hrun. exists c', (track.seed k'). split; [done|].
    apply (lines_ind st rnd 80 (λ i row, row = straight_line 80 i 10 70) I)
      in Hrun as (Hlen & _ & _ & Hrows).
    + rewrite length_replicate in Hlen. split; [done|].
      intros i row Hrow.
      assert (i < 500)%nat as Hi by (apply lookup_lt_Some in Hrow; lia).
      rewrite (Hrows i row) by (done || lia).
      split; [done|]. split; [apply straight_line_kerbs; lia|].
      by cbn.
    + intros i l k l' k'' r Hi Hk Hl.
      rewrite (Hbody i l k Hk Hl). intros [= <- <- <-].
      split; [done|]. split; [done|].
      unfold straight_line. by rewrite !length_insert, length_replicate.
    + done.
    + apply Forall_replicate. by rewrite length_replicate.
Qed.

(** *** Runs of the generator *)

Lemma straight_kerbs_at_10_and_70_witness :
  settings.race_length straight_race = 500 ∧
  settings.minimal_width straight_race = 40 ∧
  settings.race_width straight_race = 80 ∧
  (settings.rock_chance straight_race == 0)%Q ∧
  (settings.turn_chance straight_race == 0)%Q ∧
  ∃ (c : track.t) s,
    track.track straight_race (constantly 7) 0 = Ok (c, s) ∧
    length c = 500%nat ∧
    ∀ (i : nat) row, c !! i = Some row →
      row = straight_line 80 (Z.of_nat i) 10 70 ∧
      kerb_columns row = [10; 70] ∧
      row !! 10%nat = Some "|"%char ∧ row !! 70%nat = Some "|"%char.
Proof.
  do 5 (split; [reflexivity|]).
  apply (straight_kerbs_at_10_and_70 straight_race (constantly 7) 0);
    reflexivity.
Defined.

(** C1, as the specification has it, fails: in the race of the
    scenario the line 0 has its kerbs at columns 10 and 70; its columns
    20 and 60 are blank. *)
Lemma kerbs_not_at_20_and_60 :
  ∃ (c : track.t) s row,
    track.track straight_race (constantly 0) 0 = Ok (c, s) ∧
    c !! 0%nat = Some row ∧
    kerb_columns row = [10; 70] ∧
    row !! 20%nat = Some " "%char ∧ row !! 60%nat = Some " "%char.
Proof.
  compute_result (track.track straight_race (constantly 0) 0)
    ltac:(fun v => match v with Ok (?c, ?s) => exists c, s end).
  eexists. split; [by vm_compute|].
  repeat split; by vm_compute.
Qed.

(** The settings of [reset] on a terminal of 80 columns: a race 80
    wide with a minimal width of 25. *)
Lemma adjusted_1_80 :
  settings.race_width (adjusted 1 80) = 80 ∧
  settings.minimal_width (adjusted 1 80) = 25 ∧
  settings.race_length (adjusted 1 80) = 500.
Proof. by vm_compute. Qed.

(** C6, as the specification has it, fails: with the settings of
    [reset] on 80 columns there is a run of the generator in which
    neither [while] loop ever runs its body five times, and where the
    line 484 has its kerbs at columns 28 and 51, a road of 23 for a
    minimal width of 25. *)
Lemma narrow_line_without_retry_cap :
  ∃ (c : track.t) k rolls row,
    track.generate (adjusted 1 80) narrowing 0 = Ok (c, k, rolls) ∧
    forallb (λ r, (r.1 <? 5)%nat && (r.2 <? 5)%nat) rolls = true ∧
    c !! 484%nat = Some row ∧
    kerb_columns row = [28; 51] ∧
    ¬ (settings.minimal_width (adjusted 1 80) ≤ 51 - 28).
Proof.
  compute_result (track.generate (adjusted 1 80) narrowing 0)
    ltac:(fun v => match v with Ok (?c, ?k, ?r) => exists c, k, r end).
  eexists. split; [by vm_compute|].
  repeat split; by vm_compute.
Qed.

Lemma generated_lines_have_two_kerbs_witness :
  ∃ (c : track.t) s row,
    3 ≤ settings.minimal_width short_race ∧
    track.track short_race narrowing 0 = Ok (c, s) ∧
    c !! 1%nat = Some row ∧
    ∃ p q, kerb_columns row = [p; q] ∧ p < q ∧
           settings.minimal_width short_race - 2 ≤ q - p.
Proof.
  compute_result (track.track short_race narrowing 0)
    ltac:(fun v => match v with Ok (?c, ?s) => exists c, s end).
  eexists. split; [by vm_compute|].
  split; [by vm_compute|]. split; [by vm_compute|].
  apply (generated_lines_have_two_kerbs short_race narrowing 0 _ _
           ltac:(by vm_compute) ltac:(by vm_compute) 1%nat).
  by vm_compute.
Defined.

(** With fewer than three columns of minimal width the two kerbs can
    meet: a line with a single kerb cell. *)
Lemma kerbs_meet_for_small_minimal_width :
  ∃ (c : track.t) s row,
    track.track (settings.with_minimal_width
                   (settings.with_race_width short_race 6) 2)
                narrowing 0 = Ok (c, s) ∧
    c !! 1%nat = Some row ∧ kerb_columns row = [3].
Proof.
  compute_result (track.track (settings.with_minimal_width
                     (settings.with_race_width short_race 6) 2) narrowing 0)
    ltac:(fun v => match v with Ok (?c, ?s) => exists c, s end).
  eexists. split; [by vm_compute|]. split; by vm_compute.
Qed.

(** A slip in the checks for [no space].  For two players on a terminal
    of 80 columns the settings of [reset] are adjusted to a race 40
    wide with a minimal width of 38, which the assertion accepts; the
    left kerb starts at column 0, where the checks compare the next
    column with 0 only, and when [rand()] turns it left the next line
    is written at column -1. *)
Theorem valid_settings_leave_the_grid :
  settings.race_width (adjusted 2 80) = 40 ∧
  settings.minimal_width (adjusted 2 80) = 38 ∧
  track.track (adjusted 2 80) (constantly 0) 0 = Fault OutOfRange ∧
  game.game (reset_for 2) (24, 80) true (constantly 0) 0 = Fault OutOfRange ∧
  main (24, 80) true (constantly 0) 0
    [MENU_OPTIONS (λ st, settings._edit_players st [50]); MENU_START [];
     MENU_QUIT] = Fault OutOfRange.
Proof. repeat split; by vm_compute. Qed.

(** ** The rasterizer *)

(** On the segments of a car of any size up to 21, the single and
    double precision arithmetic of [_line] is the integer truncation
    of [(y2-y1)*(i-x1)/(x2-x1) + 1/2] towards zero. *)
Lemma line_offset_truncates :
  forallb (λ dy, forallb (λ dx, forallb (λ i,
    bool_decide (car_image.line_offset 0 0 dy dx i
                 = Ok (truncated_offset 0 0 dy dx i)))
    (seqZ 0 (dx + 1))) (seqZ 1 20)) (seqZ (-20) 41) = true.
Proof. by vm_compute. Qed.

(** On the first segment of a car of size 10, which rises from (0,0)
    to (2,9), [_line] plots the cells that rounding half up gives. *)
Lemma line_rounds_rising_segment :
  ∃ car,
    car_image._line (blank_image settings.reset) 0 0 2 9 = Ok car ∧
    car_image.dots car = rounded_line 0 0 2 9.
Proof.
  compute_result (car_image._line (blank_image settings.reset) 0 0 2 9)
    ltac:(fun v => match v with Ok ?c => exists c end).
  split; by vm_compute.
Qed.

(** The dots of the car of [reset]. *)
Lemma car_of_reset :
  ∃ car,
    car_image.car_image settings.reset = Ok car ∧
    car_image.dots car =
      [(0, 0); (0, 1); (0, 2); (1, 3); (1, 4); (1, 5); (1, 6); (2, 7); (2, 8);
       (2, 9); (4, 0); (4, 1); (4, 2); (4, 3); (4, 4); (4, 5); (4, 6); (3, 7);
       (3, 8); (3, 9); (4, 0); (4, 1); (4, 2); (5, 3); (5, 4); (5, 5); (5, 6);
       (6, 7); (6, 8); (6, 9); (9, 0); (9, 1); (9, 2); (9, 3); (9, 4); (8, 5);
       (8, 6); (8, 7); (7, 8); (7, 9)].
Proof.
  compute_result (car_image.car_image settings.reset)
    ltac:(fun v => match v with Ok ?c => exists c end).
  split; by vm_compute.
Qed.

(** C5 fails on the program.  The second segment of a car of size 10
    runs, after the swap, from (4,0) to (2,9).  [_line] plots it at
    line 4 up to column 6 and ends at (3,9); rounding half up gives
    line 3 from column 3 on and ends at (2,9). *)
Theorem line_truncates_where_it_should_round :
  ∃ car,
    car_image._line (blank_image settings.reset) 2 9 4 0 = Ok car ∧
    car_image.dots car =
      [(4, 0); (4, 1); (4, 2); (4, 3); (4, 4);
       (4, 5); (4, 6); (3, 7); (3, 8); (3, 9)] ∧
    rounded_line 2 9 4 0 =
      [(4, 0); (4, 1); (4, 2); (3, 3); (3, 4);
       (3, 5); (3, 6); (2, 7); (2, 8); (2, 9)].
Proof.
  compute_result (car_image._line (blank_image settings.reset) 2 9 4 0)
    ltac:(fun v => match v with Ok ?c => exists c end).
  repeat split; by vm_compute.
Qed.

(** ** The motion of a player *)

Lemma may_move_Ok st p time :
  settings.speed_base st ≠ 0 →
  player_handler.may_move st p time =
  Ok (bool_decide
        (player_handler.last_move p
         + Z.quot (player_handler.y p - player_handler.top_line p)
                  (settings.speed_base st) < time)).
Proof.
  intros H. unfold player_handler.may_move. by rewrite bool_decide_false.
Qed.

(** C4. A player moves exactly when
    [last_move + floor((y - top_line)/speed_base) < time].  For a
    positive speed base and a car at or below the top line of its
    window, the test of [tick] is that condition.  When it fails,
    [tick] returns the player as it is and [true], and does nothing
    else.  When it holds, the results of [tick] are exactly those of a
    movement step: the player has [time] for its last move, the top
    line one line up but not above 0, the commands added to the place,
    the line clamped into the window, and no command left; at line 0
    or above this is all, otherwise the track is displayed from the new
    top line, the collision scan is made at the new place and decides
    on the value returned, and the car or its explosion is drawn.  So
    [tick] returns the player unchanged exactly when the condition
    fails.  And a car nearer the top line is due whenever a car further
    down is. *)
Theorem tick_moves_when_due st (c : track.t) p time :
  0 < settings.speed_base st →
  player_handler.top_line p ≤ player_handler.y p →
  let due (q : player_handler.t) :=
    player_handler.last_move q
    + (player_handler.y q - player_handler.top_line q)
        `div` settings.speed_base st < time in
  let top := Z.max 0 (player_handler.top_line p - 1) in
  let line :=
    Z.max top
      (Z.min (top + player_handler.screen_height p - settings.car_size st)
             (player_handler.y p - 1 + player_handler.command_y p)) in
  let column := player_handler.x p + player_handler.command_x p in
  let stepped := {|
    player_handler.screen := player_handler.screen p;
    player_handler.course := player_handler.course p;
    player_handler.car := player_handler.car p;
    player_handler.last_move := time;
    player_handler.y := line;
    player_handler.x := column;
    player_handler.top_line := top;
    player_handler.command_x := 0;
    player_handler.command_y := 0;
    player_handler.screen_height := player_handler.screen_height p;
    player_handler.controls := player_handler.controls p |} in
  player_handler.may_move st p time = Ok (bool_decide (due p)) ∧
  (¬ due p → player_handler.tick st c p time = Ok (p, true, [])) ∧
  (due p → ∀ q survives log,
     player_handler.tick st c p time = Ok (q, survives, log) ↔
     q = stepped ∧
     if bool_decide (line ≤ 0) then survives = false ∧ log = []
     else ∃ shown scan,
       track.display st c (player_handler.screen p).1 top = Ok shown ∧
       player_handler.collisions st stepped c = Ok (survives, scan) ∧
       log = [DisplayTrack top shown] ++ scan ++
             [if survives then DisplayCar (line - top) column
              else Explode (line - top) column; Refresh]) ∧
  (∀ q survives log,
     player_handler.tick st c p time = Ok (q, survives, log) →
     (q = p ↔ ¬ due p)) ∧
  (∀ q, player_handler.last_move q = player_handler.last_move p →
        player_handler.top_line q = player_handler.top_line p →
        player_handler.top_line q ≤ player_handler.y q ≤ player_handler.y p →
        due p → due q).
Proof.
  intros Hsb Hy due top line column stepped.
  assert (player_handler.may_move st p time = Ok (bool_decide (due p))) as Hm.
  { rewrite may_move_Ok by lia. unfold due.
    by rewrite Z.quot_div_nonneg by lia. }
  assert (due p → ∀ q survives log,
     player_handler.tick st c p time = Ok (q, survives, log) ↔
     q = stepped ∧
     if bool_decide (line ≤ 0) then survives = false ∧ log = []
     else ∃ shown scan,
       track.display st c (player_handler.screen p).1 top = Ok shown ∧
       player_handler.collisions st stepped c = Ok (survives, scan) ∧
       log = [DisplayTrack top shown] ++ scan ++
             [if survives then DisplayCar (line - top) column
              else Explode (line - top) column; Refresh]) as Hstep.
  { intros Hd q survives log. unfold player_handler.tick. rewrite Hm.
    cbn [mbind result_bind]. rewrite bool_decide_true by done.
    unfold player_handler.move.
    change (player_handler.moved st p time) with stepped.
    change (player_handler.y stepped) with line.
    change (player_handler.x stepped) with column.
    change (player_handler.top_line stepped) with top.
    change (player_handler.screen stepped) with (player_handler.screen p).
    destruct (bool_decide (line ≤ 0)).
    - split; [by intros [= <- <- <-]|by intros (-> & -> & ->)].
    - split.
      + intros H. apply bind_Ok in H as (shown & Hshown & H).
        apply bind_Ok in H as ([sv scan] & Hscan & [= <- <- <-]).
        split; [done|]. by exists shown, scan.
      + intros (-> & shown & scan & -> & -> & ->). done. }
  split; [done|]. split; [|split; [done|split]].
  - intros Hn. unfold player_handler.tick. rewrite Hm.
    cbn [mbind result_bind]. by rewrite bool_decide_false.
  - intros q survives log H. destruct (decide (due p)) as [Hd|Hn].
    + apply (Hstep Hd) in H as [-> _]. split; [|done].
      intros Heq. exfalso.
      assert (player_handler.last_move p = time) as Hlm by by rewrite <- Heq.
      unfold due in Hd. rewrite Hlm in Hd.
      pose proof (Z.div_pos (player_handler.y p - player_handler.top_line p)
                    (settings.speed_base st)). lia.
    + unfold player_handler.tick in H. rewrite Hm in H.
      cbn [mbind result_bind] in H. rewrite bool_decide_false in H by done.
      by injection H as <- _ _.
  - intros q Hlm Htl Hq Hd. unfold due in *. rewrite Hlm.
    assert ((player_handler.y q - player_handler.top_line q)
              `div` settings.speed_base st
            ≤ (player_handler.y p - player_handler.top_line p)
                `div` settings.speed_base st); [|lia].
    apply Z.div_le_mono; lia.
Qed.

Lemma tick_moves_when_due_witness :
  0 < settings.speed_base duel ∧
  player_handler.top_line (duellist 0 2) ≤ player_handler.y (duellist 0 2) ∧
  (∃ q log,
     player_handler.tick duel six_lines (duellist 0 2) 1 = Ok (q, true, log) ∧
     player_handler.last_move q = 1 ∧ player_handler.y q = 3 ∧
     player_handler.top_line q = 1 ∧ q ≠ duellist 0 2) ∧
  player_handler.may_move short_race finishing 3 = Ok false ∧
  player_handler.tick short_race three_lines finishing 3
    = Ok (finishing, true, []).
Proof.
  pose proof (tick_moves_when_due duel six_lines (duellist 0 2) 1
                ltac:(by vm_compute) ltac:(by vm_compute))
    as (_ & _ & H3 & H4 & _).
  pose proof (tick_moves_when_due short_race three_lines finishing 3
                ltac:(by vm_compute) ltac:(by vm_compute)) as (H1 & H2 & _).
  split; [by vm_compute|]. split; [by vm_compute|]. split.
  - compute_result (player_handler.tick duel six_lines (duellist 0 2) 1)
      ltac:(fun v => match v with Ok (?q, _, ?l) => exists q, l end).
    assert (∀ q l, player_handler.tick duel six_lines (duellist 0 2) 1
                   = Ok (q, true, l) →
              player_handler.last_move q = 1 ∧ player_handler.y q = 3 ∧
              player_handler.top_line q = 1 ∧ q ≠ duellist 0 2) as Hq.
    { intros q l Htick. pose proof (H4 _ _ _ Htick) as Hne.
      apply H3 in Htick as [-> _]; [|by vm_compute].
      split; [reflexivity|]. split; [reflexivity|]. split; [reflexivity|].
      intros Heq. apply Hne in Heq. apply Heq. by vm_compute. }
    split; [by vm_compute|]. by eapply Hq; vm_compute.
  - split; [exact H1|]. apply H2. by vm_compute.
Defined.

(** C7. When the test of [tick] passes and the car, moved and clamped,
    is at line 0 or above, [tick] returns [false] at once: nothing is
    displayed, no cell of the track is asked for, no car explodes.  The
    car is then at line 0 of a window whose top line is 0. *)
Theorem win_before_collision_check st (c : track.t) p time :
  player_handler.may_move st p time = Ok true →
  player_handler.y (player_handler.moved st p time) ≤ 0 →
  player_handler.tick st c p time
    = Ok (player_handler.moved st p time, false, []) ∧
  player_handler.y (player_handler.moved st p time) = 0 ∧
  player_handler.top_line (player_handler.moved st p time) = 0.
Proof.
  intros Hm Hy. unfold player_handler.tick, player_handler.move.
  rewrite Hm. cbn [mbind result_bind].
  rewrite bool_decide_true by done. split; [done|].
  unfold player_handler.moved in *. cbn in *. lia.
Qed.

Lemma win_before_collision_check_witness :
  player_handler.may_move short_race finishing 4 = Ok true ∧
  player_handler.y (player_handler.moved short_race finishing 4) ≤ 0 ∧
  player_handler.tick short_race three_lines finishing 4
    = Ok (player_handler.moved short_race finishing 4, false, []) ∧
  player_handler.y (player_handler.moved short_race finishing 4) = 0 ∧
  player_handler.top_line (player_handler.moved short_race finishing 4) = 0.
Proof.
  split; [reflexivity|]. split; [by vm_compute|].
  apply (win_before_collision_check short_race three_lines finishing 4).
  - reflexivity.
  - by vm_compute.
Defined.

Lemma moved_below_top_line st p time :
  player_handler.top_line (player_handler.moved st p time)
  ≤ player_handler.y (player_handler.moved st p time).
Proof. unfold player_handler.moved. cbn. lia. Qed.

Lemma parse_input_position p key :
  player_handler.y (player_handler.parse_input p key) = player_handler.y p ∧
  player_handler.top_line (player_handler.parse_input p key)
  = player_handler.top_line p ∧
  player_handler.last_move (player_handler.parse_input p key)
  = player_handler.last_move p.
Proof.
  unfold player_handler.parse_input.
  by destruct (player_handler.controls p) as [[[??]?]?].
Qed.

Lemma parse_input_course p key :
  player_handler.course (player_handler.parse_input p key)
  = player_handler.course p.
Proof.
  unfold player_handler.parse_input.
  by destruct (player_handler.controls p) as [[[??]?]?].
Qed.

Lemma tick_course st (c : track.t) p time p' survives log :
  player_handler.tick st c p time = Ok (p', survives, log) →
  player_handler.course p' = player_handler.course p.
Proof.
  unfold player_handler.tick, player_handler.move. intros H.
  apply bind_Ok in H as (go & _ & H). destruct go.
  - case_bool_decide.
    + by injection H as <- _ _.
    + apply bind_Ok in H as (shown & _ & H).
      apply bind_Ok in H as ([sv scan] & _ & H). by injection H as <- _ _.
  - by injection H as <- _ _.
Qed.

(** A car no higher than the window starts at the bottom of it. *)
Lemma constructed_below_top_line st stdscr position racecourse p :
  player_handler.player_handler st stdscr position racecourse = Ok p →
  settings.car_size st ≤ (player_handler.screen p).1 →
  player_handler.top_line p ≤ player_handler.y p.
Proof.
  unfold player_handler.player_handler. destruct stdscr as [h w].
  repeat case_bool_decide; try done. intros Hp.
  apply bind_Ok in Hp as (car & _ & Hp).
  apply bind_Ok in Hp as (keys & _ & [= <-]). cbn. lia.
Qed.

(** C10 fails on the program.  For two players on a terminal of 40
    columns the race is 20 wide and the first player starts at column
    -1; the track is displayed, and the first cell the collision check
    asks for is outside the grid. *)
Theorem collision_check_leaves_the_grid :
  ∃ st g s p (c : track.t),
    game.game (reset_for 2) (24, 40) true (constantly 2147483647) 0
      = Ok (st, g, s) ∧
    game.players g !! 0%nat = Some p ∧
    game.tracks g !! player_handler.course p = Some c ∧
    settings.race_width st = 20 ∧
    player_handler.x p = -1 ∧
    is_Ok (track.display st c (player_handler.screen p).1
             (player_handler.top_line (player_handler.moved st p 1))) ∧
    player_handler.collisions st (player_handler.moved st p 1) c
      = Fault OutOfRange ∧
    player_handler.tick st c p 1 = Fault OutOfRange ∧
    game.tick st g [] = Fault OutOfRange.
Proof.
  compute_result (game.game (reset_for 2) (24, 40) true (constantly 2147483647) 0)
    ltac:(fun v => match v with Ok (?st, ?g, ?s) => exists st, g, s end).
  eexists _, _. split; [by vm_compute|].
  split; [reflexivity|]. split; [reflexivity|].
  split; [reflexivity|]. split; [reflexivity|]. split.
  - compute_result (track.display (adjusted 2 40)
        (replicate 500 (straight_line 20 0 0 19)) 24 475)
      ltac:(fun v => match v with Ok ?l => exists l end).
    by vm_compute.
  - repeat split; by vm_compute.
Qed.

(** ** The session *)

(** *** The calls of a tick *)

Lemma mark_position_Ok st i g g' :
  game.mark_position st i g = Ok g' →
  ∃ p (t t' : track.t),
    game.players g !! i = Some p ∧
    game.tracks g !! player_handler.course p = Some t ∧
    track.mark st t (player_handler.y p) (player_handler.x p)
      (player_handler.car p) = Ok t' ∧
    g' = game.with_tracks g (<[player_handler.course p := t']> (game.tracks g)).
Proof.
  unfold game.mark_position. intros H.
  apply bind_Ok in H as (p & Hp & H).
  apply bind_Ok in H as (t & Ht & H).
  apply bind_Ok in H as (t' & Hm & H).
  apply bind_Ok in H as (ts & Hput & [= <-]).
  apply arr_get_Ok in Hp as [_ [_ Hp]%vec_get_Ok].
  apply vec_get_Ok in Ht as [_ Ht].
  apply vec_put_Ok in Hput as [_ ->]. rewrite Nat2Z.id in *.
  by exists p, t, t'.
Qed.

Lemma unmark_position_Ok st i g g' :
  game.unmark_position st i g = Ok g' →
  ∃ p (t t' : track.t),
    game.players g !! i = Some p ∧
    game.tracks g !! player_handler.course p = Some t ∧
    track.unmark st t (player_handler.y p) (player_handler.x p)
      (player_handler.car p) = Ok t' ∧
    g' = game.with_tracks g (<[player_handler.course p := t']> (game.tracks g)).
Proof.
  unfold game.unmark_position. intros H.
  apply bind_Ok in H as (p & Hp & H).
  apply bind_Ok in H as (t & Ht & H).
  apply bind_Ok in H as (t' & Hm & H).
  apply bind_Ok in H as (ts & Hput & [= <-]).
  apply arr_get_Ok in Hp as [_ [_ Hp]%vec_get_Ok].
  apply vec_get_Ok in Ht as [_ Ht].
  apply vec_put_Ok in Hput as [_ ->]. rewrite Nat2Z.id in *.
  by exists p, t, t'.
Qed.

Lemma player_tick_Ok st i g b log g' b' log' :
  game.player_tick st i (g, b, log) = Ok (g', b', log') →
  ∃ p p' survives,
    game.players g !! i = Some p ∧
    player_handler.course p' = player_handler.course p ∧
    game.players g' = <[i := p']> (game.players g) ∧
    game.alive g' = <[i := survives]> (game.alive g) ∧
    (i < length (game.alive g))%nat ∧
    game.tracks g' = game.tracks g ∧
    game.time g' = game.time g ∧
    b' = survives || b ∧ log' = log ++ [Tick i].
Proof.
  unfold game.player_tick. intros H.
  apply bind_Ok in H as (p & Hp & H).
  apply bind_Ok in H as (t & Ht & H).
  apply bind_Ok in H as ([[p' sv] l] & Htick & H).
  apply bind_Ok in H as (ps & Hps & H).
  apply bind_Ok in H as (a & Ha & [= <- <- <-]).
  apply arr_get_Ok in Hp as [_ [_ Hp]%vec_get_Ok].
  apply arr_put_Ok in Hps as [_ [_ ->]%vec_put_Ok].
  apply arr_put_Ok in Ha as [_ [Hi ->]%vec_put_Ok].
  rewrite Nat2Z.id in *. apply tick_course in Htick.
  exists p, p', sv. repeat split; try done. lia.
Qed.

(** The keys reach the commands of the players and their being alive,
    nothing else. *)
Lemma key_Ok st g pressed_key g' k :
  game.key st g pressed_key = Ok g' →
  Forall (λ p, player_handler.course p = k) (game.players g) →
  game.tracks g' = game.tracks g ∧ game.time g' = game.time g ∧
  Forall (λ p, player_handler.course p = k) (game.players g').
Proof.
  unfold game.key. intros H Hc.
  apply bind_Ok in H as (g1 & H1 & H2).
  assert (game.tracks g1 = game.tracks g ∧ game.time g1 = game.time g ∧
          game.players g1 = game.players g) as (Ht1 & Htime1 & Hp1).
  { case_bool_decide; [|by injection H1 as <-].
    apply (for_up_ind (λ _ g1, game.tracks g1 = game.tracks g
                               ∧ game.time g1 = game.time g
                               ∧ game.players g1 = game.players g))
      in H1; [done| |done].
    intros j a b _ (? & ? & ?) Hb.
    apply bind_Ok in Hb as (al & _ & [= <-]). done. }
  apply (for_up_ind (λ _ g2, game.tracks g2 = game.tracks g
                             ∧ game.time g2 = game.time g
                             ∧ Forall (λ p, player_handler.course p = k)
                                      (game.players g2)))
    in H2; [done| |by rewrite Hp1].
  intros j a b _ (? & ? & Hf) Hb.
  apply bind_Ok in Hb as (p & Hp & Hb).
  apply bind_Ok in Hb as (ps & Hps & [= <-]).
  apply arr_get_Ok in Hp as [_ [_ Hp]%vec_get_Ok].
  apply arr_put_Ok in Hps as [_ [_ ->]%vec_put_Ok].
  cbn. split; [done|]. split; [done|].
  apply Forall_insert; [done|]. rewrite parse_input_course.
  rewrite Forall_lookup in Hf. by apply (Hf _ _ Hp).
Qed.

Lemma keys_Ok st keys : ∀ g g' k,
  foldM (game.key st) g keys = Ok g' →
  Forall (λ p, player_handler.course p = k) (game.players g) →
  game.tracks g' = game.tracks g ∧ game.time g' = game.time g ∧
  Forall (λ p, player_handler.course p = k) (game.players g').
Proof.
  induction keys as [|key keys IH]; intros g g' k H Hc; simpl in H.
  - by injection H as <-.
  - apply bind_Ok in H as (g1 & H1 & H2).
    destruct (key_Ok st g key g1 k H1 Hc) as (Ht & Htime & Hc1).
    destruct (IH g1 g' k H2 Hc1) as (Ht' & Htime' & Hc').
    repeat split; [congruence..|done].
Qed.

Lemma living_S alive n :
  living alive (S n) =
  living alive n ++ (if bool_decide (alive !! n = Some true) then [n] else []).
Proof.
  unfold living. rewrite seq_S, filter_app. f_equal. cbn.
  case_bool_decide as Ha.
  - by rewrite decide_True.
  - by rewrite decide_False.
Qed.

(** *** The marks on a track without cars *)

Section marks.

Context (st : settings.t) (c : track.t).
Hypothesis Hfree : car_free st c.

Lemma car_free_cell y x :
  track.cell c y x ≠ Some (settings.character st).
Proof.
  intros H. pose proof Hfree as Hc. unfold track.cell in H. case_bool_decide; [|done].
  destruct (c !! Z.to_nat y) as [row|] eqn:Hrow; simpl in H; [|done].
  unfold car_free in Hc. rewrite Forall_lookup in Hc.
  specialize (Hc _ _ Hrow). rewrite Forall_lookup in Hc.
  by apply (Hc _ _ H).
Qed.

Lemma marks_only_refl : marks_only st c c.
Proof. split; [done|]. intros; by left. Qed.

Lemma mark_marks_only (t t' : track.t) y x car :
  marks_only st c t → track.mark st t y x car = Ok t' → marks_only st c t'.
Proof.
  intros [Hs Hc] Hm. rewrite mark_sweep in Hm.
  apply sweep_cells in Hm as (Hs' & _ & Hc').
  split; [congruence|]. intros r k. rewrite Hc'.
  case_decide as Hd; [|apply Hc].
  destruct Hd as [_ Hb]. right. split; [|done].
  destruct (Hc r k) as [He|[He _]]; congruence.
Qed.

Lemma unmark_marks_only (t t' : track.t) y x car :
  marks_only st c t →
  track.unmark st t y x car = Ok t' → marks_only st c t'.
Proof.
  intros [Hs Hc] Hu. rewrite unmark_sweep in Hu.
  apply sweep_cells in Hu as (Hs' & _ & Hc').
  split; [congruence|]. intros r k. rewrite Hc'.
  case_decide as Hd; [|apply Hc].
  destruct Hd as [_ Hg]. left.
  destruct (Hc r k) as [He|[He _]]; [|congruence].
  exfalso. apply (car_free_cell r k). congruence.
Qed.

(** A mark that [mark] leaves was there before or is under the car. *)
Lemma mark_marked (t t' : track.t) y x car r k :
  track.mark st t y x car = Ok t' →
  track.cell t' r k ≠ track.cell c r k →
  track.cell t r k ≠ track.cell c r k
  ∨ (r, k) ∈ footprint y x (car_image.get_dots car).
Proof.
  intros Hm Hd. rewrite mark_sweep in Hm.
  apply sweep_cells in Hm as (_ & _ & Hc').
  rewrite Hc' in Hd. case_decide as Hin; [|by left].
  right. by destruct Hin.
Qed.

(** A mark that [unmark] leaves was there before and is not under the
    car. *)
Lemma unmark_marked (t t' : track.t) y x car r k :
  marks_only st c t →
  track.unmark st t y x car = Ok t' →
  track.cell t' r k ≠ track.cell c r k →
  track.cell t r k ≠ track.cell c r k
  ∧ (r, k) ∉ footprint y x (car_image.get_dots car).
Proof.
  intros [_ Hc] Hu Hd. rewrite unmark_sweep in Hu.
  apply sweep_cells in Hu as (_ & _ & Hc').
  rewrite Hc' in Hd. case_decide as Hin.
  - destruct Hin as [_ Hg]. exfalso.
    destruct (Hc r k) as [He|[He _]]; [|congruence].
    apply (car_free_cell r k). congruence.
  - split; [done|]. intros Hfp. apply Hin. split; [done|].
    destruct (Hc r k) as [He|[_ He]]; [congruence|done].
Qed.

End marks.

(** *** The steps of a tick on a shared track *)

Section shared_track.

Context (st : settings.t) (n k : nat) (c : track.t) (ts : list track.t).
Hypothesis Hfree : car_free st c.
Hypothesis Hk : (k < length ts)%nat.

(** Marking a player keeps the session. *)
Lemma session_mark g g' i :
  (i < n)%nat →
  session st n k c ts g →
  game.mark_position st i g = Ok g' →
  session st n k c ts g' ∧ game.players g' = game.players g ∧
  game.alive g' = game.alive g ∧ game.time g' = game.time g.
Proof.
  intros Hi (Hcourse & t & Hts & Hmo & Hcov) Hm.
  apply mark_position_Ok in Hm as (p & t0 & t' & Hp & Ht0 & Hm & ->).
  assert (player_handler.course p = k) as Hpk.
  { rewrite Forall_lookup in Hcourse. by apply (Hcourse i). }
  rewrite Hpk in *. rewrite Hts, list_lookup_insert_eq in Ht0 by done.
  injection Ht0 as <-.
  split; [|done]. split; [done|].
  exists t'. cbn. split; [by rewrite Hts, list_insert_insert_eq|].
  split; [by eapply mark_marks_only|].
  intros r x Hd.
  destruct (mark_marked st c t t' _ _ _ r x Hm Hd) as [Hold|Hnew].
  - by apply Hcov.
  - by exists i, p.
Qed.

(** Unmarking a player, ticking it and marking it again keeps the
    session. *)
Lemma session_retick g g1 g2 g3 i b log b2 log2 :
  (i < n)%nat →
  session st n k c ts g →
  game.unmark_position st i g = Ok g1 →
  game.player_tick st i (g1, b, log) = Ok (g2, b2, log2) →
  game.mark_position st i g2 = Ok g3 →
  session st n k c ts g3 ∧ log2 = log ++ [Tick i] ∧
  (∀ j, j ≠ i → game.alive g3 !! j = game.alive g !! j) ∧
  game.time g3 = game.time g.
Proof.
  intros Hi (Hcourse & t & Hts & Hmo & Hcov) Hu Htick Hm.
  apply unmark_position_Ok in Hu as (p & t0 & t1 & Hp & Ht0 & Hu & ->).
  assert (player_handler.course p = k) as Hpk.
  { rewrite Forall_lookup in Hcourse. by apply (Hcourse i). }
  rewrite Hpk in *. rewrite Hts, list_lookup_insert_eq in Ht0 by done.
  injection Ht0 as <-.
  apply player_tick_Ok in Htick
    as (p0 & p' & sv & Hp0 & Hc' & Hps & Hal & Hlen & Htr & Htime & -> & ->).
  cbn in Hp0, Hps, Hal, Htr, Htime, Hlen.
  rewrite Hp in Hp0. injection Hp0 as <-.
  assert (session st n k c ts g2) as Hs2.
  { split.
    - rewrite Hps. apply Forall_insert; [done|congruence].
    - exists t1. split; [by rewrite Htr, Hts, list_insert_insert_eq|].
      split; [by eapply unmark_marks_only|].
      intros r x Hd.
      destruct (unmark_marked st c Hfree t t1 _ _ _ r x Hmo Hu Hd)
        as [Hold Hout].
      destruct (Hcov r x Hold) as (j & q & Hj & Hq & Hun).
      exists j, q. split; [done|]. split; [|done].
      rewrite Hps. rewrite list_lookup_insert_ne; [done|].
      intros <-. rewrite Hp in Hq. injection Hq as <-. by apply Hout. }
  destruct (session_mark g2 g3 i Hi Hs2 Hm)
    as (Hs3 & _ & Hal3 & Htime3).
  split; [done|]. split; [done|]. split; [|congruence].
  intros j Hj. rewrite Hal3, Hal. by apply list_lookup_insert_ne.
Qed.

(** The last pass: after the unmark of a player no mark is left under
    its car. *)
Lemma session_unmark g g' i :
  session st n k c ts g →
  (∀ t, game.tracks g !! k = Some t → ∀ r x j p,
        track.cell t r x ≠ track.cell c r x → (j < i)%nat →
        game.players g !! j = Some p → ¬ under p r x) →
  game.unmark_position st i g = Ok g' →
  session st n k c ts g' ∧ game.players g' = game.players g ∧
  (∀ t, game.tracks g' !! k = Some t → ∀ r x j p,
        track.cell t r x ≠ track.cell c r x → (j < S i)%nat →
        game.players g' !! j = Some p → ¬ under p r x).
Proof.
  intros (Hcourse & t & Hts & Hmo & Hcov) Hclean Hu.
  apply unmark_position_Ok in Hu as (p & t0 & t1 & Hp & Ht0 & Hu & ->).
  assert (player_handler.course p = k) as Hpk.
  { rewrite Forall_lookup in Hcourse. by apply (Hcourse i). }
  rewrite Hpk in *.
  pose proof Ht0 as Ht0'.
  rewrite Hts, list_lookup_insert_eq in Ht0 by done. injection Ht0 as <-.
  split; [|split; [done|]].
  - split; [done|]. exists t1. cbn.
    split; [by rewrite Hts, list_insert_insert_eq|].
    split; [by eapply unmark_marks_only|].
    intros r x Hd.
    destruct (unmark_marked st c Hfree t t1 _ _ _ r x Hmo Hu Hd) as [Hold _].
    by apply Hcov.
  - cbn. intros t2 Ht2 r x j q Hd Hj Hq.
    rewrite list_lookup_insert_eq in Ht2 by (rewrite Hts, length_insert; lia).
    injection Ht2 as <-.
    destruct (unmark_marked st c Hfree t t1 _ _ _ r x Hmo Hu Hd)
      as [Hold Hout].
    destruct (decide (j = i)) as [->|Hne].
    + rewrite Hp in Hq. by injection Hq as <-.
    + apply (Hclean t Ht0' r x j q Hold); [lia|done].
Qed.

End shared_track.

(** *** A tick and a race on a shared track *)

(** A tick on a shared track: the store of tracks is left as it was
    found, the players stay on their track, and the calls on the players
    are those of [shared_tick_calls]. *)
Lemma tick_on_shared_track st g keys g' continues log k (c : track.t) :
  settings.shared_track st = true →
  Forall (λ p, player_handler.course p = k) (game.players g) →
  game.tracks g !! k = Some c →
  car_free st c →
  game.tick st g keys = Ok (g', continues, log) →
  game.tracks g' = game.tracks g ∧
  Forall (λ p, player_handler.course p = k) (game.players g') ∧
  ∃ g1,
    foldM (game.key st) (game.with_time g (game.time g + 1)) keys = Ok g1 ∧
    log = shared_tick_calls (game.alive g1) (Z.to_nat (settings.players st))
          ++ (if continues then [] else [Message (game.time g + 1)]).
Proof.
  intros Hsh Hcourse Hk Hfree H. unfold game.tick in H. rewrite Hsh in H.
  set (n := Z.to_nat (settings.players st)) in *.
  set (ts := game.tracks g) in *.
  apply bind_Ok in H as (g1 & Hkeys & H).
  apply bind_Ok in H as ([g2 log1] & H1 & H).
  apply bind_Ok in H as ([[g3 cont] log2] & H2 & H).
  apply bind_Ok in H as ([g4 log3] & H3 & H).
  injection H as <- <- <-.
  assert (k < length ts)%nat as Hklen by by apply lookup_lt_Some in Hk.
  destruct (keys_Ok st keys _ g1 k Hkeys Hcourse) as (Hts1 & Htime1 & Hc1).
  cbn in Hts1, Htime1. fold ts in Hts1.
  assert (session st n k c ts g1) as Hs1.
  { split; [done|]. exists c. split; [by rewrite Hts1, list_insert_id|].
    split; [apply marks_only_refl|]. intros r x Hd. done. }
  (* the first pass: mark the living *)
  apply (for_up_ind (λ i '(ga, la),
           session st n k c ts ga ∧ game.alive ga = game.alive g1
           ∧ game.time ga = game.time g1
           ∧ la = Mark <$> living (game.alive g1) i)) in H1; cycle 1.
  { intros i [ga la] [gb lb] Hi (Hsa & Hal & Hta & ->) Hb. cbn in Hb.
    apply bind_Ok in Hb as (a & Ha & Hb).
    apply arr_get_Ok in Ha as [_ [_ Ha]%vec_get_Ok].
    rewrite Nat2Z.id, Hal in Ha.
    rewrite living_S, Ha, fmap_app. destruct a.
    - apply bind_Ok in Hb as (gm & Hm & [= <- <-]).
      destruct (session_mark st n k c ts Hklen ga gm i ltac:(lia) Hsa Hm)
        as (Hsm & _ & Halm & Htm).
      rewrite bool_decide_true by done.
      split; [done|]. split; [congruence|]. split; [congruence|done].
    - injection Hb as <- <-. rewrite bool_decide_false by done.
      by rewrite app_nil_r. }
  { done. }
  cbn in H1. destruct H1 as (Hs2 & Hal2 & Ht2 & ->).
  (* the second pass: unmark, tick and mark each of the living *)
  apply (for_up_ind (λ i '(ga, ba, la),
           session st n k c ts ga
           ∧ (∀ j, (i ≤ j)%nat → game.alive ga !! j = game.alive g1 !! j)
           ∧ game.time ga = game.time g1
           ∧ la = (Mark <$> living (game.alive g1) n)
                  ++ (living (game.alive g1) i
                      ≫= λ i, [Unmark i; Tick i; Mark i]))) in H2; cycle 1.
  { intros i [[ga ba] la] [[gb bb] lb] Hi (Hsa & Hal & Hta & ->) Hb.
    cbn in Hb.
    apply bind_Ok in Hb as (a & Ha & Hb).
    apply arr_get_Ok in Ha as [_ [_ Ha]%vec_get_Ok].
    rewrite Nat2Z.id, Hal in Ha by lia.
    rewrite living_S, Ha, bind_app. destruct a.
    - apply bind_Ok in Hb as (gu & Hu & Hb).
      apply bind_Ok in Hb as ([[gt bt] lt] & Ht & Hb).
      apply bind_Ok in Hb as (gm & Hm & [= <- <- <-]).
      destruct (session_retick st n k c ts Hfree Hklen ga gu gt gm i _ _ _ _
                  ltac:(lia) Hsa Hu Ht Hm)
        as (Hsm & -> & Halm & Htm).
      rewrite bool_decide_true by done.
      split; [done|]. split; [|split; [congruence|]].
      + intros j Hj. rewrite Halm by lia. apply Hal. lia.
      + cbn. by rewrite <- !app_assoc.
    - injection Hb as <- <- <-. rewrite bool_decide_false by done.
      split; [done|]. split; [|split; [done|]].
      + intros j Hj. apply Hal. lia.
      + cbn. by rewrite !app_nil_r. }
  { cbn. split; [done|]. split; [by intros; rewrite Hal2|].
    split; [done|]. by rewrite app_nil_r. }
  cbn in H2. destruct H2 as (Hs3 & _ & Ht3 & ->).
  (* the last pass: unmark every player *)
  apply (for_up_ind (λ i '(ga, la),
           session st n k c ts ga
           ∧ (∀ t, game.tracks ga !! k = Some t → ∀ r x j p,
                track.cell t r x ≠ track.cell c r x → (j < i)%nat →
                game.players ga !! j = Some p → ¬ under p r x)
           ∧ game.time ga = game.time g1
           ∧ la = ((Mark <$> living (game.alive g1) n)
                   ++ (living (game.alive g1) n
                       ≫= λ i, [Unmark i; Tick i; Mark i]))
                  ++ (Unmark <$> seq 0 i))) in H3; cycle 1.
  { intros i [ga la] [gb lb] Hi (Hsa & Hclean & Hta & ->) Hb. cbn in Hb.
    apply bind_Ok in Hb as (gu & Hu & [= <- <-]).
    destruct (session_unmark st n k c ts Hfree Hklen ga gu i Hsa Hclean Hu)
      as (Hsu & Hpu & Hcleanu).
    split; [done|]. split; [done|]. split.
    - apply unmark_position_Ok in Hu as (? & ? & ? & _ & _ & _ & ->).
      by cbn.
    - by rewrite seq_S, fmap_app, <- !app_assoc. }
  { cbn. split; [done|]. split; [intros; lia|]. split; [done|].
    by rewrite app_nil_r. }
  cbn in H3. destruct H3 as (Hs4 & Hclean & Ht4 & ->).
  split; [|split; [by destruct Hs4|]].
  - destruct Hs4 as (_ & t & Hts4 & [Hshape Hcells] & Hcov).
    rewrite Hts4. apply list_insert_id.
    rewrite Hk. f_equal. symmetry. apply track_ext; [done|].
    intros r x.
    destruct (decide (track.cell t r x = track.cell c r x)) as [|Hd]; [done|].
    exfalso. destruct (Hcov r x Hd) as (j & p & Hj & Hp & Hun).
    apply (Hclean t) with (r := r) (x := x) (j := j) (p := p); try done.
    rewrite Hts4. by apply list_lookup_insert_eq.
  - exists g1. split; [done|].
    unfold shared_tick_calls. rewrite Ht4, Htime1.
    destruct cont; by rewrite ?app_nil_r, <- ?app_assoc.
Qed.

(** *** The marks in the course of a tick *)

Lemma unmarked_S alive old lo i y x :
  unmarked alive old lo (S i) y x ↔
  unmarked alive old lo i y x
  ∨ ((lo ≤ i)%nat ∧ alive !! i = Some true ∧
     ∃ q, old !! i = Some q ∧ under q y x).
Proof.
  unfold unmarked. split.
  - intros (j & q & Hj & Ha & Hq & Hu).
    destruct (decide (j = i)) as [->|Hne].
    + right. split; [lia|]. split; [done|]. by exists q.
    + left. exists j, q. split; [lia|done].
  - intros [(j & q & Hj & Ha & Hq & Hu)|(Hlo & Ha & q & Hq & Hu)].
    + exists j, q. split; [lia|done].
    + exists i, q. split; [lia|done].
Qed.

Lemma unmarked_empty alive old lo hi y x :
  (hi ≤ lo)%nat → ¬ unmarked alive old lo hi y x.
Proof. intros Hle (j & q & Hj & _). lia. Qed.

Lemma marks_before_0 alive n old new y x :
  marks_before alive n old new 0 y x ↔
  ∃ j q, (j < n)%nat ∧ alive !! j = Some true ∧ old !! j = Some q ∧
         under q y x.
Proof.
  unfold marks_before. split.
  - intros [(j & q & Hj & Ha & Hq & Hu & _)|(j & q & Hj & _)]; [|lia].
    exists j, q. split; [lia|done].
  - intros (j & q & Hj & Ha & Hq & Hu). left. exists j, q.
    split; [lia|]. split; [done|]. split; [done|]. split; [done|].
    by apply unmarked_empty.
Qed.

Lemma marks_seen_before alive n old new i p y x :
  alive !! i = Some true → old !! i = Some p →
  marks_seen alive n old new i y x ↔
  marks_before alive n old new i y x ∧ ¬ under p y x.
Proof.
  intros Hai Hpi. unfold marks_seen, marks_before. split.
  - intros [(j & q & Hj & Ha & Hq & Hu & Hc)|(j & q & Hj & Ha & Hq & Hu & Hc)];
      rewrite unmarked_S in Hc.
    + split.
      * left. exists j, q. split; [lia|]. repeat (split; [done|]). tauto.
      * intros Hp. apply Hc. right. split; [lia|]. split; [done|]. by exists p.
    + split.
      * right. exists j, q. repeat (split; [done|]). tauto.
      * intros Hp. apply Hc. right. split; [lia|]. split; [done|]. by exists p.
  - intros [[(j & q & Hj & Ha & Hq & Hu & Hc)|(j & q & Hj & Ha & Hq & Hu & Hc)]
            Hp].
    + left. exists j, q.
      assert (j ≠ i) by (intros ->; rewrite Hpi in Hq; by injection Hq as <-).
      split; [lia|]. repeat (split; [done|]). rewrite unmarked_S.
      intros [?|(_ & _ & q' & Hq' & Hu')]; [done|].
      rewrite Hpi in Hq'. by injection Hq' as <-.
    + right. exists j, q. repeat (split; [done|]). rewrite unmarked_S.
      intros [?|(_ & _ & q' & Hq' & Hu')]; [done|].
      rewrite Hpi in Hq'. by injection Hq' as <-.
Qed.

Lemma marks_seen_ext alive n old new new' i y x :
  (∀ j, (j < i)%nat → new' !! j = new !! j) →
  marks_seen alive n old new' i y x ↔ marks_seen alive n old new i y x.
Proof.
  intros Hnew. unfold marks_seen.
  split; (intros [H|(j & q & Hj & Ha & Hq & H)]; [by left|right]);
    exists j, q; (split; [done|]); (split; [done|]); (split; [|done]).
  - by rewrite <- Hnew.
  - by rewrite Hnew.
Qed.

(** The turn of a living player: its unmark, then its mark at the new
    place. *)
Lemma marks_before_S_living alive n old new new' i p p' y x :
  (i < n)%nat → alive !! i = Some true → old !! i = Some p →
  new' !! i = Some p' →
  (∀ j, (j < i)%nat → new' !! j = new !! j) →
  marks_before alive n old new' (S i) y x ↔
  (marks_before alive n old new i y x ∧ ¬ under p y x) ∨ under p' y x.
Proof.
  intros Hi Hai Hpi Hp' Hnew. unfold marks_before. split.
  - intros [(j & q & Hj & Ha & Hq & Hu & Hc)|(j & q & Hj & Ha & Hq & Hu & Hc)].
    + rewrite unmarked_S in Hc. left. split.
      * left. exists j, q. split; [lia|]. repeat (split; [done|]). tauto.
      * intros Hp. apply Hc. right. split; [lia|]. split; [done|]. by exists p.
    + destruct (decide (j = i)) as [->|Hne].
      * right. rewrite Hp' in Hq. by injection Hq as <-.
      * rewrite unmarked_S in Hc. left. split.
        -- right. exists j, q. split; [lia|]. split; [done|].
           split; [rewrite <- Hnew by lia; done|]. split; [done|]. tauto.
        -- intros Hp. apply Hc. right. split; [lia|]. split; [done|].
           by exists p.
  - intros [[[(j & q & Hj & Ha & Hq & Hu & Hc)|(j & q & Hj & Ha & Hq & Hu & Hc)]
             Hp]|Hu'].
    + left. exists j, q.
      assert (j ≠ i) by (intros ->; rewrite Hpi in Hq; by injection Hq as <-).
      split; [lia|]. repeat (split; [done|]). rewrite unmarked_S.
      intros [?|(_ & _ & q' & Hq' & Hu')]; [done|].
      rewrite Hpi in Hq'. by injection Hq' as <-.
    + right. exists j, q. split; [lia|]. split; [done|].
      split; [rewrite Hnew by lia; done|]. split; [done|].
      rewrite unmarked_S.
      intros [?|(_ & _ & q' & Hq' & Hu')]; [done|].
      rewrite Hpi in Hq'. by injection Hq' as <-.
    + right. exists i, p'. split; [lia|]. repeat (split; [done|]).
      apply unmarked_empty. lia.
Qed.

(** The turn of a player that is not alive changes nothing. *)
Lemma marks_before_S_dead alive n old new i y x :
  alive !! i ≠ Some true →
  marks_before alive n old new (S i) y x ↔ marks_before alive n old new i y x.
Proof.
  intros Hai. unfold marks_before.
  assert (∀ lo, unmarked alive old lo (S i) y x ↔ unmarked alive old lo i y x)
    as Hun.
  { intros lo. rewrite unmarked_S. split; [|by left].
    intros [?|(_ & ? & _)]; done. }
  split.
  - intros [(j & q & Hj & Ha & Hq & Hu & Hc)|(j & q & Hj & Ha & Hq & Hu & Hc)];
      rewrite Hun in Hc.
    + left. exists j, q. split; [lia|done].
    + right. exists j, q.
      assert (j ≠ i) by (intros ->; done). split; [lia|done].
  - intros [(j & q & Hj & Ha & Hq & Hu & Hc)|(j & q & Hj & Ha & Hq & Hu & Hc)].
    + left. exists j, q.
      assert (j ≠ i) by (intros ->; done).
      split; [lia|]. repeat (split; [done|]). by rewrite Hun.
    + right. exists j, q. split; [lia|]. repeat (split; [done|]).
      by rewrite Hun.
Qed.

Lemma painted_ext st (c : track.t) (M M' : Z → Z → Prop) (t : track.t) :
  (∀ y x, M y x ↔ M' y x) → painted st c M t → painted st c M' t.
Proof.
  intros HM [Hs Hc]. split; [done|]. intros y x.
  destruct (Hc y x) as [H1 H2]. rewrite <- HM. by split.
Qed.

Section paint.

Context (st : settings.t) (c : track.t).
Hypothesis Hfree : car_free st c.

Lemma painted_none : painted st c (λ _ _, False) c.
Proof.
  split; [apply marks_only_refl|]. intros y x. split; [by intros []|done].
Qed.

Lemma painted_mark (M : Z → Z → Prop) (t t' : track.t) y x car :
  painted st c M t → track.mark st t y x car = Ok t' →
  painted st c
    (λ r k, M r k ∨ (r, k) ∈ footprint y x (car_image.get_dots car)) t'.
Proof.
  intros [Hmo Hc] Hm. split; [by eapply mark_marks_only|].
  rewrite mark_sweep in Hm.
  apply sweep_cells in Hm as (_ & _ & Hc').
  intros r k. destruct (Hc r k) as [Hin Hout]. rewrite Hc'. split.
  - intros [[HM|Hfp] Hb].
    + rewrite Hin by done. by case_decide.
    + case_decide as Hd; [done|].
      destruct Hmo as [_ Hmo]. destruct (Hmo r k) as [He|[_ He]]; [|done].
      exfalso. apply Hd. split; [done|congruence].
  - intros Hn. rewrite decide_False.
    + apply Hout. tauto.
    + intros [Hfp Hb]. rewrite Hout in Hb by tauto. tauto.
Qed.

Lemma painted_unmark (M : Z → Z → Prop) (t t' : track.t) y x car :
  painted st c M t → track.unmark st t y x car = Ok t' →
  painted st c
    (λ r k, M r k ∧ (r, k) ∉ footprint y x (car_image.get_dots car)) t'.
Proof.
  intros [Hmo Hc] Hu. split; [by eapply unmark_marks_only|].
  rewrite unmark_sweep in Hu.
  apply sweep_cells in Hu as (_ & _ & Hc').
  intros r k. destruct (Hc r k) as [Hin Hout]. rewrite Hc'. split.
  - intros [[HM Hfp] Hb]. rewrite decide_False by tauto. by apply Hin.
  - intros Hn. destruct Hmo as [_ Hmo]. case_decide as Hd.
    + destruct Hd as [Hfp Hg].
      destruct (Hmo r k) as [He|[He _]]; [|done].
      exfalso. apply (car_free_cell st c Hfree r k). congruence.
    + destruct (decide ((r, k) ∈ footprint y x (car_image.get_dots car)))
        as [Hfp|Hfp].
      * destruct (Hmo r k) as [He|[_ He]]; [done|]. exfalso. tauto.
      * apply Hout. tauto.
Qed.

End paint.

(** The call of [tick] on a player: the track it is given is the track
    of the player in the store. *)
Lemma player_tick_run st i g b log g' b' log' :
  game.player_tick st i (g, b, log) = Ok (g', b', log') →
  ∃ p (c : track.t) p' survives l,
    game.players g !! i = Some p ∧
    game.tracks g !! player_handler.course p = Some c ∧
    player_handler.tick st c p (game.time g) = Ok (p', survives, l) ∧
    g' = {| game.time := game.time g;
            game.players := <[i := p']> (game.players g);
            game.alive := <[i := survives]> (game.alive g);
            game.tracks := game.tracks g |} ∧
    (i < length (game.alive g))%nat ∧
    b' = survives || b ∧ log' = log ++ [Tick i].
Proof.
  unfold game.player_tick. intros H.
  apply bind_Ok in H as (p & Hp & H).
  apply bind_Ok in H as (t & Ht & H).
  apply bind_Ok in H as ([[p' sv] l] & Htick & H).
  apply bind_Ok in H as (ps & Hps & H).
  apply bind_Ok in H as (a & Ha & [= <- <- <-]).
  apply arr_get_Ok in Hp as [_ [_ Hp]%vec_get_Ok].
  apply vec_get_Ok in Ht as [_ Ht].
  apply arr_put_Ok in Hps as [_ [_ ->]%vec_put_Ok].
  apply arr_put_Ok in Ha as [_ [Hi ->]%vec_put_Ok].
  rewrite Nat2Z.id in *.
  exists p, t, p', sv, l. repeat split; try done. lia.
Qed.

(** A tick on a shared track, from the side of the players: each
    player that is alive once the keys are read is ticked on the track
    with the marks of [marks_seen]. *)
Lemma tick_sees_the_marks st g keys g' continues log k (c : track.t) :
  settings.shared_track st = true →
  Forall (λ p, player_handler.course p = k) (game.players g) →
  game.tracks g !! k = Some c →
  car_free st c →
  game.tick st g keys = Ok (g', continues, log) →
  ∃ g1,
    foldM (game.key st) (game.with_time g (game.time g + 1)) keys = Ok g1 ∧
    ∀ (i : nat) p,
      (i < Z.to_nat (settings.players st))%nat →
      game.alive g1 !! i = Some true → game.players g1 !! i = Some p →
      ∃ (t : track.t) p' survives events,
        painted st c
          (marks_seen (game.alive g1) (Z.to_nat (settings.players st))
             (game.players g1) (game.players g') i) t ∧
        player_handler.tick st t p (game.time g + 1)
        = Ok (p', survives, events) ∧
        game.players g' !! i = Some p' ∧
        game.alive g' !! i = Some survives.
Proof.
  intros Hsh Hcourse Hk Hfree H. unfold game.tick in H. rewrite Hsh in H.
  set (n := Z.to_nat (settings.players st)) in *.
  set (ts := game.tracks g) in *.
  apply bind_Ok in H as (g1 & Hkeys & H).
  apply bind_Ok in H as ([g2 log1] & H1 & H).
  apply bind_Ok in H as ([[g3 cont] log2] & H2 & H).
  apply bind_Ok in H as ([g4 log3] & H3 & H).
  injection H as <- <- <-.
  assert (k < length ts)%nat as Hklen by by apply lookup_lt_Some in Hk.
  destruct (keys_Ok st keys _ g1 k Hkeys Hcourse) as (Hts1 & Htime1 & Hc1).
  cbn in Hts1, Htime1. fold ts in Hts1.
  exists g1. split; [done|].
  set (al := game.alive g1) in *. set (ps := game.players g1) in *.
  (* the first pass: mark the living *)
  apply (for_up_ind (λ m '(ga, la),
           game.players ga = ps ∧ game.alive ga = al
           ∧ game.time ga = game.time g1
           ∧ ∃ t : track.t, game.tracks ga = <[k := t]> ts
               ∧ painted st c
                   (λ y x, ∃ j q, (j < m)%nat ∧ al !! j = Some true ∧
                                  ps !! j = Some q ∧ under q y x) t))
    in H1; cycle 1.
  { intros i [ga la] [gb lb] Hi (Hpa & Hal & Hta & t & Hts & Hpt) Hb.
    cbn in Hb.
    apply bind_Ok in Hb as (a & Ha & Hb).
    apply arr_get_Ok in Ha as [_ [_ Ha]%vec_get_Ok].
    rewrite Nat2Z.id, Hal in Ha. destruct a.
    - apply bind_Ok in Hb as (gm & Hm & [= <- <-]).
      apply mark_position_Ok in Hm as (p & t0 & t' & Hp & Ht0 & Hm & ->).
      rewrite Hpa in Hp.
      assert (player_handler.course p = k) as Hpk.
      { rewrite Forall_lookup in Hc1. by apply (Hc1 i). }
      rewrite Hpk in *. rewrite Hts, list_lookup_insert_eq in Ht0 by done.
      injection Ht0 as <-. cbn.
      split; [done|]. split; [done|]. split; [done|].
      exists t'. split; [by rewrite Hts, list_insert_insert_eq|].
      eapply painted_ext; [|by eapply painted_mark].
      intros y x. cbn beta. split.
      + intros [(j & q & Hj & Haj & Hq & Hu)|Hu].
        * exists j, q. split; [lia|done].
        * exists i, p. split; [lia|]. split; [done|]. split; [done|exact Hu].
      + intros (j & q & Hj & Haj & Hq & Hu).
        destruct (decide (j = i)) as [->|Hne].
        * right. rewrite Hp in Hq. by injection Hq as <-.
        * left. exists j, q. split; [lia|done].
    - injection Hb as <- <-.
      split; [done|]. split; [done|]. split; [done|].
      exists t. split; [done|]. eapply painted_ext; [|done].
      intros y x. cbn beta. split.
      + intros (j & q & Hj & Haj & Hq & Hu). exists j, q. split; [lia|done].
      + intros (j & q & Hj & Haj & Hq & Hu). exists j, q.
        assert (j ≠ i) by (intros ->; congruence). split; [lia|done]. }
  { split; [done|]. split; [done|]. split; [done|].
    exists c. split; [by rewrite Hts1, list_insert_id|].
    eapply painted_ext; [|by apply painted_none].
    intros y x. split; [done|]. intros (j & _ & Hj & _). lia. }
  cbn in H1. destruct H1 as (Hp2 & Hal2 & Ht2 & t2 & Hts2 & Hpt2).
  (* the second pass: unmark, tick and mark each of the living *)
  apply (for_up_ind (λ i '(ga, ba, la),
           Forall (λ p, player_handler.course p = k) (game.players ga)
           ∧ game.time ga = game.time g1
           ∧ (∀ j, (i ≤ j)%nat → game.players ga !! j = ps !! j
                                 ∧ game.alive ga !! j = al !! j)
           ∧ (∃ t : track.t, game.tracks ga = <[k := t]> ts
                ∧ painted st c (marks_before al n ps (game.players ga) i) t)
           ∧ (∀ j p, (j < i)%nat → al !! j = Some true → ps !! j = Some p →
                ∃ (tj : track.t) p' sv ev,
                  painted st c (marks_seen al n ps (game.players ga) j) tj ∧
                  player_handler.tick st tj p (game.time g1)
                  = Ok (p', sv, ev) ∧
                  game.players ga !! j = Some p' ∧
                  game.alive ga !! j = Some sv))) in H2; cycle 1.
  { intros i [[ga ba] la] [[gb bb] lb] Hi
      (Hca & Hta & Hrest & (t & Hts & Hpt) & Hdone) Hb.
    cbn in Hb.
    apply bind_Ok in Hb as (a & Ha & Hb).
    apply arr_get_Ok in Ha as [_ [_ Ha]%vec_get_Ok].
    rewrite Nat2Z.id in Ha.
    destruct (Hrest i ltac:(lia)) as [Hpi Hai]. rewrite Hai in Ha.
    destruct a.
    - apply bind_Ok in Hb as (gu & Hu & Hb).
      apply bind_Ok in Hb as ([[gt bt] lt] & Ht & Hb).
      apply bind_Ok in Hb as (gm & Hm & [= <- <- <-]).
      apply unmark_position_Ok in Hu as (p & t0 & tu & Hp & Ht0 & Hu & ->).
      assert (player_handler.course p = k) as Hpk.
      { rewrite Forall_lookup in Hca. by apply (Hca i). }
      rewrite Hpk in *. rewrite Hts, list_lookup_insert_eq in Ht0 by done.
      injection Ht0 as <-.
      pose proof (painted_unmark st c Hfree _ _ _ _ _ _ Hpt Hu) as Hpu.
      apply player_tick_run in Ht
        as (p0 & t0 & p' & sv & ev & Hp0 & Ht0 & Htick & -> & Hlen & _ & _).
      cbn in Hp0, Ht0, Htick, Hlen.
      rewrite Hp in Hp0. injection Hp0 as <-. rewrite Hpk in Ht0.
      rewrite Hts, list_insert_insert_eq, list_lookup_insert_eq in Ht0
        by done.
      injection Ht0 as <-.
      pose proof (tick_course _ _ _ _ _ _ _ Htick) as Hcp.
      assert (i < length (game.players ga))%nat as Hilen
        by by apply lookup_lt_Some in Hp.
      apply mark_position_Ok in Hm as (p1 & t1 & tm & Hp1 & Ht1 & Hm & ->).
      cbn in Hp1, Ht1. rewrite list_lookup_insert_eq in Hp1 by done.
      injection Hp1 as <-. rewrite Hcp, Hpk in *.
      rewrite Hts, list_insert_insert_eq, list_lookup_insert_eq in Ht1
        by done.
      injection Ht1 as <-.
      pose proof (painted_mark st c _ _ _ _ _ _ Hpu Hm) as Hpm.
      assert (ps !! i = Some p) as Hpsi by by rewrite <- Hpi.
      cbn. split; [|split; [done|split; [|split]]].
      + apply Forall_insert; [done|congruence].
      + intros j Hj. rewrite !list_lookup_insert_ne by lia.
        apply Hrest. lia.
      + exists tm. split; [by rewrite Hts, !list_insert_insert_eq|].
        eapply painted_ext; [|exact Hpm]. intros y x. cbn beta.
        rewrite (marks_before_S_living al n ps (game.players ga)
                   (<[i := p']> (game.players ga)) i p p');
          [done|lia|done|done|by apply list_lookup_insert_eq|].
        intros j Hj. by rewrite list_lookup_insert_ne by lia.
      + intros j q Hj Haj Hq. destruct (decide (j = i)) as [->|Hne].
        * rewrite Hpsi in Hq. injection Hq as <-.
          exists tu, p', sv, ev. split; [|split; [by rewrite <- Hta|split]].
          -- eapply painted_ext; [|exact Hpu]. intros y x. cbn beta.
             rewrite marks_seen_ext
               by (intros j Hj'; by rewrite list_lookup_insert_ne by lia).
             by rewrite (marks_seen_before al n ps _ i p).
          -- by apply list_lookup_insert_eq.
          -- by apply list_lookup_insert_eq.
        * destruct (Hdone j q ltac:(lia) Haj Hq)
            as (tj & q' & svj & evj & Hptj & Htj & Hqj & Hsj).
          exists tj, q', svj, evj. split; [|split; [done|split]].
          -- eapply painted_ext; [|exact Hptj]. intros y x.
             symmetry. apply marks_seen_ext.
             intros j' Hj'. by rewrite list_lookup_insert_ne by lia.
          -- by rewrite list_lookup_insert_ne.
          -- by rewrite list_lookup_insert_ne.
    - injection Hb as <- <- <-.
      split; [done|]. split; [done|]. split; [|split].
      + intros j Hj. apply Hrest. lia.
      + exists t. split; [done|]. eapply painted_ext; [|exact Hpt].
        intros y x. symmetry. apply marks_before_S_dead. congruence.
      + intros j q Hj Haj Hq. destruct (decide (j = i)) as [->|Hne].
        * congruence.
        * apply Hdone; [lia|done|done]. }
  { cbn. split; [by rewrite Hp2|]. split; [done|]. split; [|split].
    - intros j _. by rewrite Hp2, Hal2.
    - exists t2. split; [done|]. eapply painted_ext; [|exact Hpt2].
      intros y x. by rewrite marks_before_0.
    - intros j p Hj. lia. }
  cbn in H2. destruct H2 as (_ & _ & _ & _ & Hdone).
  (* the last pass keeps the players *)
  apply (for_up_ind (λ _ '(ga, la),
           game.players ga = game.players g3
           ∧ game.alive ga = game.alive g3)) in H3; cycle 1.
  { intros i [ga la] [gb lb] _ [Hpa Hal] Hb. cbn in Hb.
    apply bind_Ok in Hb as (gu & Hu & [= <- <-]).
    by apply unmark_position_Ok in Hu as (? & ? & ? & _ & _ & _ & ->). }
  { done. }
  cbn in H3. destruct H3 as [Hp4 Ha4].
  intros i p Hi Hai Hp.
  destruct (Hdone i p ltac:(lia) Hai Hp)
    as (t & p' & sv & ev & Hpt & Htick & Hp' & Hsv).
  exists t, p', sv, ev. rewrite Hp4, Ha4, <- Htime1. done.
Qed.

(** C2. A tick of the session on a shared track puts every mark back,
    and until then every player is checked against the marks of the
    others.  When all players race on one track of the store, [c], and
    no cell of it holds the character of the cars, a tick that
    completes leaves the store of tracks as it found it: no mark
    stays, no rock, kerb or digit is touched.  On the way it marks the
    players that are alive once the keys are read, then for each of
    them in turn unmarks it, ticks it and marks it again, and at last
    unmarks every player; these are all the calls it makes on the
    players.  The track that the tick of such a player is given is [c]
    with the character of the cars on the blank cells of [marks_seen],
    and on no other: the cells under the cars of the other living
    players, where they were when the keys were read for those whose
    turn is to come and where their own tick left them for those whose
    turn has been, less the cells blanked by the unmarks made since,
    the own unmark of the player among them.  The player and its being
    alive after the tick of the session are the results of this
    call. *)
Theorem shared_tick_reverts_marks st g keys g' continues log k (c : track.t) :
  settings.shared_track st = true →
  Forall (λ p, player_handler.course p = k) (game.players g) →
  game.tracks g !! k = Some c →
  car_free st c →
  game.tick st g keys = Ok (g', continues, log) →
  game.tracks g' = game.tracks g ∧
  ∃ g1,
    foldM (game.key st) (game.with_time g (game.time g + 1)) keys = Ok g1 ∧
    log = shared_tick_calls (game.alive g1) (Z.to_nat (settings.players st))
          ++ (if continues then [] else [Message (game.time g + 1)]) ∧
    ∀ (i : nat) p,
      (i < Z.to_nat (settings.players st))%nat →
      game.alive g1 !! i = Some true → game.players g1 !! i = Some p →
      ∃ (t : track.t) p' survives events,
        painted st c
          (marks_seen (game.alive g1) (Z.to_nat (settings.players st))
             (game.players g1) (game.players g') i) t ∧
        player_handler.tick st t p (game.time g + 1)
        = Ok (p', survives, events) ∧
        game.players g' !! i = Some p' ∧
        game.alive g' !! i = Some survives.
Proof.
  intros Hsh Hcourse Hk Hfree H.
  destruct (tick_on_shared_track st g keys g' continues log k c
              Hsh Hcourse Hk Hfree H) as (Ht & _ & g1 & Hkeys & Hlog).
  destruct (tick_sees_the_marks st g keys g' continues log k c
              Hsh Hcourse Hk Hfree H) as (g1' & Hkeys' & Hseen).
  rewrite Hkeys in Hkeys'. injection Hkeys' as <-.
  split; [done|]. by exists g1.
Qed.

Lemma shared_tick_reverts_marks_witness :
  settings.shared_track duel = true ∧
  Forall (λ p, player_handler.course p = O) (game.players crossing_game) ∧
  game.tracks crossing_game !! O = Some six_lines ∧
  car_free duel six_lines ∧
  ∃ g' continues log,
    game.tick duel crossing_game [100] = Ok (g', continues, log) ∧
    game.alive g' = [true; false] ∧
    game.tracks g' = game.tracks crossing_game ∧
    ∃ g1,
      foldM (game.key duel)
        (game.with_time crossing_game (game.time crossing_game + 1))
        [100] = Ok g1 ∧
      log = shared_tick_calls (game.alive g1)
              (Z.to_nat (settings.players duel))
            ++ (if continues then []
                else [Message (game.time crossing_game + 1)]) ∧
      ∀ (i : nat) p,
        (i < Z.to_nat (settings.players duel))%nat →
        game.alive g1 !! i = Some true → game.players g1 !! i = Some p →
        ∃ (t : track.t) p' survives events,
          painted duel six_lines
            (marks_seen (game.alive g1) (Z.to_nat (settings.players duel))
               (game.players g1) (game.players g') i) t ∧
          player_handler.tick duel t p (game.time crossing_game + 1)
          = Ok (p', survives, events) ∧
          game.players g' !! i = Some p' ∧
          game.alive g' !! i = Some survives.
Proof.
  assert (Forall (λ p, player_handler.course p = O)
                 (game.players crossing_game))
    as Hcourse by (repeat constructor).
  assert (car_free duel six_lines) as Hfree
    by (repeat constructor; discriminate).
  split; [reflexivity|]. split; [exact Hcourse|].
  split; [reflexivity|]. split; [exact Hfree|].
  compute_result (game.tick duel crossing_game [100])
    ltac:(fun v => match v with Ok (?g, ?b, ?l) =>
      exists g, b, l; split; [reflexivity|]; split; [reflexivity|];
      exact (shared_tick_reverts_marks duel crossing_game [100] g b l
               O six_lines eq_refl Hcourse eq_refl Hfree eq_refl) end).
Defined.

(** The game the constructor makes for a shared track. *)
Lemma game_shared st0 stdscr has_colors rnd seed0 st g s :
  game.game st0 stdscr has_colors rnd seed0 = Ok (st, g, s) →
  settings.shared_track st0 = true →
  settings.shared_track st = true ∧
  settings.character st = settings.character st0 ∧
  Forall (λ p, player_handler.course p = O) (game.players g) ∧
  ∃ (c : track.t) s0 s1,
    game.tracks g = [c] ∧ track.track st rnd s0 = Ok (c, s1).
Proof.
  unfold game.game. intros H Hsh.
  destruct has_colors; [cbn [negb] in H|done].
  apply bind_Ok in H as (st1 & Hst1 & H).
  assert (settings.shared_track st1 = true
          ∧ settings.character st1 = settings.character st0) as [Hsh1 Hch1].
  { repeat case_match; simplify_eq; done. }
  set (st2 := if bool_decide (settings.minimal_width st1 = 0)
              then settings.with_minimal_width st1 (MINIMAL_WIDTH st1)
              else st1) in *.
  assert (settings.shared_track st2 = true
          ∧ settings.character st2 = settings.character st0) as [Hsh2 Hch2].
  { unfold st2. by destruct (bool_decide (settings.minimal_width st1 = 0)). }
  apply bind_Ok in H as ([[ts ps] s'] & Hmake & H).
  apply bind_Ok in H as (al & _ & [= <- <- <-]).
  rewrite Hsh2 in Hmake. cbn [orb] in Hmake.
  apply bind_Ok in Hmake as ([c s1] & Htrack & Hmake).
  apply bind_Ok in Hmake as (ps' & Hps & [= <- <- <-]).
  split; [done|]. split; [done|]. cbn. split; [|by eexists _, _, _].
  apply (for_up_ind (λ _ ps, Forall (λ p, player_handler.course p = O) ps))
    in Hps; [done| |done].
  intros i a b _ Ha Hb.
  apply bind_Ok in Hb as (p & Hp & [_ ->]%arr_new_Ok).
  apply Forall_app. split; [done|]. apply Forall_singleton.
  clear -Hp. unfold player_handler.player_handler in Hp.
  destruct stdscr as [h w]. repeat case_bool_decide; try done.
  apply bind_Ok in Hp as (car & _ & Hp).
  apply bind_Ok in Hp as (keys & _ & [= <-]). done.
Qed.

(** Whatever the players do, a race on a shared track leaves the track
    as the generator made it. *)
Lemma race_keeps_the_track st0 stdscr has_colors rnd seed0 st g s buffers g' :
  game.game st0 stdscr has_colors rnd seed0 = Ok (st, g, s) →
  settings.shared_track st0 = true →
  settings.character st0 ∉ terrain →
  race st g buffers = Ok g' →
  game.tracks g' = game.tracks g.
Proof.
  intros Hgame Hsh Hch Hrace.
  destruct (game_shared _ _ _ _ _ _ _ _ Hgame Hsh)
    as (Hsh' & Hch' & Hcourse & c & s0 & s1 & Hts & Htrack).
  assert (car_free st c) as Hfree.
  { eapply track_car_free; [|done]. by rewrite Hch'. }
  apply (foldM_ind (λ g', game.tracks g' = game.tracks g
                          ∧ Forall (λ p, player_handler.course p = O)
                                   (game.players g'))) in Hrace;
    [by destruct Hrace| |done].
  intros keys ga gb _ [Hta Hca] Hb.
  apply bind_Ok in Hb as ([[gt b] log] & Htick & [= <-]).
  destruct (tick_on_shared_track st ga keys gt b log O c Hsh' Hca
              ltac:(by rewrite Hta, Hts) Hfree Htick) as (Ht & Hc & _).
  split; [congruence|done].
Qed.

(** ** The main loop *)

Lemma game_asserts_minimal_width st stdscr has_colors rnd seed :
  0 ≤ settings.race_length st → 0 < settings.race_width st →
  settings.race_width st < settings.minimal_width st →
  1 ≤ settings.players st →
  game.game st stdscr has_colors rnd seed = Fault AssertionFailed.
Proof.
  intros Hl Hw Hm Hp. unfold game.game.
  destruct has_colors; [cbn [negb]|done].
  rewrite bool_decide_false by lia. cbn [mbind result_bind].
  rewrite bool_decide_false by lia.
  pose proof (track_asserts_minimal_width st rnd seed Hl
                (Z.lt_le_incl _ _ Hw) Hm) as Hfault.
  destruct (settings.shared_track st || settings.similar_track st).
  - by rewrite Hfault.
  - destruct (Z.to_nat (settings.players st)) as [|n] eqn:Hn; [lia|].
    cbn [for_up]. by rewrite Hfault.
Qed.

(** A race that faults in its constructor ends the program: whatever
    the user would have chosen next is not read. *)
Lemma menu_loop_fault stdscr has_colors rnd st seed buffers rest f :
  game.game st stdscr has_colors rnd seed = Fault f →
  menu_loop stdscr has_colors rnd st seed (MENU_START buffers :: rest)
  = Fault f.
Proof. intros H. cbn [menu_loop]. by rewrite H. Qed.

(** C9, as the program has it.  For a length and a width that are not
    negative, the constructor of the track stops on a failed assertion
    exactly when the minimal width is above the width of the race, and
    then whatever [rand()] returns: the check is made once, before the
    loop over the lines.  The failed assertion ends the program: a race
    started from the menu with such settings does not return to the
    menu.  With a minimal width of at least 2 and at least 4 below the
    width of the race, the generator completes. *)
Theorem minimal_width_assertion_ends_the_program st rnd seed0 :
  0 ≤ settings.race_length st → 0 ≤ settings.race_width st →
  (track.track st rnd seed0 = Fault AssertionFailed ↔
   settings.race_width st < settings.minimal_width st) ∧
  (settings.race_width st < settings.minimal_width st →
   settings.race_width st ≠ 0 → 1 ≤ settings.players st →
   ∀ stdscr has_colors buffers rest,
     menu_loop stdscr has_colors rnd st seed0 (MENU_START buffers :: rest)
     = Fault AssertionFailed) ∧
  (2 ≤ settings.minimal_width st →
   settings.minimal_width st + 4 ≤ settings.race_width st →
   is_Ok (track.track st rnd seed0)).
Proof.
  intros Hl Hw. split; [split|split].
  - apply track_asserts_only_minimal_width.
  - by apply track_asserts_minimal_width.
  - intros Hm Hw0 Hp stdscr has_colors buffers rest.
    apply menu_loop_fault, game_asserts_minimal_width; lia.
  - intros Hmw Hwide. by apply track_total.
Qed.

Lemma minimal_width_assertion_ends_the_program_witness :
  track.track too_narrow (constantly 0) 0 = Fault AssertionFailed ∧
  menu_loop (24, 80) true (constantly 0) too_narrow 0
    [MENU_START []; MENU_OPTIONS id; MENU_QUIT] = Fault AssertionFailed ∧
  is_Ok (track.track straight_race (constantly 0) 0).
Proof.
  destruct (minimal_width_assertion_ends_the_program
              too_narrow (constantly 0) 0) as (H1 & H2 & _);
    [by vm_compute..|].
  destruct (minimal_width_assertion_ends_the_program
              straight_race (constantly 0) 0) as (_ & _ & H3);
    [by vm_compute..|].
  split; [apply H1; by vm_compute|].
  split; [apply H2; by vm_compute|apply H3; by vm_compute].
Defined.

(** C9, as the specification has it, fails.  Started from the menu
    with a width of 40 and a minimal width of 50, the race stops on the
    failed assertion and the program ends with it: the editor that the
    user would have opened next is never reached.  And with the
    settings that the constructor of the game makes of [reset] for two
    players on 80 columns, which the assertion accepts, the generator
    does not complete. *)
Lemma failed_assertion_ends_the_program :
  settings.race_width too_narrow = 40 ∧
  settings.minimal_width too_narrow = 50 ∧
  menu_loop (24, 80) true (constantly 0) too_narrow 0
    [MENU_START []; MENU_OPTIONS id; MENU_QUIT] = Fault AssertionFailed ∧
  settings.minimal_width (adjusted 2 80)
    ≤ settings.race_width (adjusted 2 80) ∧
  track.track (adjusted 2 80) (constantly 0) 0 = Fault OutOfRange.
Proof. repeat split; by vm_compute. Qed.

(** The assertion of the constructor of a player ends the program in
    the same way.  After a race of one player on 80 columns, left with
    the escape key, the settings keep the width of 80; a second race,
    for two players, asserts that 80 columns fit in the 40 of a player
    and the program ends. *)
Lemma changing_players_ends_the_program :
  main (24, 80) true (constantly 2147483647) 0
    [MENU_START [[KEY_ESC]];
     MENU_OPTIONS (λ st, settings._edit_players st [50]);
     MENU_START []; MENU_OPTIONS id; MENU_QUIT]
  = Fault AssertionFailed.
Proof. by vm_compute. Qed.

(** * Further properties of the program *)

(** ** The collision surface *)

(** A sweep over a footprint that it has already swept changes
    nothing. *)
Lemma sweep_twice from to ds (c : track.t) y x c1 :
  sweep from to c y x ds = Ok c1 → sweep from to c1 y x ds = Ok c1.
Proof.
  intros H. apply sweep_cells in H as (Hs & Hin & Hc).
  destruct (sweep_total from to ds c1 y x) as [c2 H2].
  { intros p Hp. apply (cell_shape c c1); [done|]. by apply Hin. }
  rewrite H2. f_equal.
  apply sweep_cells in H2 as (Hs2 & _ & Hc2).
  apply track_ext; [done|]. intros r k. rewrite Hc2.
  case_decide as Hd; [|done]. destruct Hd as [Hp Hfrom].
  rewrite Hfrom. rewrite Hc in Hfrom.
  case_decide as Hd'; [congruence|]. exfalso. apply Hd'. done.
Qed.

(** X1. [track::unmark] blanks only marks.  The circuit keeps its
    shape, every cell that held anything but the character of the cars
    still holds it, a cell that did change lies under the car, held the
    character of the cars and is now blank; and unless the cars are
    drawn with blanks, no cell under the car holds their character
    afterwards. *)
Theorem unmark_blanks_only_marks st (c : track.t) y x car c' :
  track.unmark st c y x car = Ok c' →
  shape c' = shape c ∧
  (∀ r k a, track.cell c r k = Some a → a ≠ settings.character st →
            track.cell c' r k = Some a) ∧
  (∀ r k, track.cell c' r k ≠ track.cell c r k →
          (r, k) ∈ footprint y x (car_image.get_dots car) ∧
          track.cell c r k = Some (settings.character st) ∧
          track.cell c' r k = Some " "%char) ∧
  (settings.character st ≠ " "%char →
   ∀ r k, (r, k) ∈ footprint y x (car_image.get_dots car) →
          track.cell c' r k ≠ Some (settings.character st)).
Proof.
  rewrite unmark_sweep. intros H.
  apply sweep_cells in H as (Hs & Hin & Hc).
  split; [done|]. split; [|split].
  - intros r k a Ha Hne. rewrite Hc, decide_False; [done|].
    intros [_ Hch]. congruence.
  - intros r k Hne. rewrite Hc in Hne |- *.
    case_decide as Hd; [|done]. by destruct Hd.
  - intros Hch r k Hp. rewrite Hc.
    case_decide as Hd; [congruence|].
    intros Hcell. apply Hd. done.
Qed.

Lemma unmark_blanks_only_marks_witness :
  ∃ c', track.unmark short_race marked_lines 0 2 two_dots = Ok c' ∧
        shape c' = shape marked_lines ∧
        track.cell c' 1 3 = Some "|"%char ∧
        track.cell c' 0 2 ≠ Some "^"%char.
Proof.
  eexists. split; [reflexivity|].
  destruct (unmark_blanks_only_marks short_race marked_lines 0 2 two_dots
              three_lines eq_refl) as (H1 & H2 & _ & H4).
  split; [exact H1|]. split.
  - by apply H2.
  - apply H4; [done|]. by left.
Defined.

(** X2. After [track::mark], [track::taken] answers yes on every cell
    under the car, and as before the mark on every other cell. *)
Theorem marked_cells_are_taken st (c : track.t) y x car c' :
  settings.character st ≠ " "%char →
  track.mark st c y x car = Ok c' →
  (∀ d, d ∈ car_image.get_dots car →
        track.taken c' (y + d.1) (x + d.2) = Ok true) ∧
  (∀ r k, (r, k) ∉ footprint y x (car_image.get_dots car) →
          track.taken c' r k = track.taken c r k).
Proof.
  intros Hch. rewrite mark_sweep. intros H.
  apply sweep_cells in H as (Hs & Hin & Hc). split.
  - intros d Hd.
    assert ((y + d.1, x + d.2) ∈ footprint y x (car_image.get_dots car))
      as Hp.
    { unfold footprint. apply list_elem_of_fmap. by exists d. }
    destruct (Hin _ Hp) as [a Ha]. cbn [fst snd] in Ha.
    unfold track.taken, track.circuit_at. rewrite Hc.
    case_decide as Hdec.
    + simpl. by rewrite bool_decide_false.
    + rewrite Ha. simpl. rewrite bool_decide_false; [done|].
      intros ->. apply Hdec. done.
  - intros r k Hp. unfold track.taken, track.circuit_at.
    rewrite Hc, decide_False; [done|]. by intros [? _].
Qed.

Lemma marked_cells_are_taken_witness :
  track.taken marked_lines 0 2 = Ok true ∧
  track.taken marked_lines 2 2 = Ok false.
Proof.
  destruct (marked_cells_are_taken short_race three_lines 0 2 two_dots
              marked_lines) as [H1 H2]; [done|reflexivity|].
  split.
  - apply (H1 (0, 0)). by left.
  - rewrite H2; [reflexivity|]. cbn.
    intros Hin. repeat (apply elem_of_cons in Hin as [Hin|Hin]; [done|]).
    by apply elem_of_nil in Hin.
Defined.

(** X3. Marking twice is marking once, and unmarking twice is unmarking
    once. *)
Theorem mark_and_unmark_are_idempotent st (c : track.t) y x car c1 :
  (track.mark st c y x car = Ok c1 → track.mark st c1 y x car = Ok c1) ∧
  (track.unmark st c y x car = Ok c1 → track.unmark st c1 y x car = Ok c1).
Proof.
  rewrite !mark_sweep, !unmark_sweep. split; apply sweep_twice.
Qed.

Lemma mark_and_unmark_are_idempotent_witness :
  track.mark short_race marked_lines 0 2 two_dots = Ok marked_lines ∧
  track.unmark short_race three_lines 0 2 two_dots = Ok three_lines.
Proof.
  split.
  - apply (proj1 (mark_and_unmark_are_idempotent short_race three_lines 0 2
                    two_dots marked_lines)). reflexivity.
  - apply (proj2 (mark_and_unmark_are_idempotent short_race marked_lines 0 2
                    two_dots three_lines)). reflexivity.
Defined.

(** X4. [track::mark] and [track::unmark] go through exactly when
    every cell under the car is a cell of the circuit. *)
Theorem marks_need_the_grid st (c : track.t) y x car :
  (is_Ok (track.mark st c y x car) ↔
   ∀ d, d ∈ car_image.get_dots car →
        is_Some (track.cell c (y + d.1) (x + d.2))) ∧
  (is_Ok (track.unmark st c y x car) ↔
   ∀ d, d ∈ car_image.get_dots car →
        is_Some (track.cell c (y + d.1) (x + d.2))).
Proof.
  assert (∀ from to,
    is_Ok (sweep from to c y x (car_image.dots car)) ↔
    ∀ d, d ∈ car_image.dots car →
         is_Some (track.cell c (y + d.1) (x + d.2))) as Hsweep.
  { intros from to. split.
    - intros [c' H] d Hd. apply sweep_cells in H as (_ & Hin & _).
      apply (Hin (y + d.1, x + d.2)).
      unfold footprint. apply list_elem_of_fmap. by exists d.
    - intros Hin. apply sweep_total. intros p Hp.
      unfold footprint in Hp. apply list_elem_of_fmap in Hp as (d & -> & Hd).
      by apply Hin. }
  rewrite mark_sweep, unmark_sweep. split; apply Hsweep.
Qed.

(** ** The image of a car *)

Lemma collision_check_pixel car y x b :
  car_image.collision_check car y x = Ok b
  ↔ pixel (car_image.storage car) y x = Some b.
Proof.
  unfold car_image.collision_check, pixel. split.
  - intros H. apply bind_Ok in H as (row & Hrow & H).
    apply vec_get_Ok in Hrow as [Hy Hrow]. apply vec_get_Ok in H as [Hx H].
    rewrite bool_decide_true by done. by rewrite Hrow.
  - case_bool_decide as Hb; [|done]. destruct Hb as [Hy Hx].
    destruct (car_image.storage car !! Z.to_nat y) as [row|] eqn:Hrow;
      [|done].
    simpl. intros H.
    assert (vec_get (car_image.storage car) y = Ok row) as ->
      by by apply vec_get_Ok.
    simpl. by apply vec_get_Ok.
Qed.

Lemma storage_put_pixel s y x b s' :
  car_image.storage_put s y x b = Ok s' →
  ∀ r k, pixel s' r k = if decide ((r, k) = (y, x)) then Some b
                        else pixel s r k.
Proof.
  intros H. unfold car_image.storage_put in H.
  apply bind_Ok in H as (row & Hrow & H).
  apply bind_Ok in H as (row' & Hput & H).
  apply vec_get_Ok in Hrow as [Hy Hrow].
  apply vec_put_Ok in Hput as [Hx ->].
  apply vec_put_Ok in H as [Hy' ->].
  intros r k. unfold pixel. case_bool_decide as Hb.
  - destruct Hb as [Hr Hk].
    destruct (decide (r = y)) as [->|Hry].
    + rewrite list_lookup_insert_eq by lia. simpl. rewrite Hrow. simpl.
      destruct (decide (k = x)) as [->|Hkx].
      * rewrite decide_True by done.
        apply list_lookup_insert_eq. lia.
      * rewrite decide_False by congruence.
        apply list_lookup_insert_ne. lia.
    + rewrite decide_False by congruence.
      rewrite list_lookup_insert_ne by lia. done.
  - rewrite decide_False; [done|]. intros [= -> ->]. apply Hb. lia.
Qed.

Lemma storage_put_Ok s y x b s' :
  square21 s → car_image.storage_put s y x b = Ok s' →
  square21 s' ∧ 0 ≤ y < 21 ∧ 0 ≤ x < 21 ∧
  ∀ r k, pixel s' r k = if decide ((r, k) = (y, x)) then Some b
                        else pixel s r k.
Proof.
  intros [Hlen Hrows] H.
  split; [|split; [|split; [|by apply storage_put_pixel]]];
    unfold car_image.storage_put in H;
    apply bind_Ok in H as (row & Hrow & H);
    apply bind_Ok in H as (row' & Hput & H);
    apply vec_get_Ok in Hrow as [Hy Hrow];
    apply vec_put_Ok in Hput as [Hx ->];
    apply vec_put_Ok in H as [Hy' ->];
    pose proof (Forall_lookup_1 _ _ _ _ Hrows Hrow) as Hrl; simpl in Hrl;
    [|lia|lia].
  split; [by rewrite length_insert|].
  apply Forall_insert; [done|]. by rewrite length_insert.
Qed.


Lemma plot_Ok car y1 x1 y2 x2 i car' :
  same_picture car → car_image.plot car y1 x1 y2 x2 i = Ok car' →
  same_picture car' ∧
  car_image.size car' = car_image.size car ∧
  car_image.character car' = car_image.character car ∧
  ∃ y, car_image.dots car' = car_image.dots car ++ [(y, i)] ∧
       0 ≤ y < 21 ∧ 0 ≤ i < 21.
Proof.
  intros [Hsq Hpic] H. unfold car_image.plot in H.
  apply bind_Ok in H as (off & _ & H).
  apply bind_Ok in H as (s & Hput & [= <-]).
  apply storage_put_Ok in Hput as (Hsq' & Hy & Hi & Hpix); [|done].
  cbn [car_image.storage car_image.dots car_image.size car_image.character].
  split; [|split; [done|split; [done|by exists (y1 + off)]]].
  split; [done|]. intros y x. cbn [car_image.storage car_image.dots].
  rewrite Hpix, elem_of_app, list_elem_of_singleton.
  case_decide as Hd.
  - split; [by right|done].
  - rewrite Hpic. split; [by left|]. by intros [?|?].
Qed.

(** The dots that a loop of [_line] adds: one for each column, in the
    order of the columns. *)
Lemma plots_Ok y1 x1 y2 x2 cols : ∀ car car',
  same_picture car →
  foldM (λ car i, car_image.plot car y1 x1 y2 x2 i) car cols = Ok car' →
  same_picture car' ∧
  car_image.size car' = car_image.size car ∧
  car_image.character car' = car_image.character car ∧
  ∃ l, car_image.dots car' = car_image.dots car ++ l ∧ l.*2 = cols ∧
       Forall (λ d, 0 ≤ d.1 < 21 ∧ 0 ≤ d.2 < 21) l.
Proof.
  induction cols as [|i cols IH]; intros car car' Hcar H; simpl in H.
  - injection H as <-. repeat split; try apply Hcar.
    exists []. by rewrite app_nil_r.
  - apply bind_Ok in H as (car1 & H1 & H).
    apply plot_Ok in H1 as (Hcar1 & Hs1 & Hc1 & y & Hd1 & Hy & Hi); [|done].
    apply IH in H as (Hcar' & Hs & Hc & l & Hd & Hl & Hin); [|done].
    split; [done|]. split; [congruence|]. split; [congruence|].
    exists ((y, i) :: l). split; [|split].
    + rewrite Hd, Hd1, <- app_assoc. done.
    + by rewrite fmap_cons, Hl.
    + by apply Forall_cons.
Qed.

Lemma _line_Ok car y1 x1 y2 x2 car' :
  same_picture car → car_image._line car y1 x1 y2 x2 = Ok car' →
  same_picture car' ∧
  car_image.size car' = car_image.size car ∧
  car_image.character car' = car_image.character car ∧
  ∃ l, car_image.dots car' = car_image.dots car ++ l ∧
       l.*2 = seqZ (Z.min x1 x2) (Z.abs (x2 - x1) + 1) ∧
       Forall (λ d, 0 ≤ d.1 < 21 ∧ 0 ≤ d.2 < 21) l.
Proof.
  intros Hcar H. unfold car_image._line in H.
  case_bool_decide as Hswap.
  - apply plots_Ok in H as (? & ? & ? & l & ? & Hl & ?); [|done].
    split; [done|]. split; [done|]. split; [done|].
    exists l. split; [done|]. split; [|done].
    rewrite Hl. f_equal; lia.
  - apply plots_Ok in H as (? & ? & ? & l & ? & Hl & ?); [|done].
    split; [done|]. split; [done|]. split; [done|].
    exists l. split; [done|]. split; [|done].
    rewrite Hl. f_equal; lia.
Qed.

Lemma _clear_Ok car car' :
  square21 (car_image.storage car) →
  (∀ y x, pixel (car_image.storage car) y x ≠ Some true) →
  car_image._clear car = Ok car' →
  square21 (car_image.storage car') ∧
  (∀ y x, pixel (car_image.storage car') y x ≠ Some true) ∧
  car_image.dots car' = car_image.dots car ∧
  car_image.size car' = car_image.size car ∧
  car_image.character car' = car_image.character car.
Proof.
  intros Hsq Hpix H. unfold car_image._clear in H.
  apply bind_Ok in H as (s & H & [= <-]).
  cbn [car_image.storage car_image.dots car_image.size car_image.character].
  assert (square21 s ∧ ∀ y x, pixel s y x ≠ Some true) as [? ?]; [|done].
  revert H.
  apply (foldM_ind (λ s, square21 s ∧ ∀ y x, pixel s y x ≠ Some true));
    [|done].
  intros i s1 s2 _ Hs1.
  apply (foldM_ind (λ s, square21 s ∧ ∀ y x, pixel s y x ≠ Some true));
    [|done].
  intros j s3 s4 _ [Hsq3 Hpix3] Hput.
  apply storage_put_Ok in Hput as (Hsq4 & _ & _ & Hpix4); [|done].
  split; [done|]. intros y x. rewrite Hpix4. by case_decide.
Qed.

Lemma blank_storage :
  square21 (replicate 21 (replicate 21 false)) ∧
  ∀ y x, pixel (replicate 21 (replicate 21 false)) y x ≠ Some true.
Proof.
  split.
  - split; [done|]. by apply Forall_replicate.
  - intros y x. unfold pixel. case_bool_decide as Hb; [|done].
    intros Hp. apply bind_Some in Hp as (row & Hrow & Hp).
    apply lookup_replicate in Hrow as [-> _].
    by apply lookup_replicate in Hp as [? _].
Qed.

(** What the constructor makes: the picture in the array is the
    picture of the dots, and the dots are those of the four lines, one
    for each column of each line. *)
Lemma car_image_Ok st car :
  car_image.car_image st = Ok car →
  let n := settings.car_size st - 1 in
  same_picture car ∧
  car_image.size car = settings.car_size st ∧
  car_image.character car = settings.character st ∧
  Forall (λ d, 0 ≤ d.1 < 21 ∧ 0 ≤ d.2 < 21) (car_image.dots car) ∧
  (car_image.dots car).*2 =
    seqZ (Z.min 0 n) (Z.abs n + 1) ++ seqZ (Z.min 0 n) (Z.abs n + 1) ++
    seqZ (Z.min 0 n) (Z.abs n + 1) ++ seqZ (Z.min 0 n) (Z.abs n + 1).
Proof.
  intros H n. unfold car_image.car_image in H.
  apply bind_Ok in H as (c0 & H0 & H).
  apply bind_Ok in H as (c1 & H1 & H).
  apply bind_Ok in H as (c2 & H2 & H).
  apply bind_Ok in H as (c3 & H3 & H).
  destruct blank_storage as [Hsq Hpix].
  apply _clear_Ok in H0 as (Hsq0 & Hpix0 & Hd0 & Hs0 & Hc0); [|done..].
  cbn [car_image.dots car_image.size car_image.character] in Hd0, Hs0, Hc0.
  assert (same_picture c0) as Hp0.
  { split; [done|]. intros y x. rewrite Hd0. split; [by intros ?%Hpix0|].
    by intros ?%elem_of_nil. }
  replace (Z.quot (4 * (settings.car_size st - 1)) 4) with n in *
    by (unfold n; rewrite Z.mul_comm, Z.quot_mul; lia).
  apply _line_Ok in H1 as (Hp1 & Hs1 & Hc1 & l1 & Hd1 & Hl1 & Hin1); [|done].
  apply _line_Ok in H2 as (Hp2 & Hs2 & Hc2 & l2 & Hd2 & Hl2 & Hin2); [|done].
  apply _line_Ok in H3 as (Hp3 & Hs3 & Hc3 & l3 & Hd3 & Hl3 & Hin3); [|done].
  apply _line_Ok in H as (Hp4 & Hs4 & Hc4 & l4 & Hd4 & Hl4 & Hin4); [|done].
  split; [done|]. split; [congruence|]. split; [congruence|].
  rewrite Hd4, Hd3, Hd2, Hd1, Hd0. simpl.
  split.
  - by repeat (apply Forall_app; split).
  - rewrite !fmap_app, Hl1, Hl2, Hl3, Hl4, <- !app_assoc.
    rewrite (Z.min_comm n 0).
    replace (Z.abs (n - 0)) with (Z.abs n) by (f_equal; lia).
    replace (Z.abs (0 - n)) with (Z.abs n) by lia. done.
Qed.

Lemma car_image_sized st :
  car_image.car_image st
  = car_image.car_image (sized (settings.car_size st) (settings.character st)).
Proof. reflexivity. Qed.

(** The sizes for which the constructor goes through. *)
Lemma car_image_size_range st car :
  car_image.car_image st = Ok car → 2 ≤ settings.car_size st ≤ 21.
Proof.
  intros H. pose proof (car_image_Ok st car H) as (_ & _ & _ & Hin & Hcols).
  cbn zeta in Hcols.
  set (n := settings.car_size st - 1) in *.
  assert (∀ j, j ∈ seqZ (Z.min 0 n) (Z.abs n + 1) → 0 ≤ j < 21) as Hj.
  { intros j Hj.
    assert (j ∈ (car_image.dots car).*2) as Hd.
    { rewrite Hcols. apply elem_of_app. by left. }
    apply list_elem_of_fmap in Hd as (d & -> & Hd).
    rewrite Forall_forall in Hin. by apply Hin. }
  assert (0 ≤ n < 21) as Hn.
  { pose proof (Hj (Z.min 0 n)) as H0. pose proof (Hj (Z.max 0 n)) as H1.
    rewrite !elem_of_seqZ in H0, H1. lia. }
  destruct (decide (n = 0)) as [Hz|Hnz]; [|lia].
  exfalso. rewrite car_image_sized in H.
  replace (settings.car_size st) with 1 in H by lia.
  by vm_compute in H.
Qed.
Lemma car_image_by_size n a :
  2 ≤ n ≤ 21 →
  ∃ car, car_image.car_image (sized n a) = Ok car ∧
         Forall (λ d, 0 ≤ d.1 < n ∧ 0 ≤ d.2 < n) (car_image.dots car).
Proof.
  intros Hn.
  assert (n ∈ seqZ 2 20) as Hin by (apply elem_of_seqZ; lia).
  vm_compute in Hin.
  repeat (apply elem_of_cons in Hin as [->|Hin];
    [eexists; split; [vm_compute; reflexivity|];
     cbn [car_image.dots];
     repeat (apply Forall_cons; split; [cbn; lia|]); by apply Forall_nil|]).
  by apply elem_of_nil in Hin.
Qed.

Lemma pixel_in_square s y x :
  square21 s → 0 ≤ y < 21 → 0 ≤ x < 21 → is_Some (pixel s y x).
Proof.
  intros [Hlen Hrows] Hy Hx. unfold pixel. rewrite bool_decide_true by lia.
  destruct (lookup_lt_is_Some_2 s (Z.to_nat y)) as [row Hrow]; [lia|].
  rewrite Hrow. simpl. apply lookup_lt_is_Some_2.
  pose proof (Forall_lookup_1 _ _ _ _ Hrows Hrow) as Hrl. simpl in Hrl. lia.
Qed.

(** In an image that shows the picture of its dots,
    [collision_check] tells whether a cell of the array is a dot. *)
Lemma collision_check_dots car y x :
  same_picture car → 0 ≤ y < 21 → 0 ≤ x < 21 →
  car_image.collision_check car y x
  = Ok (bool_decide ((y, x) ∈ car_image.get_dots car)).
Proof.
  intros [Hsq Hpic] Hy Hx.
  destruct (pixel_in_square _ y x Hsq Hy Hx) as [b Hb].
  apply collision_check_pixel. rewrite Hb. f_equal.
  unfold car_image.get_dots. destruct b.
  - rewrite bool_decide_true; [done|]. by apply Hpic.
  - rewrite bool_decide_false; [done|]. intros Hin%Hpic. congruence.
Qed.

Lemma car_dots_in_square st car :
  car_image.car_image st = Ok car →
  Forall (λ d, 0 ≤ d.1 < settings.car_size st ∧ 0 ≤ d.2 < settings.car_size st)
         (car_image.dots car).
Proof.
  intros H. pose proof (car_image_size_range st car H) as Hn.
  rewrite car_image_sized in H.
  destruct (car_image_by_size _ (settings.character st) Hn)
    as (car' & H' & Hin).
  rewrite H' in H. by injection H as <-.
Qed.

(** X5. The constructor of the image of a car goes through exactly for
    the sizes from 2 to 21: a car of size 1 has no line to draw between
    its key points, a larger one does not fit the array. *)
Theorem car_image_sizes st :
  is_Ok (car_image.car_image st) ↔ 2 ≤ settings.car_size st ≤ 21.
Proof.
  split.
  - intros [car H]. by eapply car_image_size_range.
  - intros Hn. rewrite car_image_sized.
    destruct (car_image_by_size _ (settings.character st) Hn) as (car & -> & _).
    by eexists.
Qed.

(** X6. The two pictures that a car keeps of itself agree.  In the
    image that the constructor makes every dot of [get_dots] lies in
    the square of the size of the car, and on every cell of this square
    [collision_check] answers yes exactly when the cell is one of the
    dots. *)
Theorem car_image_agrees_with_its_dots st car :
  car_image.car_image st = Ok car →
  car_image.size car = settings.car_size st ∧
  Forall (λ d, 0 ≤ d.1 < car_image.size car ∧ 0 ≤ d.2 < car_image.size car)
         (car_image.get_dots car) ∧
  ∀ y x, 0 ≤ y < car_image.size car → 0 ≤ x < car_image.size car →
         car_image.collision_check car y x
         = Ok (bool_decide ((y, x) ∈ car_image.get_dots car)).
Proof.
  intros H. pose proof (car_image_size_range st car H) as Hn.
  pose proof (car_dots_in_square st car H) as Hin.
  apply car_image_Ok in H as (Hpic & Hs & _).
  rewrite Hs. split; [done|]. split; [done|].
  intros y x Hy Hx. apply collision_check_dots; [done|lia..].
Qed.

Lemma car_image_agrees_with_its_dots_witness :
  ∃ car, car_image.car_image settings.reset = Ok car ∧
         car_image.collision_check car 1 3 = Ok true ∧
         car_image.collision_check car 0 3 = Ok false.
Proof.
  compute_result (car_image.car_image settings.reset)
    ltac:(fun v => match v with Ok ?c => exists c end).
  split; [by vm_compute|].
  match goal with |- car_image.collision_check ?c _ _ = _ ∧ _ =>
    destruct (car_image_agrees_with_its_dots settings.reset c)
      as (_ & _ & Hcheck); [by vm_compute|] end.
  split; rewrite Hcheck; by vm_compute.
Defined.

Lemma plots_dots y1 x1 y2 x2 cols : ∀ car car',
  foldM (λ car i, car_image.plot car y1 x1 y2 x2 i) car cols = Ok car' →
  (∀ y x, pixel (car_image.storage car) y x = Some true →
          pixel (car_image.storage car') y x = Some true) ∧
  car_image.size car' = car_image.size car ∧
  car_image.character car' = car_image.character car ∧
  ∃ l, car_image.dots car' = car_image.dots car ++ l ∧ l.*2 = cols ∧
       ∀ d, d ∈ l → pixel (car_image.storage car') d.1 d.2 = Some true.
Proof.
  induction cols as [|i cols IH]; intros car car' H; simpl in H.
  - injection H as <-. split; [done|]. split; [done|]. split; [done|].
    exists []. rewrite app_nil_r. split; [done|]. split; [done|].
    by intros d ?%elem_of_nil.
  - apply bind_Ok in H as (car1 & H1 & H).
    unfold car_image.plot in H1.
    apply bind_Ok in H1 as (off & _ & H1).
    apply bind_Ok in H1 as (s & Hput & [= <-]).
    pose proof (storage_put_pixel _ _ _ _ _ Hput) as Hpix.
    apply IH in H as (Hkeep & Hs & Hc & l & Hd & Hl & Hnew).
    cbn [car_image.storage car_image.dots car_image.size
         car_image.character] in *.
    split; [|split; [done|split; [done|]]].
    + intros y x Hyx. apply Hkeep. rewrite Hpix. by case_decide.
    + exists ((y1 + off, i) :: l). split; [|split].
      * by rewrite Hd, <- app_assoc.
      * by rewrite fmap_cons, Hl.
      * intros d [->|Hd']%elem_of_cons; [|by apply Hnew].
        apply Hkeep. rewrite Hpix. by rewrite decide_True.
Qed.

(** X7. [_line] plots one dot for each column between its two end
    points, from the left to the right whichever end point comes first,
    on top of the dots that are there: the new dots are set in the
    image, and no dot that was set is cleared. *)
Theorem line_plots_each_column_once car y1 x1 y2 x2 car' :
  car_image._line car y1 x1 y2 x2 = Ok car' →
  (∃ l, car_image.get_dots car' = car_image.get_dots car ++ l ∧
        l.*2 = seqZ (Z.min x1 x2) (Z.abs (x2 - x1) + 1) ∧
        ∀ d, d ∈ l → car_image.collision_check car' d.1 d.2 = Ok true) ∧
  (∀ y x, car_image.collision_check car y x = Ok true →
          car_image.collision_check car' y x = Ok true).
Proof.
  intros H. unfold car_image._line in H.
  assert (∃ a b, seqZ a b = seqZ (Z.min x1 x2) (Z.abs (x2 - x1) + 1) ∧
    foldM (λ car i, car_image.plot car
             (if bool_decide (x2 < x1) then y2 else y1) a
             (if bool_decide (x2 < x1) then y1 else y2)
             (if bool_decide (x2 < x1) then x1 else x2) i) car (seqZ a b)
    = Ok car') as (a & b & Hcols & Hrun).
  { case_bool_decide.
    - exists x2, (x1 - x2 + 1). split; [f_equal; lia|done].
    - exists x1, (x2 - x1 + 1). split; [f_equal; lia|done]. }
  apply plots_dots in Hrun as (Hkeep & _ & _ & l & Hd & Hl & Hnew).
  split.
  - exists l. split; [done|]. split; [congruence|].
    intros d Hin. apply collision_check_pixel. by apply Hnew.
  - intros y x Hyx. apply collision_check_pixel, Hkeep.
    by apply collision_check_pixel.
Qed.

Lemma line_plots_each_column_once_witness :
  ∃ car', car_image._line (blank_image settings.reset) 2 9 4 0 = Ok car' ∧
          (car_image.get_dots car').*2 = seqZ 0 10.
Proof.
  compute_result (car_image._line (blank_image settings.reset) 2 9 4 0)
    ltac:(fun v => match v with Ok ?c => exists c end).
  split; [by vm_compute|].
  match goal with |- (car_image.get_dots ?c).*2 = _ =>
    destruct (line_plots_each_column_once
                (blank_image settings.reset) 2 9 4 0 c)
      as [(l & Hd & Hl & _) _]; [by vm_compute|] end.
  rewrite Hd. exact Hl.
Defined.

(** ** The collisions of a player *)

(** One line of the scan of [tick]. *)
Lemma scan_row (c : track.t) car y x i js : ∀ b l b' l',
  foldM (λ (s : bool * list event) j,
           tk ← track.taken c i j;
           hit ← (if (tk : bool)
                  then car_image.collision_check car (i - y) (j - x)
                  else Ok false);
           Ok (if (hit : bool) then false else s.1, s.2 ++ [Taken i j]))
        (b, l) js = Ok (b', l') →
  l' = l ++ (Taken i <$> js) ∧
  (∀ j, j ∈ js → is_Ok (track.taken c i j)) ∧
  (b' = false ↔
   b = false ∨ ∃ j, j ∈ js ∧ track.taken c i j = Ok true ∧
                    car_image.collision_check car (i - y) (j - x) = Ok true).
Proof.
  induction js as [|j js IH]; intros b l b' l' H; simpl in H.
  - injection H as <- <-. rewrite app_nil_r. split; [done|]. split.
    + by intros j ?%elem_of_nil.
    + split; [by left|]. intros [?|(j & ?%elem_of_nil & _)]; done.
  - apply bind_Ok in H as ([b1 l1] & H1 & H).
    apply bind_Ok in H1 as (tk & Htk & H1).
    apply bind_Ok in H1 as (hit & Hhit & [= <- <-]).
    apply IH in H as (-> & Hall & Hb). cbn [fst snd] in *.
    split; [by rewrite fmap_cons, <- app_assoc|]. split.
    + intros j' [->|Hj]%elem_of_cons; [by eexists|by apply Hall].
    + rewrite Hb. split.
      * intros [Hb1|(j' & Hj' & Ht & Hc)].
        -- destruct hit; [|by left]. right. exists j.
           destruct tk; [|done]. split; [by left|done].
        -- right. exists j'. split; [by right|done].
      * intros [->|(j' & [->|Hj']%elem_of_cons & Ht & Hc)].
        -- left. by destruct hit.
        -- left. rewrite Ht in Htk. injection Htk as <-.
           rewrite Hc in Hhit. by injection Hhit as <-.
        -- right. by exists j'.
Qed.

(** The scan of [tick]: it asks [taken] for every cell of the square of
    the car, line by line, and the car survives unless one of them is
    taken where the image of the car has a dot. *)
Lemma collisions_Ok st p (c : track.t) survive scan :
  player_handler.collisions st p c = Ok (survive, scan) →
  scan = (seqZ (player_handler.y p) (settings.car_size st) ≫= λ i,
            Taken i <$> seqZ (player_handler.x p) (settings.car_size st)) ∧
  (∀ i j,
     player_handler.y p ≤ i < player_handler.y p + settings.car_size st →
     player_handler.x p ≤ j < player_handler.x p + settings.car_size st →
     is_Ok (track.taken c i j)) ∧
  (survive = false ↔
   ∃ i j, player_handler.y p ≤ i < player_handler.y p + settings.car_size st ∧
          player_handler.x p ≤ j < player_handler.x p + settings.car_size st ∧
          track.taken c i j = Ok true ∧
          car_image.collision_check (player_handler.car p)
            (i - player_handler.y p) (j - player_handler.x p) = Ok true).
Proof.
  unfold player_handler.collisions. intros H.
  set (y := player_handler.y p) in *. set (x := player_handler.x p) in *.
  set (n := settings.car_size st) in *.
  assert (∀ rows b l b' l',
    foldM (λ (s : bool * list event) i,
      foldM (λ (s : bool * list event) j,
           tk ← track.taken c i j;
           hit ← (if (tk : bool)
                  then car_image.collision_check (player_handler.car p)
                         (i - y) (j - x)
                  else Ok false);
           Ok (if (hit : bool) then false else s.1, s.2 ++ [Taken i j]))
        s (seqZ x n)) (b, l) rows = Ok (b', l') →
    l' = l ++ (rows ≫= λ i, Taken i <$> seqZ x n) ∧
    (∀ i j, i ∈ rows → j ∈ seqZ x n → is_Ok (track.taken c i j)) ∧
    (b' = false ↔
     b = false ∨ ∃ i j, i ∈ rows ∧ j ∈ seqZ x n ∧ track.taken c i j = Ok true ∧
       car_image.collision_check (player_handler.car p) (i - y) (j - x)
       = Ok true)) as Hrows.
  { induction rows as [|i rows IH]; intros b l b' l' Hrun; simpl in Hrun.
    - injection Hrun as <- <-. rewrite app_nil_r. split; [done|]. split.
      + by intros i j ?%elem_of_nil.
      + split; [by left|]. intros [?|(i & j & ?%elem_of_nil & _)]; done.
    - apply bind_Ok in Hrun as ([b1 l1] & H1 & Hrun).
      apply scan_row in H1 as (-> & Hall1 & Hb1).
      apply IH in Hrun as (-> & Hall & Hb).
      split; [by rewrite bind_cons, <- !app_assoc|]. split.
      + intros i' j [->|Hi]%elem_of_cons Hj; [by apply Hall1|by apply Hall].
      + rewrite Hb, Hb1. split.
        * intros [[?|(j & Hj & ? & ?)]|(i' & j & Hi' & Hj & ? & ?)].
          -- by left.
          -- right. exists i, j. split; [by left|done].
          -- right. exists i', j. split; [by right|done].
        * intros [?|(i' & j & [->|Hi']%elem_of_cons & Hj & ? & ?)].
          -- left. by left.
          -- left. right. by exists j.
          -- right. by exists i', j. }
  apply Hrows in H as (-> & Hall & Hb). split; [done|]. split.
  - intros i j Hi Hj. apply Hall; apply elem_of_seqZ; lia.
  - rewrite Hb. split.
    + intros [?|(i & j & Hi%elem_of_seqZ & Hj%elem_of_seqZ & ? & ?)]; [done|].
      exists i, j. repeat split; try done; lia.
    + intros (i & j & Hi & Hj & ? & ?). right. exists i, j.
      rewrite !elem_of_seqZ. repeat split; try done; lia.
Qed.

(** X8. The collision scan of [tick] asks [taken] once for every cell
    of the square of the car, line by line, and the player survives
    unless some cell of the square is taken where the image of the car
    has a dot. *)
Theorem collision_scan_finds_every_hit st p (c : track.t) survive scan :
  player_handler.collisions st p c = Ok (survive, scan) →
  scan = (seqZ (player_handler.y p) (settings.car_size st) ≫= λ i,
            Taken i <$> seqZ (player_handler.x p) (settings.car_size st)) ∧
  (survive = false ↔
   ∃ i j, player_handler.y p ≤ i < player_handler.y p + settings.car_size st ∧
          player_handler.x p ≤ j < player_handler.x p + settings.car_size st ∧
          track.taken c i j = Ok true ∧
          car_image.collision_check (player_handler.car p)
            (i - player_handler.y p) (j - player_handler.x p) = Ok true).
Proof.
  intros H. apply collisions_Ok in H as (? & _ & ?). done.
Qed.

Lemma collision_scan_finds_every_hit_witness :
  ∃ scan, player_handler.collisions duel (driver two_dots 4 6) six_lines
          = Ok (false, scan) ∧
          scan = [Taken 4 6; Taken 4 7; Taken 5 6; Taken 5 7].
Proof.
  compute_result (player_handler.collisions duel (driver two_dots 4 6)
                    six_lines)
    ltac:(fun v => match v with Ok (_, ?s) => exists s end).
  split; [by vm_compute|].
  match goal with |- ?s = _ =>
    destruct (collision_scan_finds_every_hit duel (driver two_dots 4 6)
                six_lines false s) as [Hscan _]; [by vm_compute|] end.
  exact Hscan.
Defined.

Lemma taken_Ok (c : track.t) y x b :
  track.taken c y x = Ok b ↔
  ∃ a, track.cell c y x = Some a ∧ b = negb (bool_decide (a = " "%char)).
Proof.
  unfold track.taken. split.
  - intros H. apply bind_Ok in H as (a & Ha%circuit_at_Ok & [= <-]). eauto.
  - intros (a & Ha%circuit_at_Ok & ->). by rewrite Ha.
Qed.

(** X9. A player with a car of the constructor survives the scan
    exactly when every cell of the track under a dot of its car is
    blank: the scan, which reads the image of the car, and the marks,
    which go by the list of dots, see the same car. *)
Theorem car_survives_on_blank_cells st p (c : track.t) survive scan :
  car_image.car_image st = Ok (player_handler.car p) →
  player_handler.collisions st p c = Ok (survive, scan) →
  survive = true ↔
  ∀ d, d ∈ car_image.get_dots (player_handler.car p) →
       track.cell c (player_handler.y p + d.1) (player_handler.x p + d.2)
       = Some " "%char.
Proof.
  intros Hcar H.
  pose proof (car_image_size_range _ _ Hcar) as Hn.
  pose proof (car_dots_in_square _ _ Hcar) as Hin.
  apply car_image_Ok in Hcar as (Hpic & _).
  apply collisions_Ok in H as (_ & Hall & Hb).
  rewrite Forall_forall in Hin. split.
  - intros -> d Hd. destruct (Hin d Hd) as [Hd1 Hd2].
    destruct (Hall (player_handler.y p + d.1) (player_handler.x p + d.2))
      as [tk Htk]; [lia..|].
    destruct tk.
    + assert (false = true) as Hf; [|done]. symmetry. apply Hb.
      eexists _, _. split; [|split; [|split; [exact Htk|]]]; [lia..|].
      replace (player_handler.y p + d.1 - player_handler.y p) with d.1 by lia.
      replace (player_handler.x p + d.2 - player_handler.x p) with d.2 by lia.
      rewrite collision_check_dots by (done || lia).
      rewrite bool_decide_true; [done|]. by destruct d.
    + apply taken_Ok in Htk as (a & Ha & Hblank). rewrite Ha. f_equal.
      symmetry in Hblank. apply negb_false_iff in Hblank.
      by apply bool_decide_eq_true in Hblank.
  - intros Hblank. destruct survive; [done|].
    destruct Hb as [Hb _]. destruct (Hb eq_refl) as (i & j & Hi & Hj & Ht & Hc).
    rewrite collision_check_dots in Hc by (done || lia).
    injection Hc as Hc. apply bool_decide_eq_true in Hc.
    apply Hblank in Hc. cbn [fst snd] in Hc.
    replace (player_handler.y p + (i - player_handler.y p)) with i in Hc by lia.
    replace (player_handler.x p + (j - player_handler.x p)) with j in Hc by lia.
    apply taken_Ok in Ht as (a & Ha & Hf). rewrite Hc in Ha.
    injection Ha as <-. done.
Qed.

Lemma car_survives_on_blank_cells_witness :
  ∃ car scan,
    car_image.car_image duel = Ok car ∧
    player_handler.collisions duel (driver car 4 2) six_lines
    = Ok (true, scan) ∧
    ∀ d, d ∈ car_image.get_dots car →
         track.cell six_lines (4 + d.1) (2 + d.2) = Some " "%char.
Proof.
  compute_result (car_image.car_image duel)
    ltac:(fun v => match v with Ok ?c => exists c end).
  match goal with |- ∃ scan, _ ∧ player_handler.collisions _ ?p _ = _ ∧ _ =>
    compute_result (player_handler.collisions duel p six_lines)
      ltac:(fun v => match v with Ok (_, ?s) => exists s end) end.
  split; [by vm_compute|]. split; [by vm_compute|].
  match goal with |- ∀ d, d ∈ car_image.get_dots ?car → _ =>
    match goal with |- context [player_handler.collisions] => fail 1 | _ => idtac end;
    pose proof (car_survives_on_blank_cells duel (driver car 4 2) six_lines
                  true) as Hx end.
  eapply Hx; [by vm_compute|by vm_compute|done].
Defined.

(** ** The tracks of the generator, line by line *)

(** The loop over the lines keeps what its body keeps of the circuit
    and the kerbs together. *)
Lemma lines_inv st rnd (Inv : nat → track.t → track.kerbs → Prop) :
  (∀ n (c : track.t) k l l' k' r,
     Inv (S n) c k → c !! n = Some l →
     track.line st rnd (Z.of_nat n) l k = Ok (l', k', r) →
     Inv n (<[n := l']> c) k') →
  ∀ n (c : track.t) k rolls c' k' rolls',
    Inv n c k →
    track.lines st rnd n c k rolls = Ok (c', k', rolls') →
    Inv O c' k'.
Proof.
  intros Hbody. induction n as [|n IH]; intros c k rolls c' k' rolls' Hk H.
  - by injection H as <- <- <-.
  - simpl in H.
    apply bind_Ok in H as (l & Hl & H).
    apply bind_Ok in H as ([[l1 k1] r1] & Hline & H).
    apply bind_Ok in H as (c1 & Hput & H).
    apply vec_put_Ok in Hput as [Hn ->].
    apply vec_get_Ok in Hl as [_ Hl]. rewrite Nat2Z.id in *.
    eapply IH; [|done]. by eapply Hbody.
Qed.

Lemma line_kerbs_at st rnd i l k l' k' r :
  0 ≤ i →
  direction (track.borders_directions k).1 →
  direction (track.borders_directions k).2 →
  track.line st rnd i l k = Ok (l', k', r) →
  kerbs_at l' (track.borders k').1 (track.borders k').2 ∧
  (track.borders k').1 = (track.borders k).1 + (track.borders_directions k).1 ∧
  (track.borders k').2 = (track.borders k).2 + (track.borders_directions k).2 ∧
  direction (track.borders_directions k').1 ∧
  direction (track.borders_directions k').2 ∧
  length l' = length l.
Proof.
  intros Hi Hd0 Hd1 H. apply line_spec in H; [|done..].
  destruct H as (Hb & Hlen & Hb0 & Hb1 & Hk & Hd0' & Hd1' & _).
  rewrite Hb. cbn [fst snd]. unfold kerbs_at. rewrite Hlen.
  split; [split; [lia|split; [lia|exact Hk]]|]. done.
Qed.

Lemma kerbs_at_near l l' p q p' q' :
  kerbs_at l p q → kerbs_at l' p' q' →
  -1 ≤ p - p' ≤ 1 → -1 ≤ q - q' ≤ 1 → kerbs_near l l'.
Proof.
  intros (Hp & Hq & Hk) (Hp' & Hq' & Hk') Hpp Hqq j a Hj Ha.
  apply (Hk j a Hj) in Ha as [Ha|Ha].
  - destruct (lookup_lt_is_Some_2 l' (Z.to_nat p')) as [a' Ha']; [lia|].
    exists (Z.to_nat p'), a'. split; [done|]. split; [|lia].
    apply (Hk' _ _ Ha'). lia.
  - destruct (lookup_lt_is_Some_2 l' (Z.to_nat q')) as [a' Ha']; [lia|].
    exists (Z.to_nat q'), a'. split; [done|]. split; [|lia].
    apply (Hk' _ _ Ha'). lia.
Qed.

(** X10. The kerbs of a generated track are continuous: every kerb of
    a line has a kerb of the line below, and of the line above, in its
    own column or in one next to it. *)
Theorem generated_kerbs_are_continuous st rnd seed0 (c : track.t) s :
  track.track st rnd seed0 = Ok (c, s) →
  ∀ (i : nat) row row', c !! i = Some row → c !! S i = Some row' →
    kerbs_near row row' ∧ kerbs_near row' row.
Proof.
  intros H.
  apply track_generate in H as (k & rolls & H & _).
  apply generate_Ok in H as (Hl & Hle & H).
  set (L := Z.to_nat (settings.race_length st)) in *.
  apply (lines_inv st rnd (λ n c k,
    direction (track.borders_directions k).1 ∧
    direction (track.borders_directions k).2 ∧
    length c = L ∧
    (∀ row, c !! n = Some row →
            kerbs_at row (track.borders k).1 (track.borders k).2) ∧
    (∀ (i : nat) row row', (n ≤ i)%nat →
       c !! i = Some row → c !! S i = Some row' →
       kerbs_near row row' ∧ kerbs_near row' row))) in H.
  - destruct H as (_ & _ & _ & _ & Hnear).
    intros i row row'. apply Hnear. lia.
  - clear. intros n c k l l' k' r (Hd0 & Hd1 & Hlen & Hat & Hnear) Hl Hline.
    apply line_kerbs_at in Hline as (Hat' & Hb0 & Hb1 & Hd0' & Hd1' & _);
      [|lia|done..].
    pose proof (lookup_lt_Some _ _ _ Hl) as Hn.
    split; [done|]. split; [done|]. split; [by rewrite length_insert|].
    split.
    + intros row. rewrite list_lookup_insert_eq by done. by intros [= <-].
    + intros i row row' Hi Hrow Hrow'.
      rewrite list_lookup_insert_ne in Hrow' by lia.
      destruct (decide (i = n)) as [->|Hne].
      * rewrite list_lookup_insert_eq in Hrow by done. injection Hrow as <-.
        specialize (Hat row' Hrow'). unfold direction in *.
        split; eapply kerbs_at_near; try done; lia.
      * rewrite list_lookup_insert_ne in Hrow by done.
        apply (Hnear i); [lia|done..].
  - cbn [track.borders_directions fst snd]. unfold direction.
    split; [lia|]. split; [lia|]. split; [by rewrite length_replicate|].
    split.
    + intros row Hrow. apply lookup_lt_Some in Hrow.
      rewrite length_replicate in Hrow. lia.
    + intros i row row' Hi _ Hrow'. apply lookup_lt_Some in Hrow'.
      rewrite length_replicate in Hrow'. lia.
Qed.

(** The cells of a line as the body of the loop leaves them: the two
    kerbs, at most one rock, the distance meter in column 0 and blanks
    everywhere else. *)
Lemma line_cells st rnd i l k l' k' r :
  0 ≤ i →
  direction (track.borders_directions k).1 →
  direction (track.borders_directions k).2 →
  track.line st rnd i l k = Ok (l', k', r) →
  let b0 := (track.borders k).1 + (track.borders_directions k).1 in
  let b1 := (track.borders k).2 + (track.borders_directions k).2 in
  ∃ rock : option nat,
    ((settings.rock_chance st <= 0)%Q → rock = None) ∧
    ∀ (j : nat) a, l' !! j = Some a →
      if decide (Z.of_nat j = b0 ∨ Z.of_nat j = b1) then is_kerb a = true
      else if decide (rock = Some j) then a = "*"%char
      else if decide (j = O) then a = track.distance_meter i
      else a = " "%char.
Proof.
  intros Hi Hd0 Hd1 H b0 b1. unfold track.line in H.
  apply bind_Ok in H as (l1 & H1 & H).
  pose proof (drand_zero_chance rnd (track.seed k) (settings.rock_chance st))
    as Hzero.
  destruct (drand rnd (track.seed k)) as [u s1]. cbn [fst] in Hzero.
  apply bind_Ok in H as ([l2 s2] & H2 & H).
  apply bind_Ok in H as (l3 & H3 & H).
  apply bind_Ok in H as (l4 & H4 & H).
  destruct (track.turn _ _ _ 5 (track.borders_directions k).1 _ s2)
    as [[t0 r0] s3].
  destruct (track.turn _ _ _ 5 (track.borders_directions k).2 _ s3)
    as [[t1 r1] s4].
  injection H as <- _ _. fold b0 in H3. fold b1 in H4.
  apply vec_put_Ok in H1 as [Hn1 ->]. rewrite length_replicate in Hn1.
  destruct (kerb_char_Some _ Hd0) as (a0 & Ha0 & Hk0).
  destruct (kerb_char_Some _ Hd1) as (a1 & Ha1 & Hk1).
  unfold track.draw_kerb in H3, H4. rewrite Ha0 in H3. rewrite Ha1 in H4.
  apply vec_put_Ok in H3 as [Hb0 ->].
  apply vec_put_Ok in H4 as [Hb1 ->].
  rewrite length_insert in Hb1.
  assert (∃ rock : option nat,
    ((settings.rock_chance st <= 0)%Q → rock = None) ∧
    length l2 = length l ∧
    ∀ (j : nat) a, l2 !! j = Some a →
      if decide (rock = Some j) then a = "*"%char
      else if decide (j = O) then a = track.distance_meter i
      else a = " "%char) as (rock & Hnone & Hlen2 & Hl2).
  { assert (∀ (j : nat) a,
      <[Z.to_nat 0 := track.distance_meter i]> (replicate (length l) " "%char)
        !! j = Some a →
      if decide (j = O) then a = track.distance_meter i else a = " "%char)
      as Hbg.
    { intros j a Hj. destruct (decide (j = O)) as [->|Hz].
      - rewrite list_lookup_insert_eq in Hj
          by (rewrite length_replicate; lia). by injection Hj as <-.
      - rewrite list_lookup_insert_ne in Hj by (change (Z.to_nat 0) with O; lia).
        by apply lookup_replicate in Hj as [-> _]. }
    destruct (Qltb u (settings.rock_chance st)) eqn:Hu.
    - destruct (rand rnd s1) as [rr s]. case_bool_decide; [done|].
      apply bind_Ok in H2 as (l2' & Hput & [= <- <-]).
      apply vec_put_Ok in Hput as [Hrr ->].
      exists (Some (Z.to_nat (Z.rem rr (settings.race_width st)))).
      split; [intros Hc; specialize (Hzero Hc); congruence|].
      split; [by rewrite !length_insert, length_replicate|].
      intros j a Hj.
      destruct (decide (Some (Z.to_nat (Z.rem rr (settings.race_width st)))
                        = Some j)) as [Hr|Hr].
      + injection Hr as <-. rewrite list_lookup_insert_eq in Hj by lia.
        by injection Hj as <-.
      + rewrite list_lookup_insert_ne in Hj by congruence. by apply Hbg.
    - injection H2 as <- <-. exists None. split; [done|].
      split; [by rewrite length_insert, length_replicate|].
      intros j a Hj. rewrite decide_False by done. by apply Hbg. }
  exists rock. split; [done|]. intros j a Hj.
  destruct (decide (j = Z.to_nat b1)) as [->|Hn1'].
  - rewrite list_lookup_insert_eq in Hj by (rewrite length_insert; lia).
    injection Hj as <-. rewrite decide_True by lia. done.
  - rewrite list_lookup_insert_ne in Hj by done.
    destruct (decide (j = Z.to_nat b0)) as [->|Hn0'].
    + rewrite list_lookup_insert_eq in Hj by lia.
      injection Hj as <-. rewrite decide_True by lia. done.
    + rewrite list_lookup_insert_ne in Hj by done.
      rewrite decide_False by lia. by apply Hl2.
Qed.

Lemma distance_meter_no_rock i : 0 ≤ i → track.distance_meter i ≠ "*"%char.
Proof.
  intros Hi. unfold track.distance_meter.
  pose proof (Z.rem_bound_pos i 10 Hi) as Hr.
  assert (Z.rem i 10 ∈ seqZ 0 10) as Hin by (apply elem_of_seqZ; lia).
  revert Hin. generalize (Z.rem i 10). intros z Hin.
  vm_compute in Hin.
  repeat (apply elem_of_cons in Hin as [->|Hin]; [by vm_compute|]).
  by apply elem_of_nil in Hin.
Qed.

(** X11. A generated track has [race_length] lines of [race_width]
    cells, and every cell holds a character of the terrain: a blank, a
    digit of the distance meter, a rock or a kerb. *)
Theorem generated_track_has_its_size st rnd seed0 (c : track.t) s :
  track.track st rnd seed0 = Ok (c, s) →
  length c = Z.to_nat (settings.race_length st) ∧
  Forall (λ row, length row = Z.to_nat (settings.race_width st) ∧
                 Forall (λ a, a ∈ terrain) row) c.
Proof.
  intros H.
  apply track_generate in H as (k & rolls & H & _).
  apply generate_Ok in H as (Hl & Hle & H).
  apply (lines_ind st rnd (Z.to_nat (settings.race_width st))
           (λ _ row, length row = Z.to_nat (settings.race_width st) ∧
                     Forall (λ a, a ∈ terrain) row) (λ _, True)) in H.
  - destruct H as (Hlen & _ & _ & Hrows).
    rewrite length_replicate in Hlen. split; [done|].
    apply Forall_lookup. intros i row Hrow. apply (Hrows i); [|done].
    apply lookup_lt_Some in Hrow. lia.
  - intros j l k0 l' k0' r Hj _ Hlj Hline.
    apply line_terrain in Hline as [? ?]; [|done].
    split; [|split; [done|congruence]]. split; [congruence|done].
  - done.
  - apply Forall_replicate. by rewrite length_replicate.
Qed.

Lemma generated_track_has_its_size_witness :
  ∃ (c : track.t) s,
    track.track short_race narrowing 0 = Ok (c, s) ∧ length c = 4%nat ∧
    Forall (λ row, length row = 20%nat ∧ Forall (λ a, a ∈ terrain) row) c.
Proof.
  compute_result (track.track short_race narrowing 0)
    ltac:(fun v => match v with Ok (?c, ?s) => exists c, s end).
  match goal with |- _ = Ok (?c, ?s) ∧ _ =>
    pose proof (generated_track_has_its_size short_race narrowing 0 c s)
      as Hsize end.
  split; [by vm_compute|]. apply Hsize. by vm_compute.
Defined.

Lemma generated_kerbs_are_continuous_witness :
  ∃ (c : track.t) s row row',
    track.track short_race narrowing 0 = Ok (c, s) ∧
    c !! 1%nat = Some row ∧ c !! 2%nat = Some row' ∧
    kerbs_near row row' ∧ kerbs_near row' row.
Proof.
  compute_result (track.track short_race narrowing 0)
    ltac:(fun v => match v with Ok (?c, ?s) => exists c, s end).
  eexists _, _. split; [by vm_compute|].
  split; [by vm_compute|]. split; [by vm_compute|].
  apply (generated_kerbs_are_continuous short_race narrowing 0 _ _
           ltac:(by vm_compute) 1%nat); by vm_compute.
Defined.

(** X12. When the kerbs start inside the grid (a minimal width of at
    least 2 and at least 4 below the width of the race), no kerb of a
    generated track is in column 0 or outside the grid, and column 0 of
    every line shows the last digit of the number of the line, unless a
    rock fell on it. *)
Theorem kerbs_spare_the_distance_meter st rnd seed0 (c : track.t) s :
  2 ≤ settings.minimal_width st →
  settings.minimal_width st + 4 ≤ settings.race_width st →
  track.track st rnd seed0 = Ok (c, s) →
  ∀ (i : nat) row, c !! i = Some row →
    (∀ (j : nat) a, row !! j = Some a → is_kerb a = true →
       1 ≤ Z.of_nat j ≤ settings.race_width st - 1) ∧
    (row !! O = Some (track.distance_meter (Z.of_nat i)) ∨
     row !! O = Some "*"%char).
Proof.
  intros Hmw Hw H i row Hrow.
  apply track_generate in H as (k & rolls & H & _).
  apply generate_Ok in H as (Hl & Hle & H).
  apply (lines_ind st rnd (Z.to_nat (settings.race_width st))
    (λ i row,
       (∀ (j : nat) a, row !! j = Some a → is_kerb a = true →
          1 ≤ Z.of_nat j ≤ settings.race_width st - 1) ∧
       (row !! O = Some (track.distance_meter i) ∨
        row !! O = Some "*"%char))
    (kerbs_inside st)) in H.
  - destruct H as (Hlen & _ & _ & Hrows).
    apply (Hrows i); [|done].
    apply lookup_lt_Some in Hrow.
    rewrite Hlen, length_replicate in Hrow. done.
  - clear i row Hrow. intros i l k0 l' k0' r Hi Hk0 Hlen Hline.
    destruct (line_total st rnd i l k0) as (l'' & k'' & r'' & Heq & Hin & _);
      [done|done|lia|done|].
    rewrite Heq in Hline. injection Hline as -> -> ->.
    destruct Hk0 as ((Hd0 & Hd1 & Hap) & Hb0 & Hb1).
    pose proof (line_cells st rnd i l k0 l' k0' r Hi Hd0 Hd1 Heq)
      as (rock & _ & Hcells). cbn zeta in Hcells.
    apply line_spec in Heq as (_ & Hlen' & Hr0 & Hr1 & Hkerbs & _);
      [|done..].
    cbn zeta in Hr0, Hr1, Hkerbs.
    split; [split|split; [done|congruence]].
    + intros j a Hj Ha. apply (Hkerbs j a Hj) in Ha. lia.
    + destruct (lookup_lt_is_Some_2 l' O) as [a Ha]; [lia|].
      specialize (Hcells O a Ha). rewrite decide_False in Hcells by lia.
      rewrite Ha. destruct (decide (rock = Some O)); [right|left];
        by rewrite Hcells.
  - set (w := settings.race_width st) in *.
    set (m := settings.minimal_width st) in *.
    unfold kerbs_inside, kerbs_apart, direction.
    cbn [track.borders track.borders_directions fst snd].
    pose proof (initial_kerbs_apart w m).
    rewrite !Z.quot_div_nonneg in * by lia.
    pose proof (Z.div_mod (w * 3 + m) 4). pose proof (Z.div_mod (w - m) 4).
    pose proof (Z.mod_pos_bound (w * 3 + m) 4).
    pose proof (Z.mod_pos_bound (w - m) 4). lia.
  - apply Forall_replicate. by rewrite length_replicate.
Qed.

Lemma kerbs_spare_the_distance_meter_witness :
  ∃ (c : track.t) s row,
    track.track short_race narrowing 0 = Ok (c, s) ∧
    c !! 3%nat = Some row ∧ row !! O = Some "3"%char.
Proof.
  compute_result (track.track short_race narrowing 0)
    ltac:(fun v => match v with Ok (?c, ?s) => exists c, s end).
  eexists. split; [by vm_compute|]. split; [by vm_compute|].
  match goal with |- ?row !! O = _ =>
    destruct (kerbs_spare_the_distance_meter short_race narrowing 0 _ _
                ltac:(by vm_compute) ltac:(by vm_compute)
                ltac:(by vm_compute) 3%nat row) as [_ [Hm|Hm]];
      [by vm_compute|exact Hm|by vm_compute in Hm] end.
Defined.

(** X13. A line of a generated track holds at most one rock, and none
    at all when the chance of a rock is zero. *)
Theorem at_most_one_rock_per_line st rnd seed0 (c : track.t) s :
  track.track st rnd seed0 = Ok (c, s) →
  ∀ (i : nat) row, c !! i = Some row →
    (∀ (j j' : nat), row !! j = Some "*"%char → row !! j' = Some "*"%char →
                     j = j') ∧
    ((settings.rock_chance st <= 0)%Q → "*"%char ∉ row).
Proof.
  intros H i row Hrow.
  apply track_generate in H as (k & rolls & H & _).
  apply generate_Ok in H as (Hl & Hle & H).
  apply (lines_ind st rnd (Z.to_nat (settings.race_width st))
    (λ _ row,
       (∀ (j j' : nat), row !! j = Some "*"%char →
                        row !! j' = Some "*"%char → j = j') ∧
       ((settings.rock_chance st <= 0)%Q → "*"%char ∉ row))
    (λ k, direction (track.borders_directions k).1 ∧
          direction (track.borders_directions k).2)) in H.
  - destruct H as (Hlen & _ & _ & Hrows).
    apply (Hrows i); [|done].
    apply lookup_lt_Some in Hrow.
    rewrite Hlen, length_replicate in Hrow. done.
  - clear i row Hrow. intros i l k0 l' k0' r Hi [Hd0 Hd1] Hlen Hline.
    pose proof (line_cells st rnd i l k0 l' k0' r Hi Hd0 Hd1 Hline)
      as (rock & Hnone & Hcells). cbn zeta in Hcells.
    apply line_spec in Hline as (_ & Hlen' & _ & _ & _ & Hd0' & Hd1' & _);
      [|done..].
    assert (∀ j : nat, l' !! j = Some "*"%char → rock = Some j) as Hrock.
    { intros j Hj. specialize (Hcells j _ Hj).
      case_decide; [done|]. case_decide; [done|].
      case_decide; [|done]. symmetry in Hcells.
      by apply distance_meter_no_rock in Hcells. }
    split; [split|split; [done|congruence]].
    + intros j j' Hj Hj'. apply Hrock in Hj, Hj'. congruence.
    + intros Hc Hin. apply list_elem_of_lookup in Hin as [j Hj].
      apply Hrock in Hj. rewrite (Hnone Hc) in Hj. done.
  - cbn [track.borders_directions fst snd]. unfold direction. lia.
  - apply Forall_replicate. by rewrite length_replicate.
Qed.

Lemma at_most_one_rock_per_line_witness :
  ∃ (c : track.t) s row,
    track.track short_race (constantly 0) 0 = Ok (c, s) ∧
    c !! 3%nat = Some row ∧ row !! O = Some "*"%char ∧
    ∀ j : nat, row !! j = Some "*"%char → j = O.
Proof.
  compute_result (track.track short_race (constantly 0) 0)
    ltac:(fun v => match v with Ok (?c, ?s) => exists c, s end).
  eexists. split; [by vm_compute|]. split; [by vm_compute|].
  split; [by vm_compute|].
  intros j Hj.
  match type of Hj with ?row !! _ = _ =>
    destruct (at_most_one_rock_per_line short_race (constantly 0) 0 _ _
                ltac:(by vm_compute) 3%nat row) as [Hone _];
      [by vm_compute|] end.
  apply (Hone j O Hj). by vm_compute.
Defined.

(** ** The ticks of a game *)

(** A tick is made of the keys, the marks and the ticks of the players
    that are alive: once the keys are read, it keeps what each of the
    other steps keeps. *)
Lemma tick_after_keys st (Inv : game.t → Prop) g keys g' continues log :
  (∀ g1, foldM (game.key st) (game.with_time g (game.time g + 1)) keys
         = Ok g1 → Inv g1) →
  (settings.shared_track st = true → ∀ i g g',
     (i < Z.to_nat (settings.players st))%nat →
     Inv g → game.mark_position st i g = Ok g' → Inv g') →
  (settings.shared_track st = true → ∀ i g g',
     (i < Z.to_nat (settings.players st))%nat →
     Inv g → game.unmark_position st i g = Ok g' → Inv g') →
  (∀ i g b l g' b' l',
     (i < Z.to_nat (settings.players st))%nat →
     Inv g → game.alive g !! i = Some true →
     game.player_tick st i (g, b, l) = Ok (g', b', l') → Inv g') →
  game.tick st g keys = Ok (g', continues, log) → Inv g'.
Proof.
  intros Hkeys' Hmark Hunmark Htick H. unfold game.tick in H.
  set (n := Z.to_nat (settings.players st)) in *.
  apply bind_Ok in H as (g1 & Hkeys & H).
  apply bind_Ok in H as ([g2 log1] & H1 & H).
  apply bind_Ok in H as ([[g3 cont] log2] & H2 & H).
  apply bind_Ok in H as ([g4 log3] & H3 & H).
  injection H as <- _ _.
  assert (Inv g1) as Hg1 by by apply Hkeys'.
  assert (Inv g2) as Hg2.
  { destruct (settings.shared_track st) eqn:Hsh; [|by injection H1 as <- _].
    apply (for_up_ind (λ _ '(ga, _), Inv ga)) in H1; [done| |done].
    intros i [ga la] [gb lb] Hi Ha Hb. cbn in Hb.
    apply bind_Ok in Hb as (a & _ & Hb). destruct a.
    - apply bind_Ok in Hb as (gm & Hm & [= <- _]).
      eapply Hmark; [done| |done..]. lia.
    - by injection Hb as <- _. }
  assert (Inv g3) as Hg3.
  { apply (for_up_ind (λ _ '(ga, _, _), Inv ga)) in H2; [done| |done].
    intros i [[ga ba] la] [[gb bb] lb] Hi Ha Hb. cbn in Hb.
    apply bind_Ok in Hb as (a & Hal & Hb).
    apply arr_get_Ok in Hal as [_ Hal].
    apply vec_get_Ok in Hal as [_ Hal].
    rewrite Nat2Z.id in Hal.
    destruct a; [|by injection Hb as <- _ _].
    destruct (settings.shared_track st) eqn:Hsh.
    - apply bind_Ok in Hb as (gu & Hu & Hb).
      apply bind_Ok in Hb as ([[gt bt] lt] & Ht & Hb).
      apply bind_Ok in Hb as (gm & Hm & [= <- _ _]).
      eapply Hmark; [done| | |done]; [lia|].
      eapply Htick; [| | |done]; [lia| |].
      + eapply Hunmark; [done| |done..]. lia.
      + apply unmark_position_Ok in Hu as (? & ? & ? & _ & _ & _ & ->).
        done.
    - eapply Htick; [| | |done]; [lia|done..]. }
  destruct (settings.shared_track st) eqn:Hsh; [|by injection H3 as <- _].
  apply (for_up_ind (λ _ '(ga, _), Inv ga)) in H3; [done| |done].
  intros i [ga la] [gb lb] Hi Ha Hb. cbn in Hb.
  apply bind_Ok in Hb as (gu & Hu & [= <- _]).
  eapply Hunmark; [done| |done..]. lia.
Qed.

Lemma tick_inv st (Inv : game.t → Prop) g keys g' continues log :
  (∀ g key g', Inv g → game.key st g key = Ok g' → Inv g') →
  (settings.shared_track st = true → ∀ i g g',
     Inv g → game.mark_position st i g = Ok g' → Inv g') →
  (settings.shared_track st = true → ∀ i g g',
     Inv g → game.unmark_position st i g = Ok g' → Inv g') →
  (∀ i g b l g' b' l',
     Inv g → game.alive g !! i = Some true →
     game.player_tick st i (g, b, l) = Ok (g', b', l') → Inv g') →
  Inv (game.with_time g (game.time g + 1)) →
  game.tick st g keys = Ok (g', continues, log) → Inv g'.
Proof.
  intros Hkey Hmark Hunmark Htick H0.
  apply tick_after_keys.
  - intros g1. apply foldM_ind; [|done]. intros key ga gb _. apply Hkey.
  - intros Hsh i ga gb _. by apply Hmark.
  - intros Hsh i ga gb _. by apply Hunmark.
  - intros i ga b l gb b' l' _. apply Htick.
Qed.

(** What a key does to a game: the players read it, and the escape key
    kills the first [players] of them. *)
Lemma key_run st g key g' :
  game.key st g key = Ok g' →
  game.time g' = game.time g ∧ game.tracks g' = game.tracks g ∧
  length (game.alive g') = length (game.alive g) ∧
  length (game.players g') = length (game.players g) ∧
  (∀ i, game.alive g' !! i =
        if bool_decide (key = KEY_ESC ∧
                        (i < Z.to_nat (settings.players st))%nat ∧
                        (i < length (game.alive g))%nat)
        then Some false else game.alive g !! i) ∧
  (∀ i, game.players g' !! i =
        if bool_decide (i < Z.to_nat (settings.players st))%nat
        then (λ p, player_handler.parse_input p key) <$> game.players g !! i
        else game.players g !! i).
Proof.
  unfold game.key. intros H.
  set (n := Z.to_nat (settings.players st)) in *.
  apply bind_Ok in H as (g1 & H1 & H2).
  assert (game.time g1 = game.time g ∧ game.tracks g1 = game.tracks g ∧
          game.players g1 = game.players g ∧
          length (game.alive g1) = length (game.alive g) ∧
          ∀ i, game.alive g1 !! i =
               if bool_decide (key = KEY_ESC ∧ (i < n)%nat
                               ∧ (i < length (game.alive g))%nat)
               then Some false else game.alive g !! i)
    as (Ht1 & Htr1 & Hp1 & Hl1 & Ha1).
  { case_bool_decide as Hesc.
    - apply (for_up_ind (λ m g1,
        game.time g1 = game.time g ∧ game.tracks g1 = game.tracks g ∧
        game.players g1 = game.players g ∧
        length (game.alive g1) = length (game.alive g) ∧
        ∀ i, game.alive g1 !! i =
             if bool_decide ((i < m)%nat ∧ (i < length (game.alive g))%nat)
             then Some false else game.alive g !! i)) in H1.
      + destruct H1 as (? & ? & ? & ? & Ha). repeat split; try done.
        intros i. rewrite Ha. simpl.
        destruct (decide ((i < n)%nat ∧ (i < length (game.alive g))%nat)).
        * by rewrite !bool_decide_true.
        * rewrite !bool_decide_false; [done|tauto|done].
      + intros m a b _ (? & ? & ? & Hl & Ha) Hb.
        apply bind_Ok in Hb as (al & Hput & [= <-]).
        apply arr_put_Ok in Hput as [_ Hput].
        apply vec_put_Ok in Hput as [Hm ->].
        cbn. rewrite Nat2Z.id.
        repeat split; try done; [by rewrite length_insert|].
        intros i. destruct (decide (i = m)) as [->|Hne].
        * rewrite list_lookup_insert_eq by lia.
          rewrite bool_decide_true; [done|lia].
        * rewrite list_lookup_insert_ne by done. rewrite Ha.
          destruct (decide ((i < m)%nat ∧ (i < length (game.alive g))%nat)).
          -- rewrite !bool_decide_true; [done|lia|done].
          -- rewrite !bool_decide_false; [done|lia|done].
      + repeat split; try done.
        all: intros i; rewrite bool_decide_false; [done|lia].
    - injection H1 as <-. repeat split; try done. intros i.
      rewrite bool_decide_false; [done|tauto]. }
  apply (for_up_ind (λ m g2,
    game.time g2 = game.time g ∧ game.tracks g2 = game.tracks g ∧
    game.alive g2 = game.alive g1 ∧
    length (game.players g2) = length (game.players g) ∧
    ∀ i, game.players g2 !! i =
         if bool_decide (i < m)%nat
         then (λ p, player_handler.parse_input p key) <$> game.players g !! i
         else game.players g !! i)) in H2.
  - destruct H2 as (? & ? & Hal & ? & Hp). rewrite Hal.
    repeat split; done.
  - intros m a b _ (? & ? & ? & Hl & Hp) Hb.
    apply bind_Ok in Hb as (p & Hget & Hb).
    apply bind_Ok in Hb as (ps & Hput & [= <-]).
    apply arr_get_Ok in Hget as [_ Hget].
    apply vec_get_Ok in Hget as [_ Hget].
    apply arr_put_Ok in Hput as [_ Hput].
    apply vec_put_Ok in Hput as [Hm ->].
    cbn. rewrite Nat2Z.id in *.
    repeat split; try done; [by rewrite length_insert|].
    intros i. destruct (decide (i = m)) as [->|Hne].
    + rewrite list_lookup_insert_eq by lia.
      rewrite bool_decide_true by lia.
      rewrite Hp, bool_decide_false in Hget by lia. by rewrite Hget.
    + rewrite list_lookup_insert_ne by done. rewrite Hp.
      destruct (decide (i < m)%nat).
      * rewrite !bool_decide_true; [done|lia|done].
      * rewrite !bool_decide_false; [done|lia|done].
  - rewrite Ht1, Htr1, Hp1. repeat split; try done.
Qed.

(** *** The players on the track, lengthwise *)

Lemma parse_input_on_track st p key :
  on_track st p → on_track st (player_handler.parse_input p key).
Proof.
  unfold on_track, player_handler.parse_input, ACCELERATE, BRAKE.
  destruct (player_handler.controls p) as [[[??]?]?]. cbn.
  repeat case_bool_decide; lia.
Qed.

Lemma tick_Ok st (c : track.t) p time p' survives log :
  player_handler.tick st c p time = Ok (p', survives, log) →
  p' = p ∧ survives = true ∨ p' = player_handler.moved st p time.
Proof.
  unfold player_handler.tick, player_handler.move. intros H.
  apply bind_Ok in H as (go & _ & H). destruct go.
  - right. case_bool_decide.
    + by injection H as <- _ _.
    + apply bind_Ok in H as (shown & _ & H).
      apply bind_Ok in H as ([sv scan] & _ & H). by injection H as <- _ _.
  - left. by injection H as <- <- _.
Qed.

Lemma moved_on_track st p time :
  on_track st p → on_track st (player_handler.moved st p time).
Proof. unfold on_track, player_handler.moved. cbn. lia. Qed.

Lemma tick_on_track st (c : track.t) p time p' survives log :
  on_track st p →
  player_handler.tick st c p time = Ok (p', survives, log) →
  on_track st p'.
Proof.
  intros Hp [[-> _]| ->]%tick_Ok; [done|]. by apply moved_on_track.
Qed.

(** A tick of the game keeps what the keys and the ticks of the
    players keep of each player. *)
Lemma tick_players st (P : player_handler.t → Prop) g keys g' continues log :
  (∀ p key, P p → P (player_handler.parse_input p key)) →
  (∀ (c : track.t) p time p' survives l,
     P p → player_handler.tick st c p time = Ok (p', survives, l) → P p') →
  Forall P (game.players g) →
  game.tick st g keys = Ok (g', continues, log) →
  Forall P (game.players g').
Proof.
  intros Hparse Htick Hg.
  apply (tick_inv st (λ g, Forall P (game.players g))); [| | | |done].
  - intros ga key gb Ha Hkey.
    destruct (key_run st ga key gb Hkey) as (_ & _ & _ & _ & _ & Hps).
    apply Forall_lookup. intros i p Hp. rewrite Hps in Hp.
    rewrite Forall_lookup in Ha. case_bool_decide; [|by eapply Ha].
    destruct (game.players ga !! i) as [q|] eqn:Hq; [|done].
    injection Hp as <-. apply Hparse. by eapply Ha.
  - intros _ i ga gb Ha Hm.
    apply mark_position_Ok in Hm as (? & ? & ? & _ & _ & _ & ->). done.
  - intros _ i ga gb Ha Hm.
    apply unmark_position_Ok in Hm as (? & ? & ? & _ & _ & _ & ->). done.
  - intros i ga b l gb b' l' Ha _ Hrun.
    apply player_tick_run in Hrun
      as (p & c & p' & sv & l0 & Hp & _ & Hrun & -> & _).
    cbn. apply Forall_insert; [done|]. eapply Htick; [|done].
    rewrite Forall_lookup in Ha. by eapply Ha.
Qed.

(** *** The game that the constructor makes *)

(** The loop that sets [alive]: it stays inside the array for at most
    [MAX_PLAYERS] players. *)
Lemma alive_Ok (n : nat) al :
  for_up n 0 (λ i (alive : list bool), arr_new alive (Z.of_nat i) true) []
  = Ok al →
  al = replicate n true ∧ Z.of_nat n ≤ MAX_PLAYERS.
Proof.
  intros H.
  apply (for_up_ind (λ m al, al = replicate m true ∧ Z.of_nat m ≤ MAX_PLAYERS))
    in H; [done| |by unfold MAX_PLAYERS].
  intros m a b _ [-> Hm] [Hlt ->]%arr_new_Ok.
  split; [|lia].
  replace (S m) with (m + 1)%nat by lia. by rewrite replicate_add.
Qed.

Lemma game_Ok st0 stdscr has_colors rnd seed0 st g s :
  game.game st0 stdscr has_colors rnd seed0 = Ok (st, g, s) →
  st = adjust st0 stdscr ∧
  game.time g = 0 ∧
  game.alive g = replicate (Z.to_nat (settings.players st0)) true ∧
  length (game.players g) = Z.to_nat (settings.players st0) ∧
  length (game.tracks g)
  = (if settings.shared_track st || settings.similar_track st
     then 1%nat else Z.to_nat (settings.players st0)) ∧
  (∀ (i : nat) p, game.players g !! i = Some p →
     player_handler.player_handler st stdscr (Z.of_nat i)
       (if settings.shared_track st || settings.similar_track st
        then O else i) = Ok p) ∧
  (∀ c : track.t, c ∈ game.tracks g →
     ∃ s0 s1, track.track st rnd s0 = Ok (c, s1)).
Proof.
  unfold game.game. intros H.
  set (n := Z.to_nat (settings.players st0)) in *.
  destruct has_colors; [cbn [negb] in H|done].
  apply bind_Ok in H as (st1 & Hst1 & H).
  apply bind_Ok in H as ([[ts ps] s'] & Hmake & H).
  apply bind_Ok in H as (al & [-> _]%alive_Ok & [= <- <- <-]).
  assert ((if bool_decide (settings.minimal_width st1 = 0)
           then settings.with_minimal_width st1 (MINIMAL_WIDTH st1)
           else st1) = adjust st0 stdscr) as Hadj.
  { unfold adjust. cbn zeta.
    destruct (bool_decide (settings.race_width st0 = 0));
      [|by injection Hst1 as <-].
    destruct (settings.vertical_split st0); [|by injection Hst1 as <-].
    destruct (bool_decide (settings.players st0 = 0)); [done|].
    by injection Hst1 as <-. }
  rewrite Hadj in *. clear Hst1 Hadj st1.
  set (st := adjust st0 stdscr) in *.
  cbn [game.time game.alive game.players game.tracks].
  split; [done|]. split; [done|]. split; [done|].
  destruct (settings.shared_track st || settings.similar_track st).
  - apply bind_Ok in Hmake as ([c s1] & Htrack & Hmake).
    apply bind_Ok in Hmake as (ps' & Hps & [= <- <- <-]).
    apply (for_up_ind (λ m ps,
      length ps = m ∧
      ∀ (i : nat) p, ps !! i = Some p →
        player_handler.player_handler st stdscr (Z.of_nat i) O = Ok p))
      in Hps.
    + destruct Hps as [Hlen Hps]. split; [done|]. split; [done|].
      split; [done|]. intros c' ->%list_elem_of_singleton. eauto.
    + intros m a b _ [Hlen Ha] Hb.
      apply bind_Ok in Hb as (p & Hp & [_ ->]%arr_new_Ok).
      split; [rewrite length_app; simpl; lia|].
      intros i q Hq. apply lookup_app_Some in Hq as [Hq|[Hi Hq]].
      * by apply Ha.
      * apply list_lookup_singleton_Some in Hq as [Hq <-].
        replace i with m by lia. done.
    + split; [done|]. by intros i p ?.
  - apply (for_up_ind (λ m '(ts, ps, _),
      length ps = m ∧ length ts = m ∧
      (∀ (i : nat) p, ps !! i = Some p →
        player_handler.player_handler st stdscr (Z.of_nat i) i = Ok p) ∧
      (∀ c : track.t, c ∈ ts → ∃ s0 s1, track.track st rnd s0 = Ok (c, s1))))
      in Hmake.
    + cbn in Hmake. by destruct Hmake as (? & ? & ? & ?).
    + intros m [[ta pa] sa] [[tb pb] sb] _ (Hlp & Hlt & Ha & Hta) Hb.
      cbn in Hb.
      apply bind_Ok in Hb as ([c s1] & Htrack & Hb).
      apply bind_Ok in Hb as (p & Hp & Hb).
      apply bind_Ok in Hb as (ps1 & [_ ->]%arr_new_Ok & [= <- <- <-]).
      split; [rewrite length_app; simpl; lia|].
      split; [rewrite length_app; simpl; lia|]. split.
      * intros i q Hq. apply lookup_app_Some in Hq as [Hq|[Hi Hq]].
        -- by apply Ha.
        -- apply list_lookup_singleton_Some in Hq as [Hq <-].
           replace i with m by lia. by rewrite Hlt in Hp.
      * intros c' [Hc| ->%list_elem_of_singleton]%elem_of_app;
          [by apply Hta|eauto].
    + cbn. split; [done|]. split; [done|]. split; [by intros i p ?|].
      by intros c ?%elem_of_nil.
Qed.

(** The constructor completes only on a terminal with colours and for
    no more players than the arrays of the game hold. *)
Lemma game_Ok_bounds st0 stdscr has_colors rnd seed0 st g s :
  game.game st0 stdscr has_colors rnd seed0 = Ok (st, g, s) →
  has_colors = true ∧ settings.players st0 ≤ MAX_PLAYERS.
Proof.
  unfold game.game. intros H.
  destruct has_colors; [cbn [negb] in H|done]. split; [done|].
  apply bind_Ok in H as (st1 & _ & H).
  apply bind_Ok in H as ([[ts ps] s'] & _ & H).
  apply bind_Ok in H as (al & [_ Hn]%alive_Ok & _). lia.
Qed.

Lemma adjust_fields st stdscr :
  settings.vertical_split (adjust st stdscr) = settings.vertical_split st ∧
  settings.similar_track (adjust st stdscr) = settings.similar_track st ∧
  settings.shared_track (adjust st stdscr) = settings.shared_track st ∧
  settings.race_length (adjust st stdscr) = settings.race_length st ∧
  settings.players (adjust st stdscr) = settings.players st ∧
  settings.character (adjust st stdscr) = settings.character st ∧
  settings.car_size (adjust st stdscr) = settings.car_size st ∧
  settings.speed_base (adjust st stdscr) = settings.speed_base st ∧
  settings.controls (adjust st stdscr) = settings.controls st.
Proof. unfold adjust. cbn zeta. by repeat case_bool_decide. Qed.

Lemma player_handler_Ok st stdscr position racecourse p :
  player_handler.player_handler st stdscr position racecourse = Ok p →
  settings.players st ≠ 0 ∧
  settings.race_width st
    ≤ (if settings.vertical_split st
       then Z.quot stdscr.2 (settings.players st) else stdscr.2) ∧
  car_image.car_image st = Ok (player_handler.car p) ∧
  player_handler.screen p
  = (window_height st stdscr,
     if settings.vertical_split st
     then Z.quot stdscr.2 (settings.players st) else stdscr.2) ∧
  player_handler.course p = racecourse ∧
  player_handler.last_move p = - INF ∧
  player_handler.y p = settings.race_length st - settings.car_size st ∧
  player_handler.x p
  = (if settings.shared_track st
     then Z.quot (settings.race_width st - (settings.car_size st + 1)
                  * (settings.players st - 2 * position)) 2
     else Z.quot (settings.race_width st) 2) ∧
  player_handler.top_line p
  = settings.race_length st - window_height st stdscr ∧
  player_handler.command_x p = 0 ∧ player_handler.command_y p = 0 ∧
  player_handler.screen_height p = stdscr.1 ∧
  vec_get (settings.controls st) position = Ok (player_handler.controls p).
Proof.
  unfold player_handler.player_handler, window_height.
  destruct stdscr as [h w]. case_bool_decide as Hn; [done|].
  case_bool_decide as Hw; [|done]. intros Hp.
  apply bind_Ok in Hp as (car & Hcar & Hp).
  apply bind_Ok in Hp as (keys & [_ Hkeys]%arr_get_Ok & [= <-]). cbn.
  repeat split; done.
Qed.

Lemma ticks_inv st (Inv : game.t → Prop) buffers : ∀ g g',
  (∀ g keys g' continues log,
     Inv g → game.tick st g keys = Ok (g', continues, log) → Inv g') →
  Inv g → ticks st g buffers = Ok g' → Inv g'.
Proof.
  induction buffers as [|keys buffers IH]; intros g g' Htick Hg H;
    simpl in H.
  - by injection H as <-.
  - apply bind_Ok in H as ([[g1 c] l] & H1 & H).
    pose proof (Htick _ _ _ _ _ Hg H1) as Hg1.
    destruct c; [by eapply IH|by injection H as <-].
Qed.

(** X14. A new game has one player for each of [players], all alive,
    at time 0, on one track when the tracks are shared or similar and
    on a track each otherwise.  The constructor completes only on a
    terminal with colours and for at most [MAX_PLAYERS] players.  Every
    player stands at the bottom of the track and of its window, with no
    command pending and its last move at [-INF]; so, for a speed base
    that is not zero and a window and a car whose heights differ by at
    most [INF], the test of [tick] lets the player move as the
    constructor made it, at time 1, the time of the first tick, and at
    any later time. *)
Theorem new_game_has_its_players st0 stdscr has_colors rnd seed0 st g s :
  game.game st0 stdscr has_colors rnd seed0 = Ok (st, g, s) →
  st = adjust st0 stdscr ∧
  has_colors = true ∧
  settings.players st0 ≤ MAX_PLAYERS ∧
  game.time g = 0 ∧
  game.alive g = replicate (Z.to_nat (settings.players st0)) true ∧
  length (game.players g) = Z.to_nat (settings.players st0) ∧
  length (game.tracks g)
  = (if settings.shared_track st0 || settings.similar_track st0
     then 1%nat else Z.to_nat (settings.players st0)) ∧
  ∀ (i : nat) p, game.players g !! i = Some p →
    player_handler.course p
    = (if settings.shared_track st0 || settings.similar_track st0
       then O else i) ∧
    (player_handler.course p < length (game.tracks g))%nat ∧
    car_image.car_image st0 = Ok (player_handler.car p) ∧
    player_handler.y p + settings.car_size st0 = settings.race_length st0 ∧
    player_handler.top_line p + window_height st0 stdscr
    = settings.race_length st0 ∧
    player_handler.command_x p = 0 ∧ player_handler.command_y p = 0 ∧
    player_handler.last_move p = - INF ∧
    (settings.speed_base st0 ≠ 0 →
     Z.abs (window_height st0 stdscr - settings.car_size st0) ≤ INF →
     ∀ time, 1 ≤ time → player_handler.may_move st p time = Ok true).
Proof.
  intros H. destruct (game_Ok_bounds _ _ _ _ _ _ _ _ H) as [Hcol Hmax].
  apply game_Ok in H as (-> & Ht & Ha & Hn & Hts & Hps & _).
  destruct (adjust_fields st0 stdscr)
    as (Hv & Hsim & Hsh & Hl & Hpl & Hch & Hcs & Hsb & _).
  rewrite Hsim, Hsh in *.
  split; [done|]. split; [done|]. split; [done|].
  split; [done|]. split; [done|]. split; [done|].
  split; [done|]. intros i p Hp.
  pose proof (lookup_lt_Some _ _ _ Hp) as Hi.
  apply Hps in Hp.
  apply player_handler_Ok in Hp
    as (_ & _ & Hcar & _ & Hc & Hlm & Hy & _ & Htop & Hcx & Hcy & _).
  unfold window_height in *. rewrite Hv, Hpl, Hl, Hcs in *.
  split; [done|]. split.
  { rewrite Hc, Hts.
    destruct (settings.shared_track st0 || settings.similar_track st0); lia. }
  split; [by rewrite car_image_sized, Hcs, Hch in Hcar|].
  split; [lia|]. split; [lia|]. split; [done|]. split; [done|].
  split; [done|]. intros Hspeed Hclose time Htime.
  unfold player_handler.may_move. rewrite Hsb.
  rewrite bool_decide_false by done. f_equal.
  apply bool_decide_eq_true. rewrite Hlm, Hy, Htop.
  set (h := if settings.vertical_split st0 then stdscr.1
            else Z.quot stdscr.1 (settings.players st0)) in *.
  replace (settings.race_length st0 - settings.car_size st0
           - (settings.race_length st0 - h))
    with (h - settings.car_size st0) by lia.
  set (d := h - settings.car_size st0) in *.
  assert (Z.abs (Z.quot d (settings.speed_base st0)) ≤ Z.abs d) as Hq.
  { rewrite <- Z.quot_abs by done.
    apply Z.quot_le_upper_bound; [lia|]. nia. }
  lia.
Qed.

Lemma new_game_has_its_players_witness :
  ∃ st g s p,
    game.game duel (4, 16) true (constantly 2147483647) 0 = Ok (st, g, s) ∧
    game.alive g = [true; true] ∧ length (game.tracks g) = 1%nat ∧
    game.players g !! 1%nat = Some p ∧
    player_handler.may_move st p 1 = Ok true.
Proof.
  compute_result (game.game duel (4, 16) true (constantly 2147483647) 0)
    ltac:(fun v => match v with Ok (?st, ?g, ?s) => exists st, g, s end).
  eexists.
  match goal with |- _ = Ok (?st, ?g, ?s) ∧ _ =>
    destruct (new_game_has_its_players duel (4, 16) true
                (constantly 2147483647) O st g s)
      as (_ & _ & _ & _ & Ha & _ & Hts & Hp);
      [by vm_compute|] end.
  split; [by vm_compute|]. split; [exact Ha|]. split; [exact Hts|].
  split; [reflexivity|].
  match goal with |- player_handler.may_move _ ?p _ = _ =>
    destruct (Hp 1%nat p) as (_ & _ & _ & _ & _ & _ & _ & _ & Hm);
      [reflexivity|] end.
  apply Hm; [done|by vm_compute|done].
Defined.

(** X15. However the players drive, their cars stay on the track
    lengthwise.  In a race started by the constructor of the game with
    cars no higher than the windows and windows no higher than the
    track, after any number of ticks every car lies on lines of the
    track: the lines that the scan of [tick] reads and that the marks
    write exist. *)
Theorem cars_stay_on_the_track_lengthwise
    st0 stdscr has_colors rnd seed0 st g s buffers g' :
  game.game st0 stdscr has_colors rnd seed0 = Ok (st, g, s) →
  settings.car_size st0 ≤ window_height st0 stdscr →
  window_height st0 stdscr ≤ settings.race_length st0 →
  ticks st g buffers = Ok g' →
  Forall (λ p, 0 ≤ player_handler.y p ∧
               player_handler.y p + settings.car_size st
               ≤ settings.race_length st) (game.players g').
Proof.
  intros Hgame Hcs Hwh Hrun.
  assert (Forall (on_track st) (game.players g')) as Hon.
  { revert Hrun.
    apply (ticks_inv st (λ g, Forall (on_track st) (game.players g))).
    - intros ga keys gb c l Ha Htick. revert Htick.
      apply (tick_players st (on_track st)); [| |done].
      + intros p key. apply parse_input_on_track.
      + intros c0 p time p' sv l0. apply tick_on_track.
    - apply game_Ok in Hgame as (-> & _ & _ & _ & _ & Hps & _).
      apply Forall_lookup. intros i p Hp. apply Hps in Hp.
      destruct (adjust_fields st0 stdscr)
        as (Hv & _ & _ & Hl & Hpl & _ & Hsz & _).
      apply player_handler_Ok in Hp
        as (_ & _ & _ & _ & _ & _ & Hy & _ & Htop & _ & Hcy & _).
      unfold on_track. unfold window_height in *.
      rewrite Hv, Hpl, Hl, Hsz in *. lia. }
  eapply Forall_impl; [done|]. unfold on_track. intros p. cbn. lia.
Qed.

Lemma cars_stay_on_the_track_lengthwise_witness :
  ∃ st g s g',
    game.game duel (4, 16) true (constantly 2147483647) 0 = Ok (st, g, s) ∧
    ticks st g [[]; [KEY_UP]; []] = Ok g' ∧
    Forall (λ p, 0 ≤ player_handler.y p ∧
                 player_handler.y p + settings.car_size st
                 ≤ settings.race_length st) (game.players g').
Proof.
  compute_result (game.game duel (4, 16) true (constantly 2147483647) 0)
    ltac:(fun v => match v with Ok (?st, ?g, ?s) => exists st, g, s end).
  match goal with |- ∃ g', _ = Ok (?st, ?g, ?s) ∧ _ =>
    pose proof (cars_stay_on_the_track_lengthwise duel (4, 16) true
                  (constantly 2147483647) O st g s [[]; [KEY_UP]; []])
      as Hstay;
    compute_result (ticks st g [[]; [KEY_UP]; []])
      ltac:(fun v => match v with Ok ?g' => exists g' end) end.
  split; [by vm_compute|]. split; [by vm_compute|].
  apply Hstay; by vm_compute.
Defined.

(** *** Who is alive *)

Lemma parse_input_place p key :
  player_handler.y (player_handler.parse_input p key) = player_handler.y p ∧
  player_handler.x (player_handler.parse_input p key) = player_handler.x p ∧
  player_handler.top_line (player_handler.parse_input p key)
  = player_handler.top_line p ∧
  player_handler.last_move (player_handler.parse_input p key)
  = player_handler.last_move p ∧
  player_handler.car (player_handler.parse_input p key)
  = player_handler.car p.
Proof.
  unfold player_handler.parse_input.
  by destruct (player_handler.controls p) as [[[??]?]?].
Qed.

(** A tick does not touch the dead: they stay dead where they are. *)
Lemma tick_alive st g keys g' continues log :
  game.tick st g keys = Ok (g', continues, log) →
  game.time g' = game.time g + 1 ∧
  length (game.alive g') = length (game.alive g) ∧
  length (game.players g') = length (game.players g) ∧
  ∀ i, game.alive g !! i = Some false →
    game.alive g' !! i = Some false ∧
    ∀ p p', game.players g !! i = Some p → game.players g' !! i = Some p' →
      player_handler.y p' = player_handler.y p ∧
      player_handler.x p' = player_handler.x p ∧
      player_handler.top_line p' = player_handler.top_line p ∧
      player_handler.last_move p' = player_handler.last_move p.
Proof.
  apply (tick_inv st (λ ga,
    game.time ga = game.time g + 1 ∧
    length (game.alive ga) = length (game.alive g) ∧
    length (game.players ga) = length (game.players g) ∧
    ∀ i, game.alive g !! i = Some false →
      game.alive ga !! i = Some false ∧
      ∀ p p', game.players g !! i = Some p → game.players ga !! i = Some p' →
        player_handler.y p' = player_handler.y p ∧
        player_handler.x p' = player_handler.x p ∧
        player_handler.top_line p' = player_handler.top_line p ∧
        player_handler.last_move p' = player_handler.last_move p)).
  - intros ga key gb (Ht & Hla & Hlp & Hdead) Hkey.
    destruct (key_run st ga key gb Hkey) as (Ht' & _ & Hla' & Hlp' & Ha & Hp).
    split; [congruence|]. split; [congruence|]. split; [congruence|].
    intros i Hi. destruct (Hdead i Hi) as [Hai Hpi]. split.
    + rewrite Ha. by case_bool_decide.
    + intros p p' Hp0 Hp'. rewrite Hp in Hp'.
      case_bool_decide; [|by apply Hpi].
      destruct (game.players ga !! i) as [q|] eqn:Hq; [|done].
      injection Hp' as <-.
      destruct (parse_input_place q key) as (-> & -> & -> & -> & _).
      by apply Hpi.
  - intros _ i ga gb Ha Hm.
    apply mark_position_Ok in Hm as (? & ? & ? & _ & _ & _ & ->). done.
  - intros _ i ga gb Ha Hm.
    apply unmark_position_Ok in Hm as (? & ? & ? & _ & _ & _ & ->). done.
  - intros i ga b l gb b' l' (Ht & Hla & Hlp & Hdead) Hlive Hrun.
    apply player_tick_run in Hrun
      as (p & c & p' & sv & l0 & Hp & _ & _ & -> & _).
    cbn. rewrite !length_insert.
    split; [done|]. split; [done|]. split; [done|].
    intros j Hj. destruct (Hdead j Hj) as [Haj Hpj].
    assert (j ≠ i) as Hne by (intros ->; congruence).
    rewrite !list_lookup_insert_ne by done. done.
  - cbn. repeat split; try done. all: congruence.
Qed.

(** The value of a tick: whether one of the players is alive after
    it; a tick that returns false shows the message last. *)
Lemma tick_continues st g keys g' continues log :
  game.tick st g keys = Ok (g', continues, log) →
  (continues = true ↔
   ∃ i, (i < Z.to_nat (settings.players st))%nat ∧
        game.alive g' !! i = Some true) ∧
  (continues = false → ∃ l, log = l ++ [Message (game.time g')]).
Proof.
  intros H. unfold game.tick in H.
  set (n := Z.to_nat (settings.players st)) in *.
  apply bind_Ok in H as (g1 & Hkeys & H).
  apply bind_Ok in H as ([g2 log1] & H1 & H).
  apply bind_Ok in H as ([[g3 cont] log2] & H2 & H).
  apply bind_Ok in H as ([g4 log3] & H3 & H).
  injection H as <- <- <-.
  assert (game.alive g4 = game.alive g3) as Ha4.
  { destruct (settings.shared_track st); [|by injection H3 as <- _].
    apply (for_up_ind (λ _ '(ga, _), game.alive ga = game.alive g3)) in H3;
      [done| |done].
    intros i [ga la] [gb lb] _ Ha Hb. cbn in Hb.
    apply bind_Ok in Hb as (gu & Hu & [= <- _]).
    apply unmark_position_Ok in Hu as (? & ? & ? & _ & _ & _ & ->). done. }
  split; [|intros ->; by eexists].
  rewrite Ha4. clear H3 Ha4 Hkeys H1.
  apply (for_up_ind (λ m '(ga, ba, _),
    ba = true ↔ ∃ i, (i < m)%nat ∧ game.alive ga !! i = Some true)) in H2.
  - done.
  - intros i [[ga ba] la] [[gb bb] lb] _ Hinv Hb. cbn in Hb.
    apply bind_Ok in Hb as (a & Hal & Hb).
    apply arr_get_Ok in Hal as [_ Hal].
    apply vec_get_Ok in Hal as [_ Hal].
    rewrite Nat2Z.id in Hal.
    assert (∀ gu gt bt lt l0,
      game.alive gu = game.alive ga →
      game.player_tick st i (gu, ba, l0) = Ok (gt, bt, lt) →
      bt = true ↔ ∃ j, (j < S i)%nat ∧ game.alive gt !! j = Some true)
      as Hstep.
    { intros gu gt bt lt l0 Hau Hrun.
      apply player_tick_run in Hrun
        as (p & c & p' & sv & l1 & _ & _ & _ & -> & Hi & -> & _).
      cbn. rewrite Hau in *. split.
      - intros [->|Hba]%orb_prop.
        + exists i. split; [lia|]. by rewrite list_lookup_insert_eq.
        + apply Hinv in Hba as (j & Hj & Hja). exists j. split; [lia|].
          by rewrite list_lookup_insert_ne by lia.
      - intros (j & Hj & Hja). destruct (decide (j = i)) as [->|Hne].
        + rewrite list_lookup_insert_eq in Hja by done.
          injection Hja as ->. done.
        + rewrite list_lookup_insert_ne in Hja by done.
          apply orb_true_intro. right. apply Hinv. exists j. split; [lia|done]. }
    destruct a.
    + destruct (settings.shared_track st).
      * apply bind_Ok in Hb as (gu & Hu & Hb).
        apply bind_Ok in Hb as ([[gt bt] lt] & Ht & Hb).
        apply bind_Ok in Hb as (gm & Hm & [= <- <- _]).
        apply unmark_position_Ok in Hu as (? & ? & ? & _ & _ & _ & ->).
        apply mark_position_Ok in Hm as (? & ? & ? & _ & _ & _ & ->).
        cbn. eapply Hstep; [|exact Ht]. done.
      * eapply Hstep; [|exact Hb]. done.
    + injection Hb as <- <- _. rewrite Hinv. split.
      * intros (j & Hj & Hja). exists j. split; [lia|done].
      * intros (j & Hj & Hja). exists j. split; [|done].
        destruct (decide (j = i)) as [->|]; [congruence|lia].
  - split; [done|]. intros (i & Hi & _). lia.
Qed.

(** X16. A tick never revives a player and never moves a dead one: the
    time advances by one, the players stay as many as they were, and a
    player that was dead before the tick is dead after it, in the same
    place. *)
Theorem tick_never_revives st g keys g' continues log :
  game.tick st g keys = Ok (g', continues, log) →
  game.time g' = game.time g + 1 ∧
  length (game.alive g') = length (game.alive g) ∧
  length (game.players g') = length (game.players g) ∧
  ∀ i, game.alive g !! i = Some false →
    game.alive g' !! i = Some false ∧
    ∀ p p', game.players g !! i = Some p → game.players g' !! i = Some p' →
      player_handler.y p' = player_handler.y p ∧
      player_handler.x p' = player_handler.x p ∧
      player_handler.top_line p' = player_handler.top_line p ∧
      player_handler.last_move p' = player_handler.last_move p.
Proof. apply tick_alive. Qed.

Lemma tick_never_revives_witness :
  ∃ g' continues log,
    game.tick duel (game.with_alive duel_game [false; true]) [KEY_UP]
    = Ok (g', continues, log) ∧
    game.time g' = 1 ∧ game.alive g' !! O = Some false.
Proof.
  compute_result (game.tick duel (game.with_alive duel_game [false; true])
                    [KEY_UP])
    ltac:(fun v => match v with Ok (?g, ?c, ?l) => exists g, c, l end).
  match goal with |- _ = Ok (?g, ?c, ?l) ∧ _ =>
    destruct (tick_never_revives duel
                (game.with_alive duel_game [false; true]) [KEY_UP] g c l)
      as (Ht & _ & _ & Hdead); [by vm_compute|] end.
  split; [by vm_compute|]. split; [exact Ht|].
  apply (Hdead O). reflexivity.
Defined.

(** X17. A tick returns true exactly when one of the players is alive
    after it; when it returns false it has shown the message with the
    number of turns. *)
Theorem tick_continues_while_someone_lives st g keys g' continues log :
  game.tick st g keys = Ok (g', continues, log) →
  (continues = true ↔
   ∃ i, (i < Z.to_nat (settings.players st))%nat ∧
        game.alive g' !! i = Some true) ∧
  (continues = false → ∃ l, log = l ++ [Message (game.time g')]).
Proof. apply tick_continues. Qed.

Lemma tick_continues_while_someone_lives_witness :
  ∃ g' log,
    game.tick duel duel_game [] = Ok (g', true, log) ∧
    ∃ i, (i < 2)%nat ∧ game.alive g' !! i = Some true.
Proof.
  compute_result (game.tick duel duel_game [])
    ltac:(fun v => match v with Ok (?g, _, ?l) => exists g, l end).
  match goal with |- _ = Ok (?g, ?c, ?l) ∧ _ =>
    destruct (tick_continues_while_someone_lives duel duel_game [] g c l)
      as [[Hc _] _]; [by vm_compute|] end.
  split; [by vm_compute|]. by apply Hc.
Defined.

(** The escape key kills the first [players] players. *)
Lemma key_escape st g g' :
  game.key st g KEY_ESC = Ok g' →
  ∀ i, (i < Z.to_nat (settings.players st))%nat →
       game.alive g' !! i = Some false.
Proof.
  intros H.
  destruct (key_run st g KEY_ESC g' H) as (_ & _ & _ & _ & Ha & _).
  intros i Hi. rewrite Ha.
  unfold game.key in H. rewrite bool_decide_true in H by done.
  apply bind_Ok in H as (g1 & H1 & _).
  apply (for_up_ind (λ m ga, (m ≤ length (game.alive g))%nat
                             ∧ length (game.alive ga) = length (game.alive g)))
    in H1.
  - rewrite bool_decide_true; [done|]. split; [done|]. lia.
  - intros m a b _ [Hm Hl] Hb.
    apply bind_Ok in Hb as (al & Hput & [= <-]).
    apply arr_put_Ok in Hput as [_ Hput].
    apply vec_put_Ok in Hput as [Hm' ->].
    cbn.
    rewrite length_insert. lia.
  - split; [lia|done].
Qed.

Lemma keys_escape st keys : ∀ g g',
  KEY_ESC ∈ keys → foldM (game.key st) g keys = Ok g' →
  ∀ i, (i < Z.to_nat (settings.players st))%nat →
       game.alive g' !! i = Some false.
Proof.
  induction keys as [|key keys IH]; intros g g' Hin H i Hi; simpl in H.
  - by apply elem_of_nil in Hin.
  - apply bind_Ok in H as (g1 & H1 & H).
    destruct (decide (KEY_ESC ∈ keys)) as [Hin'|Hnin]; [by eapply IH|].
    apply elem_of_cons in Hin as [<-|?]; [|done].
    pose proof (key_escape st g g1 H1 i Hi) as Hdead.
    clear -Hdead H. revert g1 Hdead H.
    induction keys as [|key keys IH]; intros g1 Hdead H; simpl in H.
    + by injection H as <-.
    + apply bind_Ok in H as (g2 & H2 & H).
      apply (IH g2); [|done].
      destruct (key_run st g1 key g2 H2) as (_ & _ & _ & _ & Ha & _).
      rewrite Ha. by case_bool_decide.
Qed.

(** X18. The escape key ends the game: a tick that finds it among the
    keys leaves none of the players alive, shows the message and
    returns false. *)
Theorem escape_ends_the_game st g keys g' continues log :
  KEY_ESC ∈ keys →
  game.tick st g keys = Ok (g', continues, log) →
  continues = false ∧
  (∀ i, (i < Z.to_nat (settings.players st))%nat →
        game.alive g' !! i = Some false) ∧
  ∃ l, log = l ++ [Message (game.time g + 1)].
Proof.
  intros Hesc H.
  assert (∀ i, (i < Z.to_nat (settings.players st))%nat →
               game.alive g' !! i = Some false) as Hdead.
  { revert H.
    apply (tick_after_keys st (λ ga,
      ∀ i, (i < Z.to_nat (settings.players st))%nat →
           game.alive ga !! i = Some false)).
    - intros g1 Hkeys. by eapply keys_escape.
    - intros _ i ga gb _ Ha Hm.
      apply mark_position_Ok in Hm as (? & ? & ? & _ & _ & _ & ->). done.
    - intros _ i ga gb _ Ha Hm.
      apply unmark_position_Ok in Hm as (? & ? & ? & _ & _ & _ & ->). done.
    - intros i ga b l gb b' l' Hi Ha Hlive. rewrite (Ha i Hi) in Hlive.
      done. }
  pose proof (tick_alive st g keys g' continues log H) as (Ht & _).
  apply tick_continues in H as [Hc Hlog].
  assert (continues = false) as ->.
  { destruct continues; [|done].
    destruct Hc as [Hc _]. destruct (Hc eq_refl) as (i & Hi & Ha).
    rewrite (Hdead i Hi) in Ha. done. }
  split; [done|]. split; [done|]. rewrite <- Ht. by apply Hlog.
Qed.

Lemma escape_ends_the_game_witness :
  ∃ g' log,
    game.tick duel duel_game [KEY_UP; KEY_ESC; KEY_LEFT] = Ok (g', false, log)
    ∧ game.alive g' = [false; false].
Proof.
  compute_result (game.tick duel duel_game [KEY_UP; KEY_ESC; KEY_LEFT])
    ltac:(fun v => match v with Ok (?g, _, ?l) => exists g, l end).
  match goal with |- _ = Ok (?g, ?c, ?l) ∧ _ =>
    destruct (escape_ends_the_game duel duel_game
                [KEY_UP; KEY_ESC; KEY_LEFT] g c l) as (_ & Hdead & _);
      [by right; left|by vm_compute|] end.
  split; [by vm_compute|].
  apply list_eq. intros [|[|i]].
  - rewrite (Hdead 0%nat); [done|cbn; lia].
  - rewrite (Hdead 1%nat); [done|cbn; lia].
  - by vm_compute.
Defined.

(** X19. Unless the track is shared, a tick leaves every track of the
    store as it is: the cars are never marked on it. *)
Theorem separate_tracks_are_never_marked st g keys g' continues log :
  settings.shared_track st = false →
  game.tick st g keys = Ok (g', continues, log) →
  game.tracks g' = game.tracks g.
Proof.
  intros Hsh.
  apply (tick_inv st (λ ga, game.tracks ga = game.tracks g)).
  - intros ga key gb Ha Hkey.
    destruct (key_run st ga key gb Hkey) as (_ & Ht & _). congruence.
  - congruence.
  - congruence.
  - intros i ga b l gb b' l' Ha _ Hrun.
    apply player_tick_run in Hrun as (? & ? & ? & ? & ? & _ & _ & _ & -> & _).
    done.
  - done.
Qed.

Lemma separate_tracks_are_never_marked_witness :
  ∃ g' continues log,
    game.tick apart duel_game [KEY_UP] = Ok (g', continues, log) ∧
    game.tracks g' = [six_lines].
Proof.
  compute_result (game.tick apart duel_game [KEY_UP])
    ltac:(fun v => match v with Ok (?g, ?c, ?l) => exists g, c, l end).
  match goal with |- _ = Ok (?g, ?c, ?l) ∧ _ =>
    pose proof (separate_tracks_are_never_marked apart duel_game [KEY_UP]
                  g c l eq_refl) as Hsame end.
  split; [by vm_compute|]. apply Hsame. by vm_compute.
Defined.

(** *** The assertions of a new game *)

Lemma foldM_Fault {A St : Type} (body : St → A → result St) l f : ∀ s,
  foldM body s l = Fault f → ∃ a s1, a ∈ l ∧ body s1 a = Fault f.
Proof.
  induction l as [|a l IH]; intros s H; simpl in H; [done|].
  apply bind_Fault in H as [H|(s1 & _ & H)].
  - exists a, s. split; [by left|done].
  - apply IH in H as (b & s2 & Hb & H). exists b, s2. split; [by right|done].
Qed.

Lemma for_up_Fault {St : Type} (body : nat → St → result St) n f : ∀ i s,
  for_up n i body s = Fault f → ∃ k s1, body k s1 = Fault f.
Proof.
  induction n as [|n IH]; intros i s H; simpl in H; [done|].
  apply bind_Fault in H as [H|(s1 & _ & H)]; [by eauto|by eapply IH].
Qed.

Lemma storage_put_fault s y x b f :
  car_image.storage_put s y x b = Fault f → f = OutOfRange.
Proof.
  unfold car_image.storage_put. intros H.
  apply bind_Fault in H as [H|(row & _ & H)].
  { unfold vec_get in H. repeat case_match; congruence. }
  apply bind_Fault in H as [H|(row' & _ & H)];
    unfold vec_put in H; repeat case_match; congruence.
Qed.

(** The constructor of the image of a car makes no assertion. *)
Lemma car_image_fault st f :
  car_image.car_image st = Fault f → f = OutOfRange ∨ f = BadCast.
Proof.
  assert (∀ car y1 x1 y2 x2 i,
    car_image.plot car y1 x1 y2 x2 i = Fault f →
    f = OutOfRange ∨ f = BadCast) as Hplot.
  { intros car y1 x1 y2 x2 i H. unfold car_image.plot in H.
    apply bind_Fault in H as [H|(off & _ & H)].
    - right. unfold car_image.line_offset, car_image.int_of_double in H.
      repeat case_match; congruence.
    - apply bind_Fault in H as [H|(s & _ & H)]; [|done].
      left. by eapply storage_put_fault. }
  assert (∀ car y1 x1 y2 x2,
    car_image._line car y1 x1 y2 x2 = Fault f →
    f = OutOfRange ∨ f = BadCast) as Hline.
  { intros car y1 x1 y2 x2 H. unfold car_image._line in H.
    case_bool_decide; apply foldM_Fault in H as (i & c1 & _ & H);
      by eapply Hplot. }
  unfold car_image.car_image. intros H.
  apply bind_Fault in H as [H|(c0 & _ & H)].
  { left. unfold car_image._clear in H.
    apply bind_Fault in H as [H|(s & _ & H)]; [|done].
    apply foldM_Fault in H as (i & s1 & _ & H).
    apply foldM_Fault in H as (j & s2 & _ & H).
    by eapply storage_put_fault. }
  apply bind_Fault in H as [H|(c1 & _ & H)]; [by eapply Hline|].
  apply bind_Fault in H as [H|(c2 & _ & H)]; [by eapply Hline|].
  apply bind_Fault in H as [H|(c3 & _ & H)]; [by eapply Hline|].
  by eapply Hline.
Qed.

(** The assertion of the constructor of a player. *)
Lemma player_handler_asserts st stdscr position racecourse :
  player_handler.player_handler st stdscr position racecourse
  = Fault AssertionFailed →
  (if settings.vertical_split st
   then Z.quot stdscr.2 (settings.players st) else stdscr.2)
  < settings.race_width st.
Proof.
  unfold player_handler.player_handler. destruct stdscr as [h w].
  case_bool_decide as Hn; [done|].
  case_bool_decide as Hw; [|cbn; intros _; lia].
  intros H. apply bind_Fault in H as [H|(car & _ & H)].
  { apply car_image_fault in H as [?|?]; done. }
  apply bind_Fault in H as [H|(keys & _ & H)]; [|done].
  unfold arr_get in H. case_bool_decide; [|done].
  apply vec_get_fault in H as [?|?]; done.
Qed.

Lemma game_asserts st0 stdscr has_colors rnd seed0 :
  game.game st0 stdscr has_colors rnd seed0 = Fault AssertionFailed →
  let st := adjust st0 stdscr in
  has_colors = false ∨
  settings.race_width st < settings.minimal_width st ∨
  (if settings.vertical_split st
   then Z.quot stdscr.2 (settings.players st) else stdscr.2)
  < settings.race_width st.
Proof.
  unfold game.game. intros H.
  destruct has_colors; [cbn [negb] in H; right|by left].
  apply bind_Fault in H as [H|(st1 & Hst1 & H)].
  { repeat case_match; congruence. }
  assert ((if bool_decide (settings.minimal_width st1 = 0)
           then settings.with_minimal_width st1 (MINIMAL_WIDTH st1)
           else st1) = adjust st0 stdscr) as Hadj.
  { unfold adjust. cbn zeta.
    destruct (bool_decide (settings.race_width st0 = 0));
      [|by injection Hst1 as <-].
    destruct (settings.vertical_split st0); [|by injection Hst1 as <-].
    destruct (bool_decide (settings.players st0 = 0)); [done|].
    by injection Hst1 as <-. }
  rewrite Hadj in H. clear Hst1 Hadj st1. cbn zeta.
  set (st := adjust st0 stdscr) in *.
  apply bind_Fault in H as [H|([[ts ps] s'] & _ & H)].
  - destruct (settings.shared_track st || settings.similar_track st).
    + apply bind_Fault in H as [H|([c s1] & _ & H)].
      { left. by eapply track_asserts_only_minimal_width. }
      apply bind_Fault in H as [H|(ps & _ & H)]; [|done].
      apply for_up_Fault in H as (k & ps & H).
      apply bind_Fault in H as [H|(p & _ & H)].
      * right. by eapply player_handler_asserts.
      * unfold arr_new in H. by case_bool_decide.
    + apply for_up_Fault in H as (k & [[ts ps] s1] & H). cbn in H.
      apply bind_Fault in H as [H|([c s2] & _ & H)].
      { left. by eapply track_asserts_only_minimal_width. }
      apply bind_Fault in H as [H|(p & _ & H)].
      { right. by eapply player_handler_asserts. }
      apply bind_Fault in H as [H|(ps1 & _ & H)]; [|done].
      unfold arr_new in H. by case_bool_decide.
  - apply bind_Fault in H as [H|(al & _ & H)]; [|done].
    apply for_up_Fault in H as (k & al & H).
    unfold arr_new in H. by case_bool_decide.
Qed.

(** X20. The constructor of the game refuses to start without
    colours, and on a terminal with colours a game on fresh settings
    fails no assertion.  When [has_colors()] is false the constructor
    stops on a failed assertion.  When it stops on a failed assertion
    on a terminal with colours, the width of the race or the minimal
    width was already set when it was called: left at zero, as [reset]
    leaves them, they are adjusted to a race that fits the window and a
    minimal width that fits the race. *)
Theorem fresh_settings_pass_the_assertions st0 stdscr has_colors rnd seed0 :
  (has_colors = false →
   game.game st0 stdscr has_colors rnd seed0 = Fault AssertionFailed) ∧
  (game.game st0 stdscr has_colors rnd seed0 = Fault AssertionFailed →
   has_colors = false ∨
   settings.race_width st0 ≠ 0 ∨ settings.minimal_width st0 ≠ 0).
Proof.
  split; [by intros ->|].
  intros H. apply game_asserts in H. cbn zeta in H.
  destruct H as [H|H]; [by left|right].
  destruct (decide (settings.race_width st0 = 0)) as [Hw|]; [|left; done].
  destruct (decide (settings.minimal_width st0 = 0)) as [Hm|]; [|right; done].
  exfalso. revert H. unfold adjust. cbn zeta.
  rewrite (bool_decide_true (settings.race_width st0 = 0)) by done.
  cbn [settings.with_race_width settings.minimal_width].
  rewrite (bool_decide_true (settings.minimal_width st0 = 0)) by done.
  unfold MINIMAL_WIDTH. cbn. destruct (settings.vertical_split st0); lia.
Qed.

Lemma fresh_settings_pass_the_assertions_witness :
  game.game settings.reset (24, 80) false (constantly 0) O
  = Fault AssertionFailed ∧
  (true = false ∨
   settings.race_width too_narrow ≠ 0 ∨ settings.minimal_width too_narrow ≠ 0).
Proof.
  split.
  - by apply (proj1 (fresh_settings_pass_the_assertions settings.reset
                       (24, 80) false (constantly 0) O)).
  - apply (proj2 (fresh_settings_pass_the_assertions too_narrow (24, 80) true
                    (constantly 0) O)).
    by vm_compute.
Defined.

(** *** The windows *)

(** X21. The windows stay on the track and, when the screen is split
    vertically, the cars stay on the lines of their windows.  In a race
    started by the constructor of the game with windows no higher than
    the track, after any number of ticks the lines that [display] shows
    are lines of the track; with a vertical split and cars no higher
    than the terminal, every car lies between the top and the bottom
    line of its window.  Nothing is said of the columns. *)
Theorem windows_stay_on_the_track
    st0 stdscr has_colors rnd seed0 st g s buffers g' :
  game.game st0 stdscr has_colors rnd seed0 = Ok (st, g, s) →
  0 ≤ window_height st0 stdscr ≤ settings.race_length st0 →
  ticks st g buffers = Ok g' →
  Forall (window_on_track st) (game.players g') ∧
  (settings.vertical_split st0 = true →
   settings.car_size st0 ≤ stdscr.1 →
   Forall (car_on_window_lines st) (game.players g')).
Proof.
  intros Hgame Hwh Hrun.
  pose proof Hgame as (-> & _ & _ & _ & _ & Hps & _)%game_Ok.
  destruct (adjust_fields st0 stdscr)
    as (Hv & _ & _ & Hl & Hpl & _ & Hsz & _).
  set (st := adjust st0 stdscr) in *.
  assert (∀ (P : player_handler.t → Prop),
    (∀ p key, P p → P (player_handler.parse_input p key)) →
    (∀ p time, P p → P (player_handler.moved st p time)) →
    Forall P (game.players g) → Forall P (game.players g')) as Hinv.
  { intros P Hparse Hmoved Hg. revert Hrun.
    apply (ticks_inv st (λ g, Forall P (game.players g))); [|done].
    intros ga keys gb c l Ha Htick. revert Htick.
    apply (tick_players st P); [done| |done].
    intros c0 p time p' sv l0 Hp [[-> _]| ->]%tick_Ok; [done|].
    by apply Hmoved. }
  split.
  - apply Hinv.
    + intros p key. unfold window_on_track, player_handler.parse_input.
      by destruct (player_handler.controls p) as [[[??]?]?].
    + intros p time. unfold window_on_track, player_handler.moved. cbn. lia.
    + apply Forall_lookup. intros i p Hp. apply Hps in Hp.
      apply player_handler_Ok in Hp
        as (_ & _ & _ & Hscr & _ & _ & _ & _ & Htop & _).
      unfold window_on_track. rewrite Hscr, Htop. cbn.
      unfold window_height in *. rewrite Hv, Hpl, Hl in *. lia.
  - intros Hvert Hcs. apply Hinv.
    + intros p key. unfold car_on_window_lines, player_handler.parse_input.
      by destruct (player_handler.controls p) as [[[??]?]?].
    + intros p time. unfold car_on_window_lines, player_handler.moved. cbn. lia.
    + apply Forall_lookup. intros i p Hp. apply Hps in Hp.
      apply player_handler_Ok in Hp
        as (_ & _ & _ & Hscr & _ & _ & Hy & _ & Htop & _ & _ & Hsh & _).
      unfold car_on_window_lines. rewrite Hscr, Htop, Hy, Hsh. cbn.
      unfold window_height in *. rewrite Hv, Hl, Hsz, Hvert in *. lia.
Qed.

Lemma windows_stay_on_the_track_witness :
  ∃ st g s g',
    game.game duel (4, 16) true (constantly 2147483647) 0 = Ok (st, g, s) ∧
    ticks st g [[]; [KEY_DOWN]; []] = Ok g' ∧
    Forall (window_on_track st) (game.players g').
Proof.
  compute_result (game.game duel (4, 16) true (constantly 2147483647) 0)
    ltac:(fun v => match v with Ok (?st, ?g, ?s) => exists st, g, s end).
  match goal with |- ∃ g', _ = Ok (?st, ?g, ?s) ∧ _ =>
    pose proof (windows_stay_on_the_track duel (4, 16) true
                  (constantly 2147483647) O st g s [[]; [KEY_DOWN]; []])
      as Hstay;
    compute_result (ticks st g [[]; [KEY_DOWN]; []])
      ltac:(fun v => match v with Ok ?g' => exists g' end) end.
  split; [by vm_compute|]. split; [by vm_compute|].
  eapply Hstay; by vm_compute.
Defined.

(** *** The keys of a player *)

(** A key reaches only the commands of a player: the place, the
    window, the car and the controls stay; a key that is none of the
    four controls changes nothing; and when the four controls differ,
    each sets its own command and leaves the other command as it
    is. *)
Lemma keys_set_the_commands p key :
  let p' := player_handler.parse_input p key in
  let '(kup, kdown, kleft, kright) := player_handler.controls p in
  p' = {| player_handler.screen := player_handler.screen p;
          player_handler.course := player_handler.course p;
          player_handler.car := player_handler.car p;
          player_handler.last_move := player_handler.last_move p;
          player_handler.y := player_handler.y p;
          player_handler.x := player_handler.x p;
          player_handler.top_line := player_handler.top_line p;
          player_handler.command_x := player_handler.command_x p';
          player_handler.command_y := player_handler.command_y p';
          player_handler.screen_height := player_handler.screen_height p;
          player_handler.controls := player_handler.controls p |} ∧
  (key ≠ kup → key ≠ kdown → key ≠ kleft → key ≠ kright → p' = p) ∧
  (kup ≠ kdown →
   (key = kup → player_handler.command_y p' = ACCELERATE) ∧
   (key = kdown → player_handler.command_y p' = BRAKE) ∧
   (key ≠ kup → key ≠ kdown →
    player_handler.command_y p' = player_handler.command_y p)) ∧
  (kleft ≠ kright →
   (key = kleft → player_handler.command_x p' = LEFT) ∧
   (key = kright → player_handler.command_x p' = RIGHT) ∧
   (key ≠ kleft → key ≠ kright →
    player_handler.command_x p' = player_handler.command_x p)).
Proof.
  unfold player_handler.parse_input. destruct p as [? ? ? ? ? ? ? ? ? ? [[[kup kdown] kleft] kright]].
  cbn. split; [done|]. split.
  - intros. by rewrite !bool_decide_false by done.
  - split; intros Hd; repeat split; intros;
      repeat case_bool_decide; congruence.
Qed.

(** *** The place of the cars on a shared track *)

(** X22. Two players on a shared track start on the same line.  When
    the track is at least as wide as two cars and two columns more,
    they start side by side in the middle of the track, one column
    apart: the squares of the two cars lie on columns of the track and
    do not meet. *)
Theorem shared_cars_start_side_by_side st stdscr c0 c1 p0 p1 :
  settings.players st = 2 → settings.shared_track st = true →
  player_handler.player_handler st stdscr 0 c0 = Ok p0 →
  player_handler.player_handler st stdscr 1 c1 = Ok p1 →
  player_handler.y p0 = player_handler.y p1 ∧
  (0 ≤ settings.car_size st →
   2 * (settings.car_size st + 1) ≤ settings.race_width st →
   player_handler.x p1 = player_handler.x p0 + settings.car_size st + 1 ∧
   0 ≤ player_handler.x p0 ∧
   player_handler.x p1 + settings.car_size st ≤ settings.race_width st).
Proof.
  intros Hn Hsh H0 H1.
  apply player_handler_Ok in H0 as (_ & _ & _ & _ & _ & _ & Hy0 & Hx0 & _).
  apply player_handler_Ok in H1 as (_ & _ & _ & _ & _ & _ & Hy1 & Hx1 & _).
  split; [congruence|]. intros Hcs Hw.
  rewrite Hsh, Hn in Hx0, Hx1.
  rewrite Z.quot_div_nonneg in Hx0, Hx1 by lia.
  set (w := settings.race_width st) in *.
  set (n := settings.car_size st) in *.
  replace (w - (n + 1) * (2 - 2 * 0)) with (w + (- (n + 1)) * 2) in Hx0 by lia.
  rewrite Z.div_add in Hx0 by lia.
  replace (w - (n + 1) * (2 - 2 * 1)) with w in Hx1 by lia.
  pose proof (Z.div_mod w 2). pose proof (Z.mod_pos_bound w 2). lia.
Qed.

Lemma shared_cars_start_side_by_side_witness :
  ∃ p0 p1,
    player_handler.player_handler (adjusted 2 80) (24, 80) 0 O = Ok p0 ∧
    player_handler.player_handler (adjusted 2 80) (24, 80) 1 O = Ok p1 ∧
    player_handler.x p0 = 9 ∧ player_handler.x p1 = 20.
Proof.
  compute_result (player_handler.player_handler (adjusted 2 80) (24, 80) 0 O)
    ltac:(fun v => match v with Ok ?p => exists p end).
  compute_result (player_handler.player_handler (adjusted 2 80) (24, 80) 1 O)
    ltac:(fun v => match v with Ok ?p => exists p end).
  match goal with |- _ = Ok ?p0 ∧ _ = Ok ?p1 ∧ _ =>
    destruct (shared_cars_start_side_by_side (adjusted 2 80) (24, 80) O O
                p0 p1) as (_ & Hwide); [by vm_compute..|];
    destruct Hwide as (Hx & _); [by vm_compute..|] end.
  split; [by vm_compute|]. split; [by vm_compute|].
  split; [by vm_compute|]. rewrite Hx. by vm_compute.
Defined.

(** ** What a window shows *)

Lemma mapM_Ok {A B} (f : A → result B) l : ∀ l',
  mapM f l = Ok l' ↔ Forall2 (λ a b, f a = Ok b) l l'.
Proof.
  induction l as [|a l IH]; intros l'; simpl.
  - split; [intros [= <-]; constructor|by inversion 1].
  - split.
    + intros H. apply bind_Ok in H as (b & Hb & H).
      apply bind_Ok in H as (k & Hk & [= <-]).
      constructor; [done|]. by apply IH.
    + inversion 1 as [|? b ? k Hb Hk]; subst.
      rewrite Hb. simpl. apply IH in Hk. rewrite Hk. done.
Qed.

Lemma mapM_total {A B} (f : A → result B) l :
  is_Ok (mapM f l) ↔ ∀ a, a ∈ l → is_Ok (f a).
Proof.
  induction l as [|a l IH]; simpl.
  - split; [by intros _ a ?%elem_of_nil|by eexists].
  - split.
    + intros [l' H] a' Ha'. apply bind_Ok in H as (b & Hb & H).
      apply bind_Ok in H as (k & Hk & _).
      apply elem_of_cons in Ha' as [->|Ha']; [by eexists|].
      apply IH; [by eexists|done].
    + intros H. destruct (H a) as [b Hb]; [by left|].
      destruct (proj2 IH) as [k Hk]; [intros a' Ha'; apply H; by right|].
      rewrite Hb. simpl. rewrite Hk. by eexists.
Qed.

(** X23. [track::display] shows the lines of the track from the top
    line on, as many as the window is high, each over the width of the
    race: it goes through exactly when all these cells are cells of
    the circuit, and then shows them as they are. *)
Theorem display_shows_the_window st (c : track.t) height top_line :
  (is_Ok (track.display st c height top_line) ↔
   ∀ i j, top_line ≤ i < top_line + height →
          0 ≤ j < settings.race_width st →
          is_Some (track.cell c i j)) ∧
  ∀ shown, track.display st c height top_line = Ok shown →
    length shown = Z.to_nat height ∧
    ∀ (r : nat) line, shown !! r = Some line →
      length line = Z.to_nat (settings.race_width st) ∧
      ∀ (j : nat) a, line !! j = Some a →
        track.cell c (top_line + Z.of_nat r) (Z.of_nat j) = Some a.
Proof.
  unfold track.display. split.
  - rewrite mapM_total. split.
    + intros H i j Hi Hj.
      destruct (H i) as [line Hline]; [apply elem_of_seqZ; lia|].
      assert (is_Ok (track.circuit_at c i j)) as [a Ha].
      { eapply mapM_total; [by eexists|]. apply elem_of_seqZ. lia. }
      apply circuit_at_Ok in Ha. by eexists.
    + intros H i Hi%elem_of_seqZ. apply mapM_total.
      intros j Hj%elem_of_seqZ.
      destruct (H i j) as [a Ha]; [lia..|].
      apply circuit_at_Ok in Ha. by eexists.
  - intros shown H. apply mapM_Ok in H.
    pose proof (Forall2_length _ _ _ H) as Hlen.
    rewrite length_seqZ in Hlen. split; [done|].
    intros r line Hr.
    destruct (Forall2_lookup_r _ _ _ _ _ H Hr) as (i & Hi & Hline).
    apply lookup_seqZ in Hi as [-> _].
    apply mapM_Ok in Hline.
    pose proof (Forall2_length _ _ _ Hline) as Hlen'.
    rewrite length_seqZ in Hlen'. split; [done|].
    intros j a Hj.
    destruct (Forall2_lookup_r _ _ _ _ _ Hline Hj) as (j' & Hj' & Ha).
    apply lookup_seqZ in Hj' as [-> _].
    apply circuit_at_Ok in Ha. by rewrite Z.add_0_l in Ha.
Qed.

(** ** The editor of the settings *)

(** X24. [_edit_players] takes the first key that is a digit from 1 to
    [MAX_PLAYERS] for the number of players, whatever keys come before
    and after it, and changes nothing else in the settings. *)
Theorem edit_players_takes_the_first_count st before key after :
  Forall no_player_count before → ¬ no_player_count key →
  settings._edit_players st (before ++ key :: after)
  = settings.with_players st (key - 48) ∧
  1 ≤ settings.players (settings._edit_players st (before ++ key :: after))
    ≤ MAX_PLAYERS.
Proof.
  intros Hbefore Hkey. unfold no_player_count in Hkey.
  assert (settings._edit_players st (before ++ key :: after)
          = settings.with_players st (key - 48)) as ->.
  { induction Hbefore as [|k ks Hk _ IH]; simpl.
    - by rewrite bool_decide_false.
    - by rewrite bool_decide_true. }
  split; [done|]. cbn. unfold MAX_PLAYERS in *. lia.
Qed.

Lemma edit_players_takes_the_first_count_witness :
  settings.players (settings._edit_players settings.reset [113; 51; 50; 49])
  = 2.
Proof.
  destruct (edit_players_takes_the_first_count settings.reset
              [113; 51] 50 [49]) as [Heq _].
  - repeat constructor; unfold no_player_count, MAX_PLAYERS; lia.
  - unfold no_player_count, MAX_PLAYERS. lia.
  - change ([113; 51; 50; 49]) with ([113; 51] ++ 50 :: [49]).
    rewrite Heq. reflexivity.
Defined.

(** ** The car on the window *)

Lemma display_cell car y x i j (out : list (Z * Z * ascii)) :
  same_picture car → 0 ≤ i < 21 → 0 ≤ j < 21 →
  (row ← vec_get (car_image.storage car) i;
   b ← vec_get row j;
   Ok (if (b : bool)
       then out ++ [(y + i, x + j, car_image.character car)]
       else out))
  = Ok (if bool_decide ((i, j) ∈ car_image.get_dots car)
        then out ++ [(y + i, x + j, car_image.character car)]
        else out).
Proof.
  intros Hcar Hi Hj.
  pose proof (collision_check_dots car i j Hcar Hi Hj) as Hcheck.
  unfold car_image.collision_check in Hcheck.
  apply bind_Ok in Hcheck as (row & Hrow & Hb).
  rewrite Hrow. simpl. rewrite Hb. done.
Qed.

Lemma display_row car y x i js : ∀ out,
  same_picture car → 0 ≤ i < 21 → Forall (λ j, 0 ≤ j < 21) js →
  foldM (λ out j,
           row ← vec_get (car_image.storage car) i;
           b ← vec_get row j;
           Ok (if (b : bool)
               then out ++ [(y + i, x + j, car_image.character car)]
               else out))
        out js
  = Ok (out ++ (js ≫= λ j,
          if bool_decide ((i, j) ∈ car_image.get_dots car)
          then [(y + i, x + j, car_image.character car)] else [])).
Proof.
  intros out Hcar Hi Hjs. revert out.
  induction Hjs as [|j js Hj _ IH]; intros out; cbn [foldM].
  - cbn. by rewrite app_nil_r.
  - rewrite display_cell by done. cbn [mbind result_bind].
    rewrite IH. f_equal. rewrite bind_cons.
    case_bool_decide; by rewrite <- ?app_assoc.
Qed.

Lemma display_rows car y x n rows : ∀ out,
  same_picture car → Forall (λ i, 0 ≤ i < 21) rows → 0 ≤ n ≤ 21 →
  foldM (λ out i,
    foldM (λ out j,
           row ← vec_get (car_image.storage car) i;
           b ← vec_get row j;
           Ok (if (b : bool)
               then out ++ [(y + i, x + j, car_image.character car)]
               else out))
        out (seqZ 0 n)) out rows
  = Ok (out ++ (rows ≫= λ i, seqZ 0 n ≫= λ j,
          if bool_decide ((i, j) ∈ car_image.get_dots car)
          then [(y + i, x + j, car_image.character car)] else [])).
Proof.
  intros out Hcar Hrows Hn. revert out.
  induction Hrows as [|i rows Hi _ IH]; intros out; cbn [foldM].
  - cbn. by rewrite app_nil_r.
  - rewrite display_row; [|done|done|].
    + cbn [mbind result_bind]. rewrite IH.
      by rewrite bind_cons, <- app_assoc.
    + apply Forall_forall. intros j Hj%elem_of_seqZ. lia.
Qed.

(** X25. [car_image::display] draws the car that collides: for a car
    of the constructor it goes through and puts the character of the
    cars on the cells of the square of the car that are dots of
    [get_dots], each once, line by line, and on no other cell. *)
Theorem display_draws_the_dots st car y x :
  car_image.car_image st = Ok car →
  car_image.display car y x
  = Ok (seqZ 0 (settings.car_size st) ≫= λ i,
        seqZ 0 (settings.car_size st) ≫= λ j,
          if bool_decide ((i, j) ∈ car_image.get_dots car)
          then [(y + i, x + j, settings.character st)] else []).
Proof.
  intros H. pose proof (car_image_size_range st car H) as Hn.
  apply car_image_Ok in H as (Hpic & Hs & Hc & _).
  unfold car_image.display. rewrite Hs.
  rewrite display_rows; [by rewrite Hc|done| |lia].
  apply Forall_forall. intros i Hi%elem_of_seqZ. lia.
Qed.

Lemma display_draws_the_dots_witness :
  ∃ car, car_image.car_image duel = Ok car ∧
         car_image.display car 4 2
         = Ok [(4, 2, "^"%char); (4, 3, "^"%char); (5, 2, "^"%char);
               (5, 3, "^"%char)].
Proof.
  compute_result (car_image.car_image duel)
    ltac:(fun v => match v with Ok ?c => exists c end).
  split; [by vm_compute|].
  match goal with |- car_image.display ?car _ _ = _ =>
    rewrite (display_draws_the_dots duel car 4 2) by by vm_compute end.
  by vm_compute.
Defined.

Lemma explode_row rnd (y x i : Z) js : ∀ out seed out' seed',
  foldl (λ '(out, seed) j,
      let '(r, seed) := rand rnd seed in
      if bool_decide (Z.rem r 2 = 0) then (out, seed)
      else let '(color, seed) := rand rnd seed in
           (out ++ [(y + i, x + j, Z.rem color 7 + 1)], seed))
    (out, seed) js = (out', seed') →
  ∃ l, out' = out ++ l ∧
       l.*1 `sublist_of` ((λ j, (y + i, x + j)) <$> js) ∧
       Forall (λ s, 1 ≤ s.2 ≤ 7) l ∧
       seed' = (seed + length js + length l)%nat.
Proof.
  induction js as [|j js IH]; intros out seed out' seed' H; simpl in H.
  - injection H as <- <-. exists []. rewrite app_nil_r.
    split; [done|]. split; [done|]. split; [done|]. simpl. lia.
  - case_bool_decide.
    + apply IH in H as (l & -> & Hsub & Hcol & ->).
      exists l. split; [done|]. split; [|split; [done|simpl; lia]].
      rewrite fmap_cons. by apply sublist_cons.
    + pose proof (rand_range rnd (S seed)) as Hr.
      apply IH in H as (l & -> & Hsub & Hcol & ->).
      eexists (_ :: l).
      split; [by rewrite <- app_assoc|]. split; [|split].
      * rewrite !fmap_cons. by apply sublist_skip.
      * apply Forall_cons. split; [|done]. cbn.
        unfold rand in Hr. cbn in Hr.
        pose proof (Z.rem_bound_pos _ 7 (proj1 Hr)). lia.
      * simpl. lia.
Qed.

(** X26. [car_image::explode] puts its stars inside the square of the
    car: the cells it draws are, in their order, some of the cells of
    the square taken line by line, so none is outside the square and
    none is drawn twice; the colours are pairs 1 to 7; and it draws one
    random number for each cell of the square and one more for each
    star. *)
Theorem explosion_stays_in_the_square car rnd seed y x out seed' :
  car_image.explode car rnd seed y x = (out, seed') →
  out.*1 `sublist_of`
    (seqZ 0 (car_image.size car) ≫= λ i,
       (λ j, (y + i, x + j)) <$> seqZ 0 (car_image.size car)) ∧
  Forall (λ s, 1 ≤ s.2 ≤ 7) out ∧
  seed' = (seed + Z.to_nat (car_image.size car)
                  * Z.to_nat (car_image.size car) + length out)%nat.
Proof.
  unfold car_image.explode.
  set (n := car_image.size car).
  assert (∀ rows out0 seed0 out1 seed1,
    foldl (λ s i,
      foldl (λ '(out, seed) j,
          let '(r, seed) := rand rnd seed in
          if bool_decide (Z.rem r 2 = 0) then (out, seed)
          else let '(color, seed) := rand rnd seed in
               (out ++ [(y + i, x + j, Z.rem color 7 + 1)], seed))
        s (seqZ 0 n)) (out0, seed0) rows = (out1, seed1) →
    ∃ l, out1 = out0 ++ l ∧
         l.*1 `sublist_of`
           (rows ≫= λ i, (λ j, (y + i, x + j)) <$> seqZ 0 n) ∧
         Forall (λ s, 1 ≤ s.2 ≤ 7) l ∧
         seed1 = (seed0 + length rows * Z.to_nat n + length l)%nat) as Hrows.
  { induction rows as [|i rows IH]; intros out0 seed0 out1 seed1 H;
      simpl in H.
    - injection H as <- <-. exists []. rewrite app_nil_r.
      split; [done|]. split; [done|]. split; [done|]. simpl. lia.
    - destruct (foldl _ (out0, seed0) (seqZ 0 n)) as [out2 seed2] eqn:Hrow.
      apply explode_row in Hrow as (l1 & -> & Hsub1 & Hcol1 & ->).
      apply IH in H as (l2 & -> & Hsub2 & Hcol2 & ->).
      exists (l1 ++ l2). split; [by rewrite app_assoc|]. split; [|split].
      + rewrite fmap_app, bind_cons. by apply sublist_app.
      + by apply Forall_app.
      + rewrite length_seqZ, length_app. simpl. lia. }
  intros H. apply Hrows in H as (l & -> & Hsub & Hcol & ->).
  rewrite length_seqZ. done.
Qed.

Lemma explosion_stays_in_the_square_witness :
  ∃ out,
    car_image.explode two_dots (constantly 1) 0 4 2 = (out, 8%nat) ∧
    out.*1 `sublist_of` [(4, 2); (4, 3); (5, 2); (5, 3)] ∧
    Forall (λ s, 1 ≤ s.2 ≤ 7) out.
Proof.
  compute_result (car_image.explode two_dots (constantly 1) 0 4 2)
    ltac:(fun v => match v with (?o, _) => exists o end).
  split; [by vm_compute|].
  match goal with |- ?o.*1 `sublist_of` _ ∧ _ =>
    destruct (explosion_stays_in_the_square two_dots (constantly 1) O 4 2
                o 8%nat) as (Hsub & Hcol & _); [by vm_compute|] end.
  split; [exact Hsub | exact Hcol].
Defined.

(** *** When the game starts *)

Lemma for_up_total {St : Type} (body : nat → St → result St) (n : nat) :
  ∀ (i : nat) (s : St),
    (∀ k a, (i ≤ k < i + n)%nat → is_Ok (body k a)) →
    is_Ok (for_up n i body s).
Proof.
  induction n as [|n IH]; intros i s Hbody; simpl.
  - by eexists.
  - destruct (Hbody i s) as [s1 ->]; [lia|]. simpl.
    apply IH. intros k a Hk. apply Hbody. lia.
Qed.

Lemma player_handler_total st stdscr (i : nat) racecourse :
  settings.players st ≠ 0 →
  settings.race_width st
    ≤ (if settings.vertical_split st
       then Z.quot stdscr.2 (settings.players st) else stdscr.2) →
  2 ≤ settings.car_size st ≤ 21 →
  Z.of_nat i < MAX_PLAYERS →
  (i < length (settings.controls st))%nat →
  is_Ok (player_handler.player_handler st stdscr (Z.of_nat i) racecourse).
Proof.
  intros Hn Hw Hsize Hmax Hi. unfold player_handler.player_handler.
  destruct stdscr as [h w]. cbn [fst snd] in Hw.
  rewrite bool_decide_false by done. rewrite bool_decide_true by done.
  rewrite car_image_sized.
  destruct (car_image_by_size _ (settings.character st) Hsize)
    as (car & -> & _).
  destruct (lookup_lt_is_Some_2 (settings.controls st) i Hi) as [keys Hkeys].
  assert (arr_get (settings.controls st) (Z.of_nat i) = Ok keys) as ->.
  { apply arr_get_Ok. split; [done|].
    apply vec_get_Ok. split; [lia|]. by rewrite Nat2Z.id. }
  by eexists.
Qed.

(** X27. A game on fresh settings starts on a terminal with colours
    that is wide enough.  With the width of the race and the minimal
    width left at zero, from one to [MAX_PLAYERS] players, each with
    its set of controls, a car of a size from 2 to 21 and a length
    that is not negative, the constructor of the game goes through on
    a terminal with colours whenever the window of a player is at
    least 4 columns wider than two and a half times the number of
    players times the size of the car. *)
Theorem wide_terminal_starts_a_game st0 stdscr rnd seed0 :
  settings.race_width st0 = 0 → settings.minimal_width st0 = 0 →
  1 ≤ settings.players st0 ≤ MAX_PLAYERS →
  (Z.to_nat (settings.players st0) ≤ length (settings.controls st0))%nat →
  2 ≤ settings.car_size st0 ≤ 21 →
  0 ≤ settings.race_length st0 →
  Z.quot (5 * (settings.players st0 * settings.car_size st0)) 2 + 4
    ≤ (if settings.vertical_split st0
       then Z.quot stdscr.2 (settings.players st0) else stdscr.2) →
  is_Ok (game.game st0 stdscr true rnd seed0).
Proof.
  intros Hrw Hmw Hn Hkeys Hsize Hlen Hwide. unfold game.game.
  cbn [negb].
  set (W := if settings.vertical_split st0
            then Z.quot stdscr.2 (settings.players st0) else stdscr.2) in *.
  rewrite (bool_decide_true (settings.race_width st0 = 0)) by done.
  assert ((if settings.vertical_split st0
           then if bool_decide (settings.players st0 = 0)
                then Fault DivisionByZero
                else Ok (settings.with_race_width st0
                           (Z.quot stdscr.2 (settings.players st0)))
           else Ok (settings.with_race_width st0 stdscr.2))
          = Ok (settings.with_race_width st0 W)) as ->.
  { unfold W. destruct (settings.vertical_split st0); [|done].
    by rewrite bool_decide_false by lia. }
  cbn [mbind result_bind].
  cbn [settings.with_race_width settings.minimal_width].
  rewrite (bool_decide_true (settings.minimal_width st0 = 0)) by done.
  set (st := settings.with_minimal_width _ _).
  assert (settings.minimal_width st
          = Z.quot (5 * (settings.players st0 * settings.car_size st0)) 2)
    as Hmin.
  { unfold st, MINIMAL_WIDTH. cbn. lia. }
  assert (5 ≤ settings.minimal_width st) as Hmin5.
  { rewrite Hmin. apply Z.quot_le_lower_bound; nia. }
  assert (∀ s, is_Ok (track.track st rnd s)) as Htrack.
  { intros s. apply track_total; [done|lia|]. rewrite Hmin. cbn. lia. }
  assert (∀ (i : nat) c, (i < Z.to_nat (settings.players st0))%nat →
            is_Ok (player_handler.player_handler st stdscr (Z.of_nat i) c))
    as Hplayer.
  { intros i c Hi. apply player_handler_total.
    - cbn. lia.
    - cbn. fold W. lia.
    - done.
    - lia.
    - cbn. lia. }
  assert (is_Ok (for_up (Z.to_nat (settings.players st0)) 0
                   (λ i (alive : list bool), arr_new alive (Z.of_nat i) true)
                   [])) as [al Hal].
  { apply for_up_total. intros k a Hk. unfold arr_new.
    rewrite bool_decide_true by lia. by eexists. }
  destruct (settings.shared_track st || settings.similar_track st).
  - destruct (Htrack seed0) as [[c s] ->]. cbn [mbind result_bind].
    match goal with |- is_Ok ((for_up ?n 0 ?body ?a ≫= _) ≫= _) =>
      destruct (for_up_total body n O a) as [ps ->] end.
    + intros k ps Hk. destruct (Hplayer k O) as [p ->]; [lia|].
      cbn [mbind result_bind]. unfold arr_new.
      rewrite bool_decide_true by lia. by eexists.
    + cbn [mbind result_bind]. rewrite Hal. by eexists.
  - match goal with |- is_Ok (for_up ?n 0 ?body ?a ≫= _) =>
      destruct (for_up_total body n O a) as [[[ts ps] s] ->] end.
    + intros k [[ts ps] s] Hk. destruct (Htrack s) as [[c s'] ->].
      cbn [mbind result_bind].
      destruct (Hplayer k (length ts)) as [p ->]; [lia|].
      cbn [mbind result_bind]. unfold arr_new.
      rewrite bool_decide_true by lia. by eexists.
    + cbn [mbind result_bind]. rewrite Hal. by eexists.
Qed.

Lemma wide_terminal_starts_a_game_witness :
  is_Ok (game.game settings.reset (24, 80) true (constantly 0) O).
Proof.
  apply wide_terminal_starts_a_game; cbn; try done; try lia.
Defined.

(** *** Cars that meet *)

(** X28. Cars collide with the marks of other cars.  Once a car is
    marked on the track, a player with a car of the constructor that
    has a dot on a cell where the marked car has one does not survive
    the scan of [tick], unless the cars are drawn with blanks. *)
Theorem overlapping_cars_collide
    st (c : track.t) y x car c' p d d' survive scan :
  settings.character st ≠ " "%char →
  car_image.car_image st = Ok (player_handler.car p) →
  track.mark st c y x car = Ok c' →
  d ∈ car_image.get_dots car →
  d' ∈ car_image.get_dots (player_handler.car p) →
  y + d.1 = player_handler.y p + d'.1 →
  x + d.2 = player_handler.x p + d'.2 →
  player_handler.collisions st p c' = Ok (survive, scan) →
  survive = false.
Proof.
  intros Hch Hcar Hmark Hd Hd' Hy Hx Hscan.
  pose proof (car_image_size_range _ _ Hcar) as Hn.
  pose proof (car_dots_in_square _ _ Hcar) as Hin.
  rewrite Forall_forall in Hin. destruct (Hin d' Hd') as [Hd1 Hd2].
  apply car_image_Ok in Hcar as (Hpic & _).
  apply collisions_Ok in Hscan as (_ & _ & Hb). apply Hb.
  exists (y + d.1), (x + d.2).
  split; [lia|]. split; [lia|]. split.
  - rewrite mark_sweep in Hmark.
    apply sweep_cells in Hmark as (_ & Hcells & Hc).
    assert ((y + d.1, x + d.2) ∈ footprint y x (car_image.get_dots car))
      as Hp.
    { unfold footprint. apply list_elem_of_fmap. by exists d. }
    destruct (Hcells _ Hp) as [a Ha]. cbn [fst snd] in Ha.
    apply taken_Ok. rewrite Hc. case_decide as Hdec.
    + eexists. split; [done|]. by rewrite bool_decide_false.
    + exists a. split; [done|]. rewrite bool_decide_false; [done|].
      intros ->. apply Hdec. done.
  - replace (y + d.1 - player_handler.y p) with d'.1 by lia.
    replace (x + d.2 - player_handler.x p) with d'.2 by lia.
    rewrite collision_check_dots by (done || lia).
    rewrite bool_decide_true; [done|]. by destruct d'.
Qed.

Lemma overlapping_cars_collide_witness :
  ∃ car c' survive scan,
    car_image.car_image duel = Ok car ∧
    track.mark duel six_lines 4 3 two_dots = Ok c' ∧
    player_handler.collisions duel (driver car 4 2) c' = Ok (survive, scan) ∧
    survive = false.
Proof.
  compute_result (car_image.car_image duel)
    ltac:(fun v => match v with Ok ?c => exists c end).
  compute_result (track.mark duel six_lines 4 3 two_dots)
    ltac:(fun v => match v with Ok ?c => exists c end).
  match goal with
  | |- ∃ survive scan, _ ∧ _ ∧ player_handler.collisions _ ?p ?c' = _ ∧ _ =>
      compute_result (player_handler.collisions duel p c')
        ltac:(fun v => match v with Ok (?b, ?s) => exists b, s end)
  end.
  match goal with
  | |- _ ∧ _ ∧ player_handler.collisions _ ?p ?c' = Ok (?b, ?s) ∧ _ =>
      pose proof (overlapping_cars_collide duel six_lines 4 3 two_dots c' p
                    (0, 0) (0, 1) b s) as Hx
  end.
  split; [by vm_compute|]. split; [by vm_compute|]. split; [by vm_compute|].
  apply Hx; [done|by vm_compute|by vm_compute|in_list|in_list|done|done|
             by vm_compute].
Defined.
